(** * Super Meat Boy Archipelago client: model and verified properties

    A shallow embedding of [smb_game_data.py] and of the detection and
    enforcement core of [smb_ap_client.py].

    Conventions of the embedding:
    - Python integers are [Z]; bit operations are [Z.land], [Z.lor],
      [Z.shiftl] and [Z.testbit].
    - Python sets are [gset], dictionaries are [gmap]; dictionaries that are
      iterated keep their insertion order as a list of pairs.
    - Region kinds are the Python strings ["light"], ["dark"], ["warp"].
    - Best times are exact rationals [Q]: the comparisons of the source are
      kept, IEEE rounding and NaN are outside the model.
    - The process memory is a partial map from absolute addresses to bytes
      (and to time cells); an access outside the map is the exception pymem
      raises.
    - Log lines are structured events instead of formatted strings. *)

From Stdlib Require Import ZArith QArith Qabs String List Lia.
From stdpp Require Import gmap strings list fin_maps pretty.

Local Open Scope Z_scope.

(** ** smb_game_data.py *)

Module smb_game_data.

Definition BASE_ID : Z := 7700000.

(** Completion byte flags. *)
Definition FLAG_BANDAGE : Z := 0x01.
Definition FLAG_COMPLETE : Z := 0x02.
Definition FLAG_WARP : Z := 0x08.

(** [~FLAG & 0xFF] on Python integers. *)
Definition MASK_CLEAR_BANDAGE : Z := Z.land (Z.lnot FLAG_BANDAGE) 0xFF.
Definition MASK_CLEAR_WARP : Z := Z.land (Z.lnot FLAG_WARP) 0xFF.

(** Bandage locations, 1-indexed level numbers per world. *)
Definition LIGHT_BANDAGE_LEVELS : gmap Z (list Z) :=
  list_to_map
    [ (1, [4; 7; 9; 11; 13; 18; 20]);
      (2, [2; 5; 10; 13; 16; 18; 20]);
      (3, [1; 2; 4; 10; 11; 18; 20]);
      (4, [2; 6; 9; 13; 16; 17; 20]);
      (5, [3; 5; 9; 12; 16; 18; 20]) ].

Definition DARK_BANDAGE_LEVELS : gmap Z (list Z) :=
  list_to_map
    [ (1, [3; 5; 10; 14; 15; 17; 19]);
      (2, [4; 6; 7; 10; 12; 15; 16]);
      (3, [3; 5; 6; 7; 14; 16; 19]);
      (4, [3; 4; 8; 10; 14; 18; 19]);
      (5, [4; 5; 8; 10; 11; 17; 18]) ].

Definition WARP_BANDAGE_SLOTS : gmap Z (list Z) :=
  list_to_map
    [ (1, [1; 2; 8; 9; 11; 12]);
      (2, [1; 3; 7; 8; 10; 12]);
      (3, [1; 3; 7; 9; 11; 12]);
      (4, [2; 3; 8; 9; 11; 12]);
      (5, [2; 3; 7; 9; 10; 11]) ].

(** Save data structure.  [WORLD_BASES] is a module-level dictionary that
    the client mutates when it is imported, so the address helpers below
    take the table that is current at the time of the call. *)
Definition WORLD_BASES : gmap Z Z :=
  list_to_map
    [ (1, 0x0060); (2, 0x02D0); (3, 0x0540); (4, 0x07B0);
      (5, 0x0A20); (6, 0x0C90); (7, 0x0F00) ].

Definition LIGHT_OFFSET : Z := 0x000.
Definition DARK_OFFSET : Z := 0x0F0.
Definition WARP_OFFSET : Z := 0x1E0.
Definition SLOT_SIZE : Z := 0x0C.
Definition TIME_BYTE : Z := 0.
Definition COMP_BYTE : Z := 4.
Definition NUM_WARP_SLOTS : Z := 12.

Definition NUM_LEVELS : gmap Z Z :=
  list_to_map [ (1, 20); (2, 20); (3, 20); (4, 20); (5, 20); (6, 5); (7, 20) ].

(** Address helpers; [None] is Python's [None]. *)
Definition slot_addr (bases : gmap Z Z) (world level_index : Z)
    (region : string) : option Z :=
  match bases !! world with
  | None => None
  | Some wb =>
      if decide (region = "light"%string) then
        Some (wb + LIGHT_OFFSET + level_index * SLOT_SIZE)
      else if decide (region = "dark"%string) then
        Some (wb + DARK_OFFSET + level_index * SLOT_SIZE)
      else if decide (region = "warp"%string) then
        Some (wb + WARP_OFFSET + level_index * SLOT_SIZE)
      else None
  end.

Definition comp_addr (bases : gmap Z Z) (world level_index : Z)
    (region : string) : option Z :=
  match slot_addr bases world level_index region with
  | Some sa => Some (sa + COMP_BYTE)
  | None => None
  end.

Definition time_addr (bases : gmap Z Z) (world level_index : Z)
    (region : string) : option Z :=
  match slot_addr bases world level_index region with
  | Some sa => Some (sa + TIME_BYTE)
  | None => None
  end.

(** Par times, indexed as [PAR_TIMES[world_0idx][type_idx][level_0idx]]. *)
Definition PAR_TIMES : list (list (list Q)) :=
  ([
    (* World 1 *)
    [
      [3.0; 5.0; 9.0; 9.0; 11.0; 7.0; 5.0; 4.5; 8.0; 7.5; 8.0; 7.0; 7.0; 8.0; 10.0; 9.0; 9.0; 4.0; 20.0; 22.0];
      [3.0; 4.5; 10.0; 12.0; 10.0; 7.0; 5.0; 6.0; 11.0; 11.0; 13.0; 12.0; 12.0; 14.0; 18.0; 17.0; 12.0; 5.0; 17.0; 25.0];
      [5.0; 5.0; 5.0; 5.0; 5.0; 5.0; 5.0; 5.0; 5.0; 5.0; 5.0; 5.0]
    ];
    (* World 2 *)
    [
      [11.0; 10.5; 14.0; 9.5; 16.0; 15.0; 19.0; 25.0; 11.0; 12.0; 9.0; 11.0; 10.0; 16.0; 19.0; 15.0; 14.0; 16.5; 14.0; 24.0];
      [17.0; 14.0; 13.0; 14.0; 20.0; 19.0; 30.0; 33.0; 14.0; 13.0; 12.5; 22.5; 11.0; 31.0; 32.0; 16.0; 12.0; 17.0; 26.0; 36.0];
      [5.0; 5.0; 5.0; 5.0; 5.0; 5.0; 5.0; 5.0; 5.0; 5.0; 5.0; 5.0]
    ];
    (* World 3 *)
    [
      [9.5; 8.3; 16.0; 12.0; 12.2; 4.5; 12.4; 8.3; 12.5; 10.5; 9.0; 11.6; 15.8; 14.8; 14.8; 14.8; 10.5; 17.0; 17.0; 20.0];
      [23.0; 16.0; 16.5; 20.0; 28.0; 20.0; 15.5; 17.5; 21.0; 18.0; 24.0; 11.6; 40.0; 18.0; 27.0; 24.0; 11.5; 17.0; 17.0; 25.5];
      [5.0; 5.0; 5.0; 5.0; 5.0; 5.0; 5.0; 5.0; 5.0; 5.0; 5.0; 5.0]
    ];
    (* World 4 *)
    [
      [11.0; 23.0; 11.5; 11.5; 12.0; 8.0; 17.0; 16.0; 6.0; 15.0; 12.5; 10.8; 11.5; 17.5; 9.0; 12.0; 12.0; 24.5; 14.0; 22.0];
      [19.0; 16.5; 12.0; 17.5; 14.0; 19.0; 18.0; 19.0; 10.5; 17.0; 16.5; 18.5; 23.0; 20.0; 11.0; 11.5; 18.0; 29.0; 14.0; 31.0];
      [5.0; 5.0; 5.0; 5.0; 5.0; 5.0; 5.0; 5.0; 5.0; 5.0; 5.0; 5.0]
    ];
    (* World 5 *)
    [
      [22.0; 13.0; 18.0; 13.5; 12.5; 11.0; 23.0; 20.0; 19.5; 15.5; 18.5; 16.0; 20.0; 30.5; 13.5; 30.0; 23.0; 17.0; 29.0; 32.0];
      [30.0; 17.0; 35.0; 27.0; 18.0; 12.0; 15.0; 26.0; 40.0; 15.0; 25.0; 26.0; 25.0; 60.0; 15.0; 32.0; 27.0; 19.0; 41.0; 48.0];
      [5.0; 5.0; 5.0; 5.0; 5.0; 5.0; 5.0; 5.0; 5.0; 5.0; 5.0; 5.0]
    ];
    (* World 6 *)
    [
      [30.0; 44.0; 34.0; 33.0; 44.0];
      [40.0; 50.0; 70.0; 50.0; 60.0]
    ];
    (* World 7 *)
    [
      [11.0; 13.0; 23.0; 26.0; 30.0; 7.5; 10.5; 26.0; 21.0; 32.0; 18.0; 11.6; 22.0; 40.0; 24.0; 20.0; 20.0; 21.0; 17.0; 45.0];
      [60.0; 60.0; 60.0; 60.0; 60.0; 60.0; 60.0; 60.0; 60.0; 60.0; 60.0; 60.0; 60.0; 60.0; 60.0; 60.5; 60.5; 60.0; 60.0; 60.0]
    ]
  ])%Q.

(** The [type_map] dictionary of [get_par_time]. *)
Definition type_map (region : string) : option Z :=
  if decide (region = "light"%string) then Some 0
  else if decide (region = "dark"%string) then Some 1
  else if decide (region = "warp"%string) then Some 2
  else None.

(** [len(l)] as a Python integer. *)
Definition len {A} (l : list A) : Z := Z.of_nat (length l).

Definition get_par_time (world level_index : Z) (region : string) : option Q :=
  let wi := world - 1 in
  if decide (wi < 0 ∨ wi >= len PAR_TIMES) then None
  else
    match type_map region with
    | None => None
    | Some ti =>
        match PAR_TIMES !! Z.to_nat wi with
        | None => None
        | Some by_type =>
            if decide (ti >= len by_type) then None
            else
              match by_type !! Z.to_nat ti with
              | None => None
              | Some times =>
                  if decide (level_index < 0 ∨ level_index >= len times)
                  then None
                  else times !! Z.to_nat level_index
              end
        end
    end.

(** [a <= b] and [a > b] on times, as booleans. *)
Definition qle (a b : Q) : bool := Qle_bool a b.
Definition qgt (a b : Q) : bool := negb (Qle_bool a b).

Definition is_a_plus (time_val : Q) (world level_index : Z)
    (region : string) : bool :=
  match get_par_time world level_index region with
  | None => false
  | Some par => if qle time_val 0 then false else qle time_val par
  end.

(** AP location id scheme. *)
Definition level_location_id (world level_index : Z) : Z :=
  BASE_ID + (world - 1) * 20 + (level_index + 1).
Definition w6_level_location_id (level_index : Z) : Z :=
  BASE_ID + 401 + level_index.
Definition w6_dark_level_location_id (level_index : Z) : Z :=
  BASE_ID + 406 + level_index.
Definition dark_level_location_id (world level_index : Z) : Z :=
  BASE_ID + 300 + (world - 1) * 20 + (level_index + 1).
Definition boss_location_id (world : Z) : Z := BASE_ID + 100 + world.
Definition dark_boss_location_id : Z := BASE_ID + 107.

Definition aplus_light_location_id (world level_index : Z) : Z :=
  BASE_ID + 500 + (world - 1) * 20 + (level_index + 1).
Definition aplus_dark_location_id (world level_index : Z) : Z :=
  BASE_ID + 600 + (world - 1) * 20 + (level_index + 1).
Definition aplus_w6_light_location_id (level_index : Z) : Z :=
  BASE_ID + 701 + level_index.
Definition aplus_w6_dark_location_id (level_index : Z) : Z :=
  BASE_ID + 706 + level_index.
Definition aplus_w7_light_location_id (level_index : Z) : Z :=
  BASE_ID + 711 + level_index.
Definition aplus_w7_dark_location_id (level_index : Z) : Z :=
  BASE_ID + 731 + level_index.
Definition aplus_warp_location_id (world warp_slot_index : Z) : Z :=
  BASE_ID + 751 + (world - 1) * 12 + warp_slot_index.

Definition w7_light_location_id (level_index : Z) : Z :=
  BASE_ID + 811 + level_index.
Definition w7_dark_location_id (level_index : Z) : Z :=
  BASE_ID + 831 + level_index.

Definition bandage_milestone_location_id (count : Z) : Z :=
  BASE_ID + 920 + count `div` 10.
Definition BANDAGE_MILESTONES : list Z :=
  [10; 20; 30; 40; 50; 60; 70; 80; 90; 100].

(** Warp host levels: [(world, host_1idx, region)] to the zone index. *)
Definition WARP_HOST_TO_ZONE : gmap (Z * Z * string) Z :=
  list_to_map
    [ ((1, 5, "light"), 0); ((1, 12, "light"), 1); ((1, 19, "light"), 2); ((1, 13, "dark"), 3);
      ((2, 15, "light"), 0); ((2, 8, "light"), 1); ((2, 12, "light"), 2); ((2, 5, "dark"), 3);
      ((3, 7, "light"), 0); ((3, 16, "light"), 1); ((3, 5, "light"), 2); ((3, 8, "dark"), 3);
      ((4, 8, "light"), 0); ((4, 18, "light"), 1); ((4, 14, "light"), 2); ((4, 7, "dark"), 3);
      ((5, 1, "light"), 0); ((5, 7, "light"), 1); ((5, 12, "light"), 2); ((5, 20, "dark"), 3) ]%string.

(** Unified dispatchers. *)
Definition get_completion_location_id (world level_index : Z)
    (region : string) : option Z :=
  if decide (region = "light"%string) then
    if decide (1 <= world <= 5 ∧ 0 <= level_index < 20) then
      Some (level_location_id world level_index)
    else if decide (world = 6 ∧ 0 <= level_index < 5) then
      Some (w6_level_location_id level_index)
    else if decide (world = 7 ∧ 0 <= level_index < 20) then
      Some (w7_light_location_id level_index)
    else None
  else if decide (region = "dark"%string) then
    if decide (1 <= world <= 5 ∧ 0 <= level_index < 20) then
      Some (dark_level_location_id world level_index)
    else if decide (world = 6 ∧ 0 <= level_index < 5) then
      Some (w6_dark_level_location_id level_index)
    else if decide (world = 7 ∧ 0 <= level_index < 20) then
      Some (w7_dark_location_id level_index)
    else None
  else None.

Definition get_aplus_location_id (world level_index : Z)
    (region : string) : option Z :=
  if decide (region = "light"%string) then
    if decide (1 <= world <= 5 ∧ 0 <= level_index < 20) then
      Some (aplus_light_location_id world level_index)
    else if decide (world = 6 ∧ 0 <= level_index < 5) then
      Some (aplus_w6_light_location_id level_index)
    else if decide (world = 7 ∧ 0 <= level_index < 20) then
      Some (aplus_w7_light_location_id level_index)
    else None
  else if decide (region = "dark"%string) then
    if decide (1 <= world <= 5 ∧ 0 <= level_index < 20) then
      Some (aplus_dark_location_id world level_index)
    else if decide (world = 6 ∧ 0 <= level_index < 5) then
      Some (aplus_w6_dark_location_id level_index)
    else if decide (world = 7 ∧ 0 <= level_index < 20) then
      Some (aplus_w7_dark_location_id level_index)
    else None
  else if decide (region = "warp"%string) then
    if decide (1 <= world <= 5 ∧ 0 <= level_index < 12) then
      Some (aplus_warp_location_id world level_index)
    else None
  else None.

(** One entry of [CORRECTED_BANDAGE_DATA].  The [name] key of the source
    dictionary is a display string used only in log lines and is left out. *)
Record bandage := Bandage {
  b_world : Z;
  b_index : Z;
  b_region : string;
  b_ap_id : Z;
}.

(** One pass of the three loops of [build_corrected_bandage_data]: every
    1-indexed level of the table becomes an entry and takes the next id. *)
Definition append_bandages (table : gmap Z (list Z)) (region : string)
    (acc : list bandage * Z) : list bandage * Z :=
  foldl (fun acc w =>
    foldl (fun '(data, ap_idx) lv_1idx =>
      let idx_0 := lv_1idx - 1 in
      (data ++ [Bandage w idx_0 region (BASE_ID + 201 + ap_idx)],
       ap_idx + 1))
      acc (table !!! w))
    acc (seqZ 1 5).

Definition build_corrected_bandage_data : list bandage :=
  let acc := ([], 0) in
  let acc := append_bandages LIGHT_BANDAGE_LEVELS "light" acc in
  let acc := append_bandages DARK_BANDAGE_LEVELS "dark" acc in
  let acc := append_bandages WARP_BANDAGE_SLOTS "warp" acc in
  acc.1.

Definition CORRECTED_BANDAGE_DATA : list bandage :=
  Eval vm_compute in build_corrected_bandage_data.

(** The address lookup is built when the module is imported, with the
    [WORLD_BASES] of this module. *)
Definition build_bandage_by_addr (data : list bandage) : gmap Z bandage :=
  foldl (fun m b =>
    match comp_addr WORLD_BASES (b_world b) (b_index b) (b_region b) with
    | Some ca => <[ca := b]> m
    | None => m
    end) ∅ data.

Definition CORRECTED_BANDAGE_BY_ADDR : gmap Z bandage :=
  Eval vm_compute in build_bandage_by_addr CORRECTED_BANDAGE_DATA.

(** *** Names and the remaining location ids *)

Definition WORLD_NAMES : gmap Z string :=
  list_to_map
    [ (1, "The Forest"); (2, "The Hospital"); (3, "The Salt Factory");
      (4, "Hell"); (5, "Rapture"); (6, "The End"); (7, "Cotton Alley") ]%string.

(** Level names, indexed as [LEVEL_NAMES[world_0idx][type_idx][level_0idx]]. *)
Definition LEVEL_NAMES : list (list (list string)) :=
  [
    (* World 1 - The Forest *)
    [
      ["Hello World"; "Upward"; "The Gap"; "Nutshell"; "Holy Mountain"; "Bladecatcher"; "Diverge"; "The Bit"; "Safety Third"; "The Levee"; "Fired"; "Revolve"; "Tommy's Cabin"; "Blood Mountain"; "Cactus Jumper"; "Sidewinder"; "MorningStar"; "Altamont"; "Intermission"; "The Test"];
      ["oh, hello"; "Onward"; "BZZZZZ"; "Plum Rain"; "Creamsoda"; "I am the night"; "Two Roads"; "Big Red"; "So close"; "Walls"; "Doused"; "Fireal"; "Tommy's Condo"; "Mystery Spot"; "Kick Machine"; "Night Game"; "The Clock"; "Whitewash"; "The Queener"; "A perfect end"];
      ["Sky Pup"; "Sky Pup"; "Sky Pup"; "The Commander!"; "The Commander!"; "The Commander!"; "Hand Held Hack"; "Hand Held Hack"; "Hand Held Hack"; "Space boy"; "Space boy"; "Space boy"]
    ];
    (* World 2 - The Hospital *)
    [
      ["Biohazard"; "One Down"; "Memories"; "Blew"; "Big Empty"; "The Grain"; "Hush"; "The Sabbath"; "Blood Swamp"; "johnny's cage"; "Ghost Key"; "Above"; "Ulcer pop"; "Aunt Flo"; "Gallbladder"; "Synj"; "Worm food"; "destructoid"; "six feet"; "Day Breaker"];
      ["back track"; "pinkeye falls"; "Buzzzzcut"; "Blown"; "Agent Orange"; "Cher noble"; "The Moon"; "Grape Soda"; "Centipede"; "The Kracken"; "Spineless"; "Grey Matter"; "Dust Bunnies"; "Crawl Space"; "Insurance?"; "P.S.Y."; "Nels Box"; "electrolysis"; "Tenebrae"; "Solemnity"];
      ["The Blood Shed"; "The Blood Shed"; "The Blood Shed"; "The Bootlicker!"; "The Bootlicker!"; "The Bootlicker!"; "Castle Crushers"; "Castle Crushers"; "Castle Crushers"; "1977"; "1977"; "1977"]
    ];
    (* World 3 - The Salt Factory *)
    [
      ["Pit Stop"; "The Salt Lick"; "Push"; "Transmissions"; "Uptown"; "The Shaft"; "Mind the Gap"; "Boomtown"; "Shotzie!"; "Breakdown"; "Box Tripper"; "The Dumper"; "The Bend"; "Gurdy"; "Vertigo"; "Mono"; "Rustic"; "The Grundle"; "Dig"; "White Noise"];
      ["Step one"; "Salt + Wound"; "The Red Room"; "Assemble"; "Wasp"; "Not You Again"; "Pluck"; "Salt Crown"; "Goliath"; "Exploder"; "The Salt Man"; "Hellevator"; "Black Circle"; "Salmon"; "Vertebreaker"; "The Chaser"; "Ashes"; "Bile Duct"; "El Topo"; "Sweet Pea"];
      ["Tunnel Vision"; "Tunnel Vision"; "Tunnel Vision"; "The Jump Man!"; "The Jump Man!"; "The Jump Man!"; "Cartridge Dump"; "Cartridge Dump"; "Cartridge Dump"; "Kontra"; "Kontra"; "Kontra"]
    ];
    (* World 4 - Hell *)
    [
      ["Boilermaker"; "Brindle"; "Heck Hole"; "Hex"; "Pyro"; "Leviathan"; "Rickets"; "Weibe"; "Deceiver"; "Ball n Chain"; "Oracle"; "Big Brother"; "Lazy"; "Adversary"; "Abaddon"; "Bow"; "Lost Highway"; "Boris"; "The Hive"; "Babylon"];
      ["Gretel"; "Golgotha"; "Char"; "Altered"; "Wicked One"; "The Gnashing"; "Thistle"; "Billy Boy"; "Glut"; "Gallow"; "Surrender"; "Beholder"; "Oblivion"; "Old Scratch"; "Bone Yard"; "Starless"; "Invocation"; "Sag Chamber"; "Long Goodbye"; "Imperial"];
      ["The Key Master"; "The Key Master"; "The Key Master"; "The Fly Guy!"; "The Fly Guy!"; "The Fly Guy!"; "Brimstone"; "Brimstone"; "Brimstone"; "mmmmmm"; "mmmmmm"; "mmmmmm"]
    ];
    (* World 5 - Rapture *)
    [
      ["the witness"; "evangel"; "Ripe Decay"; "Rise"; "Panic Switch"; "Left Behind"; "The Fallen"; "Descent"; "Abomination"; "Grinding Mill"; "Heretic"; "10 Horns"; "The Lamb"; "King Carrion"; "The Flood"; "Rotgut"; "The Kingdom"; "Gate of Ludd"; "Wrath"; "Judgment"];
      ["The Clot"; "Loomer"; "Spank"; "Alabaster"; "Nix"; "Ripcord"; "Downpthe"; "Downer"; "Swine"; "Pulp Factory"; "Blight"; "Canker"; "Halo of Flies"; "Necrosis"; "Choke"; "Coil"; "Millenium"; "Stain"; "Magog"; "Quietus"];
      ["Skyscraper"; "Skyscraper"; "Skyscraper"; "The Guy!"; "The Guy!"; "The Guy!"; "Sunshine Island"; "Sunshine Island"; "Sunshine Island"; "Meat is Death"; "Meat is Death"; "Meat is Death"]
    ];
    (* World 6 - The End *)
    [
      ["The Pit"; "Schism"; "Echoes"; "Gently"; "Omega"];
      ["Detox"; "Ghost Tomb"; "From Beyond"; "Maze of Ith"; "No Quarter"]
    ];
    (* World 7 - Cotton Alley *)
    [
      ["Pink Noise"; "Run Rabbit Run"; "Spinal Tap"; "Stag"; "Tommunism"; "Panic Attack"; "Tunnel Blower"; "Pig Latin"; "Hatch"; "Bullet Bob"; "Train Eater"; "Peel"; "Pepto"; "Watchtower"; "Lock out"; "hopscotch"; "lead sheets"; "Oobs revenge"; "The Rash"; "4 letter word"];
      ["White  Noise"; "Flipside"; "Organ Grinder"; "The Tower"; "Waiting Room"; "Bone Machine"; "Going up"; "In Line"; "Salt Shaker"; "MasterBlaster"; "Thumb"; "Pink"; "bleach"; "20/20"; "Patience"; "Curls"; "bullet proof"; "They Bite"; "XOXO"; "Brag rights"]
    ]
  ]%string.

(** [(world, zone_index)] to the warp zone name. *)
Definition WARP_ZONE_NAMES : gmap (Z * Z) string :=
  list_to_map
    [ ((1, 0), "Sky Pup"); ((1, 1), "The Commander!"); ((1, 2), "Hand Held Hack"); ((1, 3), "Space Boy");
      ((2, 0), "The Blood Shed"); ((2, 1), "The Bootlicker!"); ((2, 2), "Castle Crushers"); ((2, 3), "1977");
      ((3, 0), "Tunnel Vision"); ((3, 1), "The Jump Man!"); ((3, 2), "Cartridge Dump"); ((3, 3), "Kontra");
      ((4, 0), "The Key Master"); ((4, 1), "The Fly Guy!"); ((4, 2), "Brimstone"); ((4, 3), "MMMMMM");
      ((5, 0), "Skyscraper"); ((5, 1), "The Guy!"); ((5, 2), "Sunshine Island"); ((5, 3), "Meat Is Death") ]%string.

(** World to [(character_name, host_level_1indexed)]. *)
Definition CHARACTER_WARPS : gmap Z (string * Z) :=
  list_to_map
    [ (1, ("Commander Video", 12)); (2, ("Jill", 8)); (3, ("Ogmo", 16));
      (4, ("Flywrench", 18)); (5, ("The Kid", 7)) ]%string.

Definition CHARACTER_WARP_SLOTS : list Z := [3; 4; 5].

(** [str(n)] and [{n}] in an f-string, for an integer. *)
Definition py_str (n : Z) : string := pretty n.

(** [a or b] on an optional string: [None] and the empty string are
    false. *)
Definition str_or (a : option string) (b : string) : string :=
  match a with
  | Some s => if decide (s = ""%string) then b else s
  | None => b
  end.

Definition get_level_name (world level_index : Z) (region : string)
    : option string :=
  let wi := world - 1 in
  if decide (wi < 0 ∨ wi >= len LEVEL_NAMES) then None
  else
    match type_map region with
    | None => None
    | Some ti =>
        match LEVEL_NAMES !! Z.to_nat wi with
        | None => None
        | Some by_type =>
            if decide (ti >= len by_type) then None
            else
              match by_type !! Z.to_nat ti with
              | None => None
              | Some names =>
                  if decide (level_index < 0 ∨ level_index >= len names)
                  then None
                  else names !! Z.to_nat level_index
              end
        end
    end.

Definition character_unlock_location_id (world : Z) : Z := BASE_ID + 850 + world.
Definition warp_completion_location_id (world zone_index : Z) : Z :=
  BASE_ID + 861 + (world - 1) * 4 + zone_index.
Definition world_clear_location_id (world : Z) : Z := BASE_ID + 900 + world.
Definition world_dark_clear_location_id (world : Z) : Z := BASE_ID + 905 + world.
Definition w6_clear_location_id : Z := BASE_ID + 911.
Definition w6_dark_clear_location_id : Z := BASE_ID + 912.
Definition w7_clear_location_id : Z := BASE_ID + 913.
Definition w7_dark_clear_location_id : Z := BASE_ID + 914.
Definition golden_god_location_id : Z := BASE_ID + 931.
Definition girl_boy_location_id : Z := BASE_ID + 932.

(** The [f"{w}-{lv+1}{suffix} {name}"] of the level blocks of
    [get_location_name], with the fallback name of a missing level. *)
Definition level_label (prefix : string) (w : string) (lv : Z)
    (suffix : string) (name : option string) : string :=
  (prefix +:+ w +:+ "-" +:+ py_str (lv + 1) +:+ suffix +:+ " "
   +:+ str_or name ("Level " +:+ py_str (lv + 1)))%string.

Definition world_label (w : Z) : string :=
  default ("W" +:+ py_str w)%string (WORLD_NAMES !! w).

Definition get_location_name (loc_id : Z) : string :=
  let lid := loc_id - BASE_ID in
  (* Light levels W1-W5: 1-100 *)
  if decide (1 <= lid <= 100) then
    let w := (lid - 1) `div` 20 + 1 in
    let lv := (lid - 1) `mod` 20 in
    level_label "" (py_str w) lv "" (get_level_name w lv "light")
  (* Bosses: 101-106 *)
  else if decide (101 <= lid <= 106) then
    ("Boss - " +:+ world_label (lid - 100))%string
  else if decide (lid = 107) then "Boss - The End (Dark)"%string
  (* Bandages: 201-300 *)
  else if decide (201 <= lid <= 300) then
    ("Bandage #" +:+ py_str (lid - 200))%string
  (* Dark levels W1-W5: 301-400 *)
  else if decide (301 <= lid <= 400) then
    let did := lid - 300 in
    let w := (did - 1) `div` 20 + 1 in
    let lv := (did - 1) `mod` 20 in
    level_label "" (py_str w) lv "X" (get_level_name w lv "dark")
  (* W6 light: 401-405 *)
  else if decide (401 <= lid <= 405) then
    let lv := lid - 401 in
    level_label "" "6" lv "" (get_level_name 6 lv "light")
  (* W6 dark: 406-410 *)
  else if decide (406 <= lid <= 410) then
    let lv := lid - 406 in
    level_label "" "6" lv "X" (get_level_name 6 lv "dark")
  (* A+ Light W1-W5: 501-600 *)
  else if decide (501 <= lid <= 600) then
    let aid := lid - 500 in
    let w := (aid - 1) `div` 20 + 1 in
    let lv := (aid - 1) `mod` 20 in
    level_label "A+ " (py_str w) lv "" (get_level_name w lv "light")
  (* A+ Dark W1-W5: 601-700 *)
  else if decide (601 <= lid <= 700) then
    let aid := lid - 600 in
    let w := (aid - 1) `div` 20 + 1 in
    let lv := (aid - 1) `mod` 20 in
    level_label "A+ " (py_str w) lv "X" (get_level_name w lv "dark")
  (* A+ W6 Light: 701-705 *)
  else if decide (701 <= lid <= 705) then
    let lv := lid - 701 in
    level_label "A+ " "6" lv "" (get_level_name 6 lv "light")
  (* A+ W6 Dark: 706-710 *)
  else if decide (706 <= lid <= 710) then
    let lv := lid - 706 in
    level_label "A+ " "6" lv "X" (get_level_name 6 lv "dark")
  (* A+ W7 Light: 711-730 *)
  else if decide (711 <= lid <= 730) then
    let lv := lid - 711 in
    level_label "A+ " "7" lv "" (get_level_name 7 lv "light")
  (* A+ W7 Dark: 731-750 *)
  else if decide (731 <= lid <= 750) then
    let lv := lid - 731 in
    level_label "A+ " "7" lv "X" (get_level_name 7 lv "dark")
  (* A+ Warp: 751-810 *)
  else if decide (751 <= lid <= 810) then
    let wi := (lid - 751) `div` 12 in
    let si := (lid - 751) `mod` 12 in
    let w := wi + 1 in
    let zone_idx := si `div` 3 in
    let sub := si `mod` 3 + 1 in
    let wname := default ("Zone " +:+ py_str zone_idx)%string
                   (WARP_ZONE_NAMES !! (w, zone_idx)) in
    ("A+ " +:+ wname +:+ " " +:+ py_str sub)%string
  (* W7 Light: 811-830 *)
  else if decide (811 <= lid <= 830) then
    let lv := lid - 811 in
    level_label "" "7" lv "" (get_level_name 7 lv "light")
  (* W7 Dark: 831-850 *)
  else if decide (831 <= lid <= 850) then
    let lv := lid - 831 in
    level_label "" "7" lv "X" (get_level_name 7 lv "dark")
  (* Character unlocks: 851-855 *)
  else if decide (851 <= lid <= 855) then
    let w := lid - 850 in
    let char_name :=
      match CHARACTER_WARPS !! w with
      | Some (n, _) => n
      | None => "Unknown"%string
      end in
    ("Character - " +:+ char_name)%string
  (* Warp completions: 861-880 *)
  else if decide (861 <= lid <= 880) then
    let wi := (lid - 861) `div` 4 in
    let zi := (lid - 861) `mod` 4 in
    let w := wi + 1 in
    let wname := default ("Zone " +:+ py_str zi)%string
                   (WARP_ZONE_NAMES !! (w, zi)) in
    ("Warp Complete - " +:+ wname)%string
  (* World clears: 901-905 *)
  else if decide (901 <= lid <= 905) then
    ("World Clear - " +:+ world_label (lid - 900))%string
  (* World dark clears: 906-910 *)
  else if decide (906 <= lid <= 910) then
    ("Dark Clear - " +:+ world_label (lid - 905))%string
  else if decide (lid = 911) then "World Clear - The End"%string
  else if decide (lid = 912) then "Dark Clear - The End"%string
  else if decide (lid = 913) then "World Clear - Cotton Alley"%string
  else if decide (lid = 914) then "Dark Clear - Cotton Alley"%string
  (* Bandage milestones: 921-930 *)
  else if decide (921 <= lid <= 930) then
    let count := (lid - 920) * 10 in
    ("Bandage Milestone - " +:+ py_str count)%string
  else if decide (lid = 931) then "The Golden God (All Light A+)"%string
  else if decide (lid = 932) then "Girl Boy (All Dark A+)"%string
  else ("Unknown Location " +:+ py_str loc_id)%string.

End smb_game_data.

(** ** smb_ap_client.py *)

Module smb_ap_client.
Import smb_game_data.

(** *** W6/W7 address corrections *)

(** [WORLD_BASES[7] = 0x0D08]: the imported dictionary is updated in place,
    so the helpers of [smb_game_data] see this table from now on. *)
Definition WORLD_BASES : gmap Z Z := <[7 := 0x0D08]> smb_game_data.WORLD_BASES.
Definition W6_DARK_OFFSET : Z := 0x3C.

Definition _orig_comp_addr := smb_game_data.comp_addr WORLD_BASES.
Definition _orig_time_addr := smb_game_data.time_addr WORLD_BASES.
Definition _orig_slot_addr := smb_game_data.slot_addr WORLD_BASES.

Definition comp_addr (world index : Z) (region : string) : option Z :=
  if decide (world = 6 ∧ region = "dark"%string) then
    Some ((WORLD_BASES !!! 6) + W6_DARK_OFFSET + index * SLOT_SIZE + COMP_BYTE)
  else if decide (world = 6 ∧ region = "warp"%string) then None
  else if decide (world = 7 ∧ region = "warp"%string) then None
  else _orig_comp_addr world index region.

Definition time_addr (world index : Z) (region : string) : option Z :=
  if decide (world = 6 ∧ region = "dark"%string) then
    Some ((WORLD_BASES !!! 6) + W6_DARK_OFFSET + index * SLOT_SIZE + TIME_BYTE)
  else if decide (world = 6 ∧ region = "warp"%string) then None
  else if decide (world = 7 ∧ region = "warp"%string) then None
  else _orig_time_addr world index region.

Definition slot_addr (world index : Z) (region : string) : option Z :=
  if decide (world = 6 ∧ region = "dark"%string) then
    Some ((WORLD_BASES !!! 6) + W6_DARK_OFFSET + index * SLOT_SIZE)
  else if decide (world = 6 ∧ region = "warp"%string) then None
  else if decide (world = 7 ∧ region = "warp"%string) then None
  else _orig_slot_addr world index region.

(** *** Constants *)

(** Memory addresses (the keys of [ADDR]). *)
Definition ADDR_playing : Z := 0x30a1c8.
Definition ADDR_world : Z := 0x2f79ac.
Definition ADDR_level_beaten : Z := 0x30a1e0.
Definition ADDR_level : Z * Z := (0x30ac90, 0x8dc).
Definition ADDR_lvl_type : Z * Z := (0x30a1a0, 0x3c68).
Definition ADDR_save_ptr : Z := 0x30a380.
Definition ADDR_world_unlock : Z := 0x3954.
Definition ADDR_ui_state : Z * Z := (0x30ac90, 0x8e0).
Definition ADDR_level_trans : Z := 0x30ad00.

Definition TYPE_LIGHT : Z := 0.
Definition TYPE_DARK : Z := 1.
Definition TYPE_WARP_MIN : Z := 2.
Definition TYPE_WARP_MAX : Z := 5.
Definition BOSS_LEVEL_INDEX : Z := 20.

(** Item ids. *)
Definition ITEM_WORLD2 : Z := BASE_ID + 1.
Definition ITEM_WORLD3 : Z := BASE_ID + 2.
Definition ITEM_WORLD4 : Z := BASE_ID + 3.
Definition ITEM_WORLD5 : Z := BASE_ID + 4.
Definition ITEM_BANDAGE : Z := BASE_ID + 5.
Definition ITEM_1UP : Z := BASE_ID + 6.
Definition ITEM_WORLD6 : Z := BASE_ID + 7.
Definition ITEM_WORLD7 : Z := BASE_ID + 8.

Definition WORLD_ACCESS_ITEM_IDS : gmap Z Z :=
  list_to_map
    [ (ITEM_WORLD2, 2); (ITEM_WORLD3, 3); (ITEM_WORLD4, 4);
      (ITEM_WORLD5, 5); (ITEM_WORLD6, 6); (ITEM_WORLD7, 7) ].

(** Character items: item id to the bit of the character bitmask (the
    display name of the source tuple is left out). *)
Definition CHARACTER_BITMASK_OFFSET : Z := 0x3950.
Definition CHARACTER_ITEMS : gmap Z Z :=
  list_to_map
    [ (BASE_ID + 10, 2); (BASE_ID + 11, 3); (BASE_ID + 31, 5);
      (BASE_ID + 32, 6); (BASE_ID + 12, 7); (BASE_ID + 13, 10);
      (BASE_ID + 14, 11); (BASE_ID + 15, 12); (BASE_ID + 16, 13);
      (BASE_ID + 17, 14); (BASE_ID + 18, 16); (BASE_ID + 19, 18);
      (BASE_ID + 20, 19); (BASE_ID + 21, 20); (BASE_ID + 22, 21);
      (BASE_ID + 23, 22); (BASE_ID + 24, 23); (BASE_ID + 25, 24);
      (BASE_ID + 26, 25); (BASE_ID + 27, 26); (BASE_ID + 28, 27);
      (BASE_ID + 29, 28); (BASE_ID + 30, 29) ].
Definition CHARACTER_BASE_BITS : Z := Z.shiftl 1 0.

Definition BOSS_TOKEN_IDS : gmap Z Z :=
  list_to_map
    [ (BASE_ID + 33, 1); (BASE_ID + 34, 2); (BASE_ID + 35, 3);
      (BASE_ID + 36, 4); (BASE_ID + 37, 5); (BASE_ID + 38, 6) ].

Definition DARK_ACCESS_IDS : gmap Z Z :=
  list_to_map
    [ (BASE_ID + 100, 1); (BASE_ID + 101, 2); (BASE_ID + 102, 3);
      (BASE_ID + 103, 4); (BASE_ID + 104, 5) ].
Definition DARK_LOCK_TIME_PENALTY : Q := 1.0.

Definition BOSS_COUNTER_OFFSETS : gmap Z Z :=
  list_to_map
    [ (1, 0x38D8); (2, 0x38E4); (3, 0x38F0);
      (4, 0x38FC); (5, 0x3908); (6, 0x3914) ].

Definition BOSS_UNLOCK_THRESHOLDS : gmap Z Z :=
  list_to_map [ (1, 17); (2, 17); (3, 17); (4, 17); (5, 17); (6, 5) ].

(** *** Bandage data *)

Definition BANDAGE_DATA : list bandage := CORRECTED_BANDAGE_DATA.
Definition BANDAGE_BY_ADDR : gmap Z bandage := CORRECTED_BANDAGE_BY_ADDR.

(** The levels of one region without a bandage, world by world. *)
Definition grant_targets_of (table : gmap Z (list Z)) (region : string)
    : list (Z * Z * string) :=
  w ← seqZ 1 5;
  let has : gset Z := list_to_set ((fun lv => lv - 1) <$> default [] (table !! w)) in
  li ← seqZ 0 20;
  if decide (li ∉ has) then [(w, li, region)] else [].

Definition build_bandage_grant_targets : list (Z * Z * string) :=
  grant_targets_of LIGHT_BANDAGE_LEVELS "light"
  ++ grant_targets_of DARK_BANDAGE_LEVELS "dark".

Definition BANDAGE_GRANT_TARGETS : list (Z * Z * string) :=
  Eval vm_compute in build_bandage_grant_targets.

(** *** Helper functions *)

Definition type_to_region (lvl_type : Z) : option string :=
  if decide (lvl_type = TYPE_LIGHT) then Some "light"%string
  else if decide (lvl_type = TYPE_DARK) then Some "dark"%string
  else if decide (TYPE_WARP_MIN <= lvl_type <= TYPE_WARP_MAX) then Some "warp"%string
  else None.

Definition is_warp (t : Z) : bool :=
  bool_decide (TYPE_WARP_MIN <= t <= TYPE_WARP_MAX).

(** *** Process memory

    The part of pymem the client uses.  A process memory maps absolute
    addresses to bytes; an access to an address outside the map raises, which
    is [None] here.  Unsigned and signed 32-bit integers are four bytes,
    little endian.  Time fields are kept as cells of their own, addressed by
    their first byte. *)

Record Pymem := mkPymem {
  bytes : gmap Z Z;
  floats : gmap Z Q;
}.

Definition read_uchar (m : Pymem) (a : Z) : option Z := bytes m !! a.

Definition read_uint (m : Pymem) (a : Z) : option Z :=
  b0 ← bytes m !! a;
  b1 ← bytes m !! (a + 1);
  b2 ← bytes m !! (a + 2);
  b3 ← bytes m !! (a + 3);
  Some (b0 + 256 * b1 + 65536 * b2 + 16777216 * b3).

Definition read_int (m : Pymem) (a : Z) : option Z :=
  u ← read_uint m a;
  Some (if decide (u < 2 ^ 31) then u else u - 2 ^ 32).

Definition read_float (m : Pymem) (a : Z) : option Q := floats m !! a.

Definition write_uchar (m : Pymem) (a v : Z) : option Pymem :=
  match bytes m !! a with
  | Some _ => Some (mkPymem (<[a := v `mod` 256]> (bytes m)) (floats m))
  | None => None
  end.

Definition write_uint (m : Pymem) (a v : Z) : option Pymem :=
  m ← write_uchar m a v;
  m ← write_uchar m (a + 1) (v `div` 256);
  m ← write_uchar m (a + 2) (v `div` 65536);
  write_uchar m (a + 3) (v `div` 16777216).

Definition write_float (m : Pymem) (a : Z) (v : Q) : option Pymem :=
  match floats m !! a with
  | Some _ => Some (mkPymem (bytes m) (<[a := v]> (floats m)))
  | None => None
  end.

(** [try: body / except: handler] around a body that computes a value. *)
Definition try_except {A} (body : option A) (handler : A) : A :=
  default handler body.

(** *** GameInterface *)

Record GameInterface := mkGame {
  pm : option Pymem;
  base : Z;
  game_connected : bool;
}.

Definition set_pm (g : GameInterface) (m : Pymem) : GameInterface :=
  mkGame (Some m) (base g) (game_connected g).

Definition rb (g : GameInterface) (a : Z) : Z :=
  try_except (m ← pm g; read_uchar m (base g + a)) (-1).

Definition rp (g : GameInterface) (b o : Z) : Z :=
  try_except
    (m ← pm g;
     p ← read_uint m (base g + b);
     if decide (p ≠ 0) then read_uchar m (p + o) else Some (-1))
    (-1).

Definition rpi (g : GameInterface) (b o : Z) : Z :=
  try_except
    (m ← pm g;
     p ← read_uint m (base g + b);
     if decide (p ≠ 0) then read_int m (p + o) else Some (-1))
    (-1).

Definition get_sp (g : GameInterface) : Z :=
  try_except (m ← pm g; read_uint m (base g + ADDR_save_ptr)) 0.

Definition read_comp (g : GameInterface) (sp world index : Z)
    (region : string) : Z :=
  match comp_addr world index region with
  | None => -1
  | Some ca =>
      if decide (sp = 0) then -1
      else try_except (m ← pm g; read_uchar m (sp + ca)) (-1)
  end.

Definition write_comp (g : GameInterface) (sp world index : Z)
    (region : string) (value : Z) : GameInterface :=
  match comp_addr world index region with
  | None => g
  | Some ca =>
      if decide (sp = 0) then g
      else try_except (m ← pm g; m' ← write_uchar m (sp + ca) value;
                       Some (set_pm g m')) g
  end.

Definition read_time (g : GameInterface) (sp world level_index : Z)
    (region : string) : Q :=
  match time_addr world level_index region with
  | None => (-1.0)%Q
  | Some ta =>
      if decide (sp = 0) then (-1.0)%Q
      else try_except (m ← pm g; read_float m (sp + ta)) (-1.0)%Q
  end.

Definition write_time (g : GameInterface) (sp world level_index : Z)
    (region : string) (value : Q) : GameInterface :=
  match time_addr world level_index region with
  | None => g
  | Some ta =>
      if decide (sp = 0) then g
      else try_except (m ← pm g; m' ← write_float m (sp + ta) value;
                       Some (set_pm g m')) g
  end.

Definition read_warp_slots (g : GameInterface) (sp world : Z) : list Z :=
  match WORLD_BASES !! world with
  | Some wb =>
      if decide (sp = 0) then replicate (Z.to_nat NUM_WARP_SLOTS) (-1)
      else
        (fun i =>
           let ca := wb + WARP_OFFSET + i * SLOT_SIZE + COMP_BYTE in
           try_except (m ← pm g; read_uchar m (sp + ca)) (-1))
        <$> seqZ 0 NUM_WARP_SLOTS
  | None => replicate (Z.to_nat NUM_WARP_SLOTS) (-1)
  end.

Definition read_warp_slots_full (g : GameInterface) (sp world : Z)
    : list (Z * Q) :=
  match WORLD_BASES !! world with
  | Some wb =>
      if decide (sp = 0) then replicate (Z.to_nat NUM_WARP_SLOTS) (-1, (-1.0)%Q)
      else
        (fun i =>
           let base_off := wb + WARP_OFFSET + i * SLOT_SIZE in
           try_except
             (m ← pm g;
              comp ← read_uchar m (sp + base_off + COMP_BYTE);
              tval ← read_float m (sp + base_off + TIME_BYTE);
              Some (comp, tval))
             (-1, (-1.0)%Q))
        <$> seqZ 0 NUM_WARP_SLOTS
  | None => replicate (Z.to_nat NUM_WARP_SLOTS) (-1, (-1.0)%Q)
  end.

Definition set_world_unlock (g : GameInterface) (sp bitmask : Z)
    : GameInterface :=
  try_except (m ← pm g; m' ← write_uchar m (sp + ADDR_world_unlock) bitmask;
              Some (set_pm g m')) g.

Definition get_world_unlock (g : GameInterface) (sp : Z) : Z :=
  try_except (m ← pm g; read_uchar m (sp + ADDR_world_unlock)) 0.

Definition get_char_bitmask (g : GameInterface) (sp : Z) : Z :=
  try_except (m ← pm g; read_uint m (sp + CHARACTER_BITMASK_OFFSET)) 0.

Definition set_char_bitmask (g : GameInterface) (sp bitmask : Z)
    : GameInterface :=
  try_except (m ← pm g; m' ← write_uint m (sp + CHARACTER_BITMASK_OFFSET) bitmask;
              Some (set_pm g m')) g.

Definition read_boss_counter (g : GameInterface) (sp world : Z) : Z :=
  match BOSS_COUNTER_OFFSETS !! world with
  | None => -1
  | Some offset =>
      if decide (sp = 0) then -1
      else try_except (m ← pm g; read_uchar m (sp + offset)) (-1)
  end.

Definition write_boss_counter (g : GameInterface) (sp world value : Z)
    : GameInterface :=
  match BOSS_COUNTER_OFFSETS !! world with
  | None => g
  | Some offset =>
      if decide (sp = 0) then g
      else try_except (m ← pm g; m' ← write_uchar m (sp + offset) (Z.min value 255);
                       Some (set_pm g m')) g
  end.

(** The snapshot of [get_state]. *)
Record game_state := mkState {
  st_playing : Z;
  st_world : Z;
  st_level : Z;
  st_beaten : Z;
  st_lvl_type : Z;
  st_ui_state : Z;
  st_trans : Z;
}.

Definition get_state (g : GameInterface) : option game_state :=
  Some (mkState (rb g ADDR_playing) (rb g ADDR_world)
          (rp g ADDR_level.1 ADDR_level.2) (rb g ADDR_level_beaten)
          (rpi g ADDR_lvl_type.1 ADDR_lvl_type.2)
          (rpi g ADDR_ui_state.1 ADDR_ui_state.2)
          (rb g ADDR_level_trans)).

(** *** APClient *)

(** Frames handed to the websocket ([cmd] and payload). *)
Inductive message :=
  | LocationChecks (locations : list Z)
  | StatusUpdate (status : Z).

(** Log lines, one constructor per format string of the source. *)
Inductive log_event :=
  | LogChecked (loc : Z)
  | LogGoalComplete
  | LogCongratulations
  | LogGoalNotMet (need have : Z)
  | LogBossDefeated (loc : Z)
  | LogAplus (world level_index : Z) (region : string) (time_val par : Q)
  | LogAplusSweep (world level_index : Z) (region : string) (time_val par : Q)
  | LogDebugAplusNotWritten (world level_index : Z) (region : string) (time_val : Q)
  | LogDebugAplusNoPar (world level_index : Z) (region : string)
  | LogDebugAplusDisabled
  | LogBandage (b : bandage)
  | LogDebugBandageNoMapping (world level_index : Z) (region : string) (ca : option Z)
  | LogWarpFound (world lv_1idx : Z) (region : string) (zone_idx : Z)
  | LogDebugExitNoChange (world level_index lvl_type ev cv : Z)
  | LogUnlockedWorld (w : Z)
  | LogGrantedBandage (total : Z)
  | LogBandageMilestone (milestone : Z)
  | LogUnlockedCharacter (bit : Z)
  | LogBossUnlocked (w : Z)
  | LogBossToken (token_world have needed : Z) (unlocked : bool)
  | LogBossTokenPlain (token_world : Z)
  | LogDarkAccess (dw count per_world unlocked : Z).

(** The attributes of [APClient] the core reads and writes.  [ws_open] says
    that [self.ws] is set; [sent] are the frames given to [ws.send], oldest
    first; [logged] are the lines given to [self.log], oldest first. *)
Record APClient := mkClient {
  ws_open : bool;
  connected : bool;
  locations_checked : gset Z;
  allowed_worlds : gset Z;
  bandage_count : Z;
  character_bits : Z;
  goal_completed : bool;
  aplus_logged : gset Z;
  boss_token_count : Z;
  boss_token_counts : gmap Z Z;
  boss_unlocked : gset Z;
  dark_lock_enabled : bool;
  dark_unlocks_per_world : Z;
  dark_access_counts : gmap Z Z;
  real_best_times : gmap (Z * Z) Q;
  fake_aplus_times : gset (Z * Z);
  sent : list message;
  logged : list log_event;
}.

Definition set_ws_open (v : bool) (c : APClient) : APClient :=
  mkClient v (connected c) (locations_checked c) (allowed_worlds c)
    (bandage_count c) (character_bits c) (goal_completed c) (aplus_logged c)
    (boss_token_count c) (boss_token_counts c) (boss_unlocked c)
    (dark_lock_enabled c) (dark_unlocks_per_world c) (dark_access_counts c)
    (real_best_times c) (fake_aplus_times c) (sent c) (logged c).
Definition set_connected (v : bool) (c : APClient) : APClient :=
  mkClient (ws_open c) v (locations_checked c) (allowed_worlds c)
    (bandage_count c) (character_bits c) (goal_completed c) (aplus_logged c)
    (boss_token_count c) (boss_token_counts c) (boss_unlocked c)
    (dark_lock_enabled c) (dark_unlocks_per_world c) (dark_access_counts c)
    (real_best_times c) (fake_aplus_times c) (sent c) (logged c).
Definition set_locations_checked (v : gset Z) (c : APClient) : APClient :=
  mkClient (ws_open c) (connected c) v (allowed_worlds c) (bandage_count c)
    (character_bits c) (goal_completed c) (aplus_logged c)
    (boss_token_count c) (boss_token_counts c) (boss_unlocked c)
    (dark_lock_enabled c) (dark_unlocks_per_world c) (dark_access_counts c)
    (real_best_times c) (fake_aplus_times c) (sent c) (logged c).
Definition set_allowed_worlds (v : gset Z) (c : APClient) : APClient :=
  mkClient (ws_open c) (connected c) (locations_checked c) v
    (bandage_count c) (character_bits c) (goal_completed c) (aplus_logged c)
    (boss_token_count c) (boss_token_counts c) (boss_unlocked c)
    (dark_lock_enabled c) (dark_unlocks_per_world c) (dark_access_counts c)
    (real_best_times c) (fake_aplus_times c) (sent c) (logged c).
Definition set_bandage_count (v : Z) (c : APClient) : APClient :=
  mkClient (ws_open c) (connected c) (locations_checked c) (allowed_worlds c)
    v (character_bits c) (goal_completed c) (aplus_logged c)
    (boss_token_count c) (boss_token_counts c) (boss_unlocked c)
    (dark_lock_enabled c) (dark_unlocks_per_world c) (dark_access_counts c)
    (real_best_times c) (fake_aplus_times c) (sent c) (logged c).
Definition set_character_bits (v : Z) (c : APClient) : APClient :=
  mkClient (ws_open c) (connected c) (locations_checked c) (allowed_worlds c)
    (bandage_count c) v (goal_completed c) (aplus_logged c)
    (boss_token_count c) (boss_token_counts c) (boss_unlocked c)
    (dark_lock_enabled c) (dark_unlocks_per_world c) (dark_access_counts c)
    (real_best_times c) (fake_aplus_times c) (sent c) (logged c).
Definition set_goal_completed (v : bool) (c : APClient) : APClient :=
  mkClient (ws_open c) (connected c) (locations_checked c) (allowed_worlds c)
    (bandage_count c) (character_bits c) v (aplus_logged c)
    (boss_token_count c) (boss_token_counts c) (boss_unlocked c)
    (dark_lock_enabled c) (dark_unlocks_per_world c) (dark_access_counts c)
    (real_best_times c) (fake_aplus_times c) (sent c) (logged c).
Definition set_aplus_logged (v : gset Z) (c : APClient) : APClient :=
  mkClient (ws_open c) (connected c) (locations_checked c) (allowed_worlds c)
    (bandage_count c) (character_bits c) (goal_completed c) v
    (boss_token_count c) (boss_token_counts c) (boss_unlocked c)
    (dark_lock_enabled c) (dark_unlocks_per_world c) (dark_access_counts c)
    (real_best_times c) (fake_aplus_times c) (sent c) (logged c).
Definition set_boss_token_count (v : Z) (c : APClient) : APClient :=
  mkClient (ws_open c) (connected c) (locations_checked c) (allowed_worlds c)
    (bandage_count c) (character_bits c) (goal_completed c) (aplus_logged c)
    v (boss_token_counts c) (boss_unlocked c) (dark_lock_enabled c)
    (dark_unlocks_per_world c) (dark_access_counts c) (real_best_times c)
    (fake_aplus_times c) (sent c) (logged c).
Definition set_boss_token_counts (v : gmap Z Z) (c : APClient) : APClient :=
  mkClient (ws_open c) (connected c) (locations_checked c) (allowed_worlds c)
    (bandage_count c) (character_bits c) (goal_completed c) (aplus_logged c)
    (boss_token_count c) v (boss_unlocked c) (dark_lock_enabled c)
    (dark_unlocks_per_world c) (dark_access_counts c) (real_best_times c)
    (fake_aplus_times c) (sent c) (logged c).
Definition set_boss_unlocked (v : gset Z) (c : APClient) : APClient :=
  mkClient (ws_open c) (connected c) (locations_checked c) (allowed_worlds c)
    (bandage_count c) (character_bits c) (goal_completed c) (aplus_logged c)
    (boss_token_count c) (boss_token_counts c) v (dark_lock_enabled c)
    (dark_unlocks_per_world c) (dark_access_counts c) (real_best_times c)
    (fake_aplus_times c) (sent c) (logged c).
Definition set_dark_lock_enabled (v : bool) (c : APClient) : APClient :=
  mkClient (ws_open c) (connected c) (locations_checked c) (allowed_worlds c)
    (bandage_count c) (character_bits c) (goal_completed c) (aplus_logged c)
    (boss_token_count c) (boss_token_counts c) (boss_unlocked c) v
    (dark_unlocks_per_world c) (dark_access_counts c) (real_best_times c)
    (fake_aplus_times c) (sent c) (logged c).
Definition set_dark_unlocks_per_world (v : Z) (c : APClient) : APClient :=
  mkClient (ws_open c) (connected c) (locations_checked c) (allowed_worlds c)
    (bandage_count c) (character_bits c) (goal_completed c) (aplus_logged c)
    (boss_token_count c) (boss_token_counts c) (boss_unlocked c)
    (dark_lock_enabled c) v (dark_access_counts c) (real_best_times c)
    (fake_aplus_times c) (sent c) (logged c).
Definition set_dark_access_counts (v : gmap Z Z) (c : APClient) : APClient :=
  mkClient (ws_open c) (connected c) (locations_checked c) (allowed_worlds c)
    (bandage_count c) (character_bits c) (goal_completed c) (aplus_logged c)
    (boss_token_count c) (boss_token_counts c) (boss_unlocked c)
    (dark_lock_enabled c) (dark_unlocks_per_world c) v (real_best_times c)
    (fake_aplus_times c) (sent c) (logged c).
Definition set_real_best_times (v : gmap (Z * Z) Q) (c : APClient) : APClient :=
  mkClient (ws_open c) (connected c) (locations_checked c) (allowed_worlds c)
    (bandage_count c) (character_bits c) (goal_completed c) (aplus_logged c)
    (boss_token_count c) (boss_token_counts c) (boss_unlocked c)
    (dark_lock_enabled c) (dark_unlocks_per_world c) (dark_access_counts c) v
    (fake_aplus_times c) (sent c) (logged c).
Definition set_fake_aplus_times (v : gset (Z * Z)) (c : APClient) : APClient :=
  mkClient (ws_open c) (connected c) (locations_checked c) (allowed_worlds c)
    (bandage_count c) (character_bits c) (goal_completed c) (aplus_logged c)
    (boss_token_count c) (boss_token_counts c) (boss_unlocked c)
    (dark_lock_enabled c) (dark_unlocks_per_world c) (dark_access_counts c)
    (real_best_times c) v (sent c) (logged c).
Definition set_sent (v : list message) (c : APClient) : APClient :=
  mkClient (ws_open c) (connected c) (locations_checked c) (allowed_worlds c)
    (bandage_count c) (character_bits c) (goal_completed c) (aplus_logged c)
    (boss_token_count c) (boss_token_counts c) (boss_unlocked c)
    (dark_lock_enabled c) (dark_unlocks_per_world c) (dark_access_counts c)
    (real_best_times c) (fake_aplus_times c) v (logged c).
Definition set_logged (v : list log_event) (c : APClient) : APClient :=
  mkClient (ws_open c) (connected c) (locations_checked c) (allowed_worlds c)
    (bandage_count c) (character_bits c) (goal_completed c) (aplus_logged c)
    (boss_token_count c) (boss_token_counts c) (boss_unlocked c)
    (dark_lock_enabled c) (dark_unlocks_per_world c) (dark_access_counts c)
    (real_best_times c) (fake_aplus_times c) (sent c) v.

(** The state [__init__] builds. *)
Definition init_client : APClient :=
  mkClient false false ∅ {[1]} 0 CHARACTER_BASE_BITS false ∅ 0
    (list_to_map ((fun w => (w, 0)) <$> seqZ 1 6)) ∅ false 4
    (list_to_map ((fun w => (w, 0)) <$> seqZ 1 5)) ∅ ∅ [] [].

Definition log (e : log_event) (c : APClient) : APClient :=
  set_logged (logged c ++ [e]) c.

(** Python truthiness of an integer and of an optional id. *)
Definition truthy (z : Z) : bool := bool_decide (z ≠ 0).
Definition truthy_id (o : option Z) : bool :=
  match o with Some z => truthy z | None => false end.

Definition send_message (msg : message) (c : APClient) : APClient :=
  if ws_open c then set_sent (sent c ++ [msg]) c else c.

(** The handler of the [Connected] frame, as far as the checked set goes. *)
Definition handle_connected (checked : list Z) (c : APClient) : APClient :=
  set_locations_checked (list_to_set checked) (set_connected true c).

Definition send_location_checks (locations : list Z) (c : APClient)
    : APClient :=
  if negb (connected c) || bool_decide (locations = []) then c
  else
    let new_locs :=
      filter (fun loc => loc ∉ locations_checked c) locations in
    if bool_decide (new_locs = []) then c
    else
      let c := set_locations_checked
                 (locations_checked c ∪ list_to_set new_locs) c in
      let c := send_message (LocationChecks new_locs) c in
      foldl (fun c loc => log (LogChecked loc) c) c new_locs.

Definition send_goal_complete (c : APClient) : APClient :=
  if negb (goal_completed c) then
    let c := set_goal_completed true c in
    let c := send_message (StatusUpdate 30) c in
    let c := log LogGoalComplete c in
    log LogCongratulations c
  else c.

(** *** Boss token helpers *)

(** [boss_token_costs] of [game_monitor]: the dictionary
    [{w: slot_data.get("boss_tokens_w{w}", 0) for w in range(1, 7)}], as its
    items in insertion order.  [slot_cost w] is the value of the slot data. *)
Definition mk_boss_token_costs (slot_cost : Z → Z) : list (Z * Z) :=
  (fun w => (w, slot_cost w)) <$> seqZ 1 6.

(** Returns the client, the game and the newly unlocked worlds.  The keys of
    [boss_token_costs] are worlds 1 to 6, for which the threshold lookup
    never fails. *)
Definition update_boss_tokens_step (sp : Z)
    (acc : APClient * GameInterface * list Z) (item : Z * Z)
    : APClient * GameInterface * list Z :=
  let '(c, game, newly_unlocked) := acc in
  let '(w, needed) := item in
  if bool_decide (needed <= 0) || bool_decide (w ∈ boss_unlocked c) then
    (c, game, newly_unlocked)
  else if bool_decide (default 0 (boss_token_counts c !! w) >= needed) then
    let c := set_boss_unlocked (boss_unlocked c ∪ {[w]}) c in
    let threshold := BOSS_UNLOCK_THRESHOLDS !!! w in
    let game := write_boss_counter game sp w threshold in
    (c, game, newly_unlocked ++ [w])
  else (c, game, newly_unlocked).

Definition _update_boss_tokens (c : APClient) (game : GameInterface) (sp : Z)
    (boss_token_costs : list (Z * Z)) : APClient * GameInterface * list Z :=
  foldl (update_boss_tokens_step sp) (c, game, []) boss_token_costs.

(** [boss_token_costs=None] is an empty list here: both skip the second
    loop. *)
Definition reraise_step (sp : Z) (game : GameInterface) (w : Z)
    : GameInterface :=
  match BOSS_UNLOCK_THRESHOLDS !! w with
  | Some threshold =>
      let current := read_boss_counter game sp w in
      if bool_decide (0 <= current < threshold) then
        write_boss_counter game sp w threshold
      else game
  | None => game
  end.

Definition suppress_step (c : APClient) (sp : Z) (game : GameInterface)
    (item : Z * Z) : GameInterface :=
  let w := item.1 in
  if bool_decide (w ∉ boss_unlocked c) then
    let current := read_boss_counter game sp w in
    if bool_decide (current > 0) then write_boss_counter game sp w 0
    else game
  else game.

Definition _enforce_boss_counters (c : APClient) (game : GameInterface)
    (sp : Z) (boss_token_costs : list (Z * Z)) : GameInterface :=
  (* Re-raise unlocked boss counters *)
  let game := foldl (reraise_step sp) game (elements (boss_unlocked c)) in
  (* Suppress locked boss counters *)
  foldl (suppress_step c sp) game boss_token_costs.

(** *** Dark locks *)

(** [None] is the ZeroDivisionError of [20 // dark_unlocks_per_world] or of
    [level_index // levels_per_item]. *)
Definition _dark_level_unlocked (c : APClient) (world level_index : Z)
    : option bool :=
  if negb (dark_lock_enabled c) then Some true
  else if decide (world < 1 ∨ world > 5) then Some true
  else if decide (dark_unlocks_per_world c = 0) then None
  else
    let levels_per_item := 20 `div` dark_unlocks_per_world c in
    if decide (levels_per_item = 0) then None
    else
      let needed := level_index `div` levels_per_item + 1 in
      Some (bool_decide (default 0 (dark_access_counts c !! world) >= needed)).

(** The pairs [(w, li)] of [for w in range(1, 6): for li in range(20)]. *)
Definition light_levels_1_5 : list (Z * Z) :=
  w ← seqZ 1 5; li ← seqZ 0 20; [(w, li)].

(** The functions below can be left by an exception; the third component of
    their result says so, and the first two are the state at that point. *)
Definition enforce_dark_locks_step (sp : Z)
    (acc : APClient * GameInterface * bool) (level : Z * Z)
    : APClient * GameInterface * bool :=
  let '(c, game, raised) := acc in
  let '(w, li) := level in
  if raised then acc
  else
    match _dark_level_unlocked c w li with
    | None => (c, game, true)
    | Some true =>
        (* Restore real time if we have it and level is now unlocked *)
        let real := real_best_times c !! (w, li) in
        let par := get_par_time w li "light" in
        let game :=
          match real, par with
          | Some real, Some par =>
              if qle real par then
                let current := read_time game sp w li "light" in
                if qgt current par then write_time game sp w li "light" real
                else game
              else game
          | _, _ => game
          end in
        (* clear the fake flag when the time on disk is not the fake one *)
        let c :=
          match par with
          | Some par =>
              if bool_decide ((w, li) ∈ fake_aplus_times c) then
                let current := read_time game sp w li "light" in
                let fake_val := (par - 0.001)%Q in
                if qgt (Qabs (current - fake_val)) 0.0005%Q then
                  set_fake_aplus_times (fake_aplus_times c ∖ {[(w, li)]}) c
                else c
              else c
          | None => c
          end in
        (c, game, false)
    | Some false =>
        match get_par_time w li "light" with
        | None => (c, game, false)
        | Some par =>
            let t := read_time game sp w li "light" in
            if qgt t 0 && qle t par then
              let c := set_real_best_times (<[(w, li) := t]> (real_best_times c)) c in
              let game := write_time game sp w li "light"
                            (par + DARK_LOCK_TIME_PENALTY)%Q in
              (c, game, false)
            else (c, game, false)
        end
    end.

Definition _enforce_dark_locks (c : APClient) (game : GameInterface) (sp : Z)
    : APClient * GameInterface * bool :=
  if negb (dark_lock_enabled c) then (c, game, false)
  else foldl (enforce_dark_locks_step sp) (c, game, false) light_levels_1_5.

Definition grant_dark_access_step (sp world : Z)
    (acc : APClient * GameInterface * bool) (li : Z)
    : APClient * GameInterface * bool :=
  let '(c, game, raised) := acc in
  if raised then acc
  else
    match _dark_level_unlocked c world li with
    | None => (c, game, true)
    | Some false => (c, game, false)
    | Some true =>
        let real := real_best_times c !! (world, li) in
        match get_par_time world li "light" with
        | None => (c, game, false)
        | Some par =>
            (* the [else] branch: no recorded A+ yet *)
            let no_real :=
              let comp := read_comp game sp world li "light" in
              if bool_decide (comp >= 0) && truthy (Z.land comp FLAG_COMPLETE) then
                let current_t := read_time game sp world li "light" in
                if qgt current_t par then
                  let game := write_time game sp world li "light" (par - 0.001)%Q in
                  let c := set_fake_aplus_times
                             (fake_aplus_times c ∪ {[(world, li)]}) c in
                  (c, game, false)
                else (c, game, false)
              else (c, game, false) in
            match real with
            | Some real' =>
                if qgt real' 0 && qle real' par then
                  let game := write_time game sp world li "light" real' in
                  let c := set_fake_aplus_times
                             (fake_aplus_times c ∖ {[(world, li)]}) c in
                  (c, game, false)
                else no_real
            | None => no_real
            end
        end
    end.

Definition _grant_dark_access (c : APClient) (game : GameInterface)
    (sp world : Z) : APClient * GameInterface * bool :=
  foldl (grant_dark_access_step sp world) (c, game, false) (seqZ 0 20).

(** *** Detection helpers *)

(** The time used for the grade: the real best time when the dark lock has
    suppressed the time on disk. *)
Definition dark_lock_time (c : APClient) (world level_index : Z)
    (region : string) (time_val par : Q) : Q :=
  if dark_lock_enabled c && bool_decide (region = "light"%string)
     && bool_decide (1 <= world <= 5) && qgt time_val par then
    match real_best_times c !! (world, level_index) with
    | Some real => if qgt real 0 && qle real par then real else time_val
    | None => time_val
    end
  else time_val.

Definition _check_aplus (c : APClient) (game : GameInterface)
    (sp world level_index : Z) (region : string) (checks : list Z)
    (aplus_enabled : bool) : APClient * list Z :=
  let comp := read_comp game sp world level_index region in
  if bool_decide (comp < 0) || negb (truthy (Z.land comp FLAG_COMPLETE)) then
    (c, checks)
  else
    let time_val := read_time game sp world level_index region in
    let par := get_par_time world level_index region in
    if qle time_val 0 then
      (log (LogDebugAplusNotWritten world level_index region time_val) c, checks)
    else
      match par with
      | None => (log (LogDebugAplusNoPar world level_index region) c, checks)
      | Some par =>
          let time_val := dark_lock_time c world level_index region time_val par in
          if bool_decide ((world, level_index) ∈ fake_aplus_times c)
             && bool_decide (region = "light"%string) then (c, checks)
          else if qgt time_val par then (c, checks)
          else
            let aplus_id := get_aplus_location_id world level_index region in
            match aplus_id with
            | Some id =>
                if truthy id && bool_decide (id ∉ locations_checked c)
                   && bool_decide (id ∉ aplus_logged c) then
                  let c := set_aplus_logged (aplus_logged c ∪ {[id]}) c in
                  let c := log (LogAplus world level_index region time_val par) c in
                  if aplus_enabled then (c, checks ++ [id])
                  else (log LogDebugAplusDisabled c, checks)
                else (c, checks)
            | None => (c, checks)
            end
      end.

(** Whether [_aplus_sweep] skips a region of a world. *)
Definition sweep_skips (world : Z) (region : string)
    (dark_world_enabled w7_enabled : bool) : bool :=
  (bool_decide (region = "dark"%string)
   && ((bool_decide (world <= 5) && negb dark_world_enabled)
       || (bool_decide (world = 6) && negb dark_world_enabled)
       || (bool_decide (world = 7) && negb w7_enabled)))
  || (bool_decide (region = "light"%string)
      && bool_decide (world = 7) && negb w7_enabled).

(** The A+ part of the loop body of [_aplus_sweep] for a complete level:
    the id to log and queue with the time and par of the log line, or
    [None] where the source leaves the iteration with [continue] or skips
    the final test. *)
Definition sweep_grade (c : APClient) (game : GameInterface)
    (sp world li : Z) (region : string) : option (Z * Q * Q) :=
  let time_val := read_time game sp world li region in
  if qle time_val 0 then None
  else
    match get_par_time world li region with
    | None => None
    | Some par =>
        (* If dark lock suppressed this time, use real best time *)
        let time_val := dark_lock_time c world li region time_val par in
        (* Skip fake sub-par times written by _grant_dark_access *)
        if bool_decide ((world, li) ∈ fake_aplus_times c)
           && bool_decide (region = "light"%string) then None
        else if qgt time_val par then None
        else
          match get_aplus_location_id world li region with
          | Some id =>
              if truthy id && bool_decide (id ∉ locations_checked c)
                 && bool_decide (id ∉ aplus_logged c)
              then Some (id, time_val, par) else None
          | None => None
          end
    end.

(** The completion part: the queue after the completion test. *)
Definition sweep_completion (c : APClient) (world li : Z) (region : string)
    (checks : list Z) : list Z :=
  match get_completion_location_id world li region with
  | Some id =>
      if truthy id && bool_decide (id ∉ locations_checked c)
      then checks ++ [id] else checks
  | None => checks
  end.

(** The body of the inner loop of [_aplus_sweep] for one level. *)
Definition sweep_level (game : GameInterface) (sp world : Z)
    (aplus_enabled : bool) (region : string)
    (acc : APClient * list Z) (li : Z) : APClient * list Z :=
  let '(c, checks) := acc in
  let comp := read_comp game sp world li region in
  if bool_decide (comp < 0) || negb (truthy (Z.land comp FLAG_COMPLETE)) then
    (c, checks)
  else
    (* Check completion location *)
    let checks := sweep_completion c world li region checks in
    (* Check A+ *)
    if aplus_enabled then
      match sweep_grade c game sp world li region with
      | Some (aplus_id, time_val, par) =>
          let c := set_aplus_logged (aplus_logged c ∪ {[aplus_id]}) c in
          let c := log (LogAplusSweep world li region time_val par) c in
          (c, checks ++ [aplus_id])
      | None => (c, checks)
      end
    else (c, checks).

Definition _aplus_sweep (c : APClient) (game : GameInterface) (sp world : Z)
    (aplus_enabled dark_world_enabled w7_enabled : bool)
    : APClient * list Z :=
  let num_lv := default 20 (NUM_LEVELS !! world) in
  foldl (fun acc region =>
    if sweep_skips world region dark_world_enabled w7_enabled then acc
    else foldl (sweep_level game sp world aplus_enabled region) acc
           (seqZ 0 num_lv))
    (c, []) ["light"; "dark"]%string.

(** *** game_monitor *)

(** The slot data options [game_monitor] reads once after connecting. *)
Record options := mkOptions {
  dark_world_enabled : bool;
  goal : Z;
  bandages_req : Z;
  aplus_enabled : bool;
  w7_enabled : bool;
  achievements_enabled : bool;
  boss_tokens_enabled : bool;
  boss_token_costs : list (Z * Z);
}.

(** The local variables of [game_monitor] the modelled blocks use.
    [entry_comp] is keyed by [(world, level, lvl_type)], the three numbers
    of the source's string key. *)
Record monitor := mkMonitor {
  entry_comp : gmap (Z * Z * Z) Z;
  pending_boss_world : Z;
  pending_boss_dark : bool;
  milestones_sent : gset Z;
  bosses_beaten : gset Z;
}.

Definition init_monitor : monitor := mkMonitor ∅ 0 false ∅ ∅.

Definition set_pending (w : Z) (d : bool) (mon : monitor) : monitor :=
  mkMonitor (entry_comp mon) w d (milestones_sent mon) (bosses_beaten mon).
Definition set_milestones_sent (v : gset Z) (mon : monitor) : monitor :=
  mkMonitor (entry_comp mon) (pending_boss_world mon) (pending_boss_dark mon)
    v (bosses_beaten mon).
Definition set_bosses_beaten (v : gset Z) (mon : monitor) : monitor :=
  mkMonitor (entry_comp mon) (pending_boss_world mon) (pending_boss_dark mon)
    (milestones_sent mon) v.

(** **** Item processing *)

(** One item of the initial item sync. *)
Definition initial_sync_item (c : APClient) (iid : Z) : APClient :=
  match WORLD_ACCESS_ITEM_IDS !! iid with
  | Some w => set_allowed_worlds (allowed_worlds c ∪ {[w]}) c
  | None =>
  if decide (iid = ITEM_BANDAGE) then set_bandage_count (bandage_count c + 1) c
  else
  match CHARACTER_ITEMS !! iid with
  | Some bit => set_character_bits (Z.lor (character_bits c) (Z.shiftl 1 bit)) c
  | None =>
  match BOSS_TOKEN_IDS !! iid with
  | Some w =>
      let c := set_boss_token_counts
                 (<[w := default 0 (boss_token_counts c !! w) + 1]>
                    (boss_token_counts c)) c in
      set_boss_token_count (boss_token_count c + 1) c
  | None =>
  match DARK_ACCESS_IDS !! iid with
  | Some w =>
      set_dark_access_counts
        (<[w := default 0 (dark_access_counts c !! w) + 1]>
           (dark_access_counts c)) c
  | None => c
  end end end end.

Definition initial_sync_items (c : APClient) (new_items : list Z) : APClient :=
  foldl initial_sync_item c new_items.

(** [sum(1 << (w - 1) for w in self.allowed_worlds)]. *)
Definition world_bitmask (allowed : gset Z) : Z :=
  foldr (fun w acc => Z.shiftl 1 (w - 1) + acc) 0 (elements allowed).

(** [l[i]] with Python's negative indices; [None] is the IndexError. *)
Definition py_index {A} (l : list A) (i : Z) : option A :=
  if decide (i < 0) then
    if decide (i + len l < 0) then None else l !! Z.to_nat (i + len l)
  else l !! Z.to_nat i.

(** The bandage milestone loop of the item handler. *)
Definition item_milestone_step (acc : APClient * monitor * list Z)
    (milestone : Z) : APClient * monitor * list Z :=
  let '(c, mon, ach_checks) := acc in
  if bool_decide (milestone ∉ milestones_sent mon)
     && bool_decide (bandage_count c >= milestone) then
    let mon := set_milestones_sent (milestones_sent mon ∪ {[milestone]}) mon in
    let mid := bandage_milestone_location_id milestone in
    if bool_decide (mid ∉ locations_checked c) then
      (log (LogBandageMilestone milestone) c, mon, ach_checks ++ [mid])
    else (c, mon, ach_checks)
  else (c, mon, ach_checks).

Definition item_milestones (c : APClient) (mon : monitor)
    : APClient * monitor * list Z :=
  foldl item_milestone_step (c, mon, []) BANDAGE_MILESTONES.

(** The state the main loop threads through an item, and whether an
    exception has left the handler. *)
Definition loop_state : Type := APClient * GameInterface * monitor * bool.

(** One item of the main loop. *)
Definition process_item (opts : options) (st : loop_state) (iid : Z)
    : loop_state :=
  let '(c, game, mon, raised) := st in
  if raised then st
  else
  match WORLD_ACCESS_ITEM_IDS !! iid with
  | Some w =>
      if bool_decide (w ∉ allowed_worlds c) then
        let c := set_allowed_worlds (allowed_worlds c ∪ {[w]}) c in
        let bitmask := world_bitmask (allowed_worlds c) in
        let sp := get_sp game in
        let game := if truthy sp then set_world_unlock game sp bitmask else game in
        (log (LogUnlockedWorld w) c, game, mon, false)
      else st
  | None =>
  if decide (iid = ITEM_BANDAGE) then
    let c := set_bandage_count (bandage_count c + 1) c in
    let sp := get_sp game in
    let granted :=
      if truthy sp && bool_decide (bandage_count c <= len BANDAGE_GRANT_TARGETS) then
        match py_index BANDAGE_GRANT_TARGETS (bandage_count c - 1) with
        | Some (gw, gi, gr) =>
            let val := read_comp game sp gw gi gr in
            if bool_decide (val >= 0) then
              Some (write_comp game sp gw gi gr (Z.lor val FLAG_BANDAGE))
            else Some game
        | None => None
        end
      else Some game in
    match granted with
    | None => (c, game, mon, true)
    | Some game =>
        let c := log (LogGrantedBandage (bandage_count c)) c in
        if achievements_enabled opts then
          let '(c, mon, ach_checks) := item_milestones c mon in
          let c := if bool_decide (ach_checks ≠ [])
                   then send_location_checks ach_checks c else c in
          (c, game, mon, false)
        else (c, game, mon, false)
    end
  else
  match CHARACTER_ITEMS !! iid with
  | Some bit =>
      let c := set_character_bits (Z.lor (character_bits c) (Z.shiftl 1 bit)) c in
      let sp := get_sp game in
      let game := if truthy sp then set_char_bitmask game sp (character_bits c)
                  else game in
      (log (LogUnlockedCharacter bit) c, game, mon, false)
  | None =>
  match BOSS_TOKEN_IDS !! iid with
  | Some token_world =>
      let c := set_boss_token_counts
                 (<[token_world := default 0 (boss_token_counts c !! token_world) + 1]>
                    (boss_token_counts c)) c in
      let c := set_boss_token_count (boss_token_count c + 1) c in
      if boss_tokens_enabled opts then
        let sp := get_sp game in
        let '(c, game) :=
          if truthy sp then
            let '(c, game, newly) :=
              _update_boss_tokens c game sp (boss_token_costs opts) in
            (foldl (fun c w => log (LogBossUnlocked w) c) c newly, game)
          else (c, game) in
        let needed := default 0 (list_to_map (M := gmap Z Z) (boss_token_costs opts) !! token_world) in
        let have := default 0 (boss_token_counts c !! token_world) in
        (log (LogBossToken token_world have needed
                (bool_decide (token_world ∈ boss_unlocked c))) c,
         game, mon, false)
      else (log (LogBossTokenPlain token_world) c, game, mon, false)
  | None =>
  match DARK_ACCESS_IDS !! iid with
  | Some dw =>
      let c := set_dark_access_counts
                 (<[dw := default 0 (dark_access_counts c !! dw) + 1]>
                    (dark_access_counts c)) c in
      let sp := get_sp game in
      let '(c, game, raised) :=
        if truthy sp && dark_lock_enabled c then _grant_dark_access c game sp dw
        else (c, game, false) in
      if raised then (c, game, mon, true)
      else
        let count := dark_access_counts c !!! dw in
        if decide (dark_unlocks_per_world c = 0) then (c, game, mon, true)
        else
          let levels_per := 20 `div` dark_unlocks_per_world c in
          let unlocked := Z.min (count * levels_per) 20 in
          (log (LogDarkAccess dw count (dark_unlocks_per_world c) unlocked) c,
           game, mon, false)
  | None => st
  end end end end.

(** [for item in new_items: ...]; an exception leaves the loop. *)
Definition process_new_items (opts : options) (st : loop_state)
    (new_items : list Z) : loop_state :=
  foldl (process_item opts) st new_items.

(** **** Pending boss check *)

(** The goal checks that follow a newly reported boss. *)
Definition goal_checks (opts : options) (c : APClient) (mon : monitor)
    : APClient :=
  let evaluate (c : APClient) : APClient :=
    if bool_decide (bandage_count c >= bandages_req opts) then
      send_goal_complete c
    else log (LogGoalNotMet (bandages_req opts) (bandage_count c)) c in
  if pending_boss_dark mon then
    if bool_decide (goal opts = 3)
       && bool_decide (bandage_count c >= bandages_req opts) then
      send_goal_complete c
    else if bool_decide (goal opts = 3) then
      log (LogGoalNotMet (bandages_req opts) (bandage_count c)) c
    else c
  else
    if bool_decide (goal opts = 0) && bool_decide (pending_boss_world mon = 5) then
      evaluate c
    else if bool_decide (goal opts = 1)
            && bool_decide (Z.of_nat (size (bosses_beaten mon)) >= 5) then
      evaluate c
    else if bool_decide (goal opts = 2) && bool_decide (pending_boss_world mon = 6) then
      evaluate c
    else c.

(** The pending boss block of one poll, up to the reset of the pending
    record.  [time_since] is [time.time() - pending_boss_time].  The
    achievement check and the re-enforcement that follow a confirmation in
    the source touch neither the goal state nor the boss location and are
    not part of this function. *)
Definition pending_boss_check (opts : options) (c : APClient) (mon : monitor)
    (playing ui_state : Z) (time_since : Q) : APClient * monitor :=
  if bool_decide (pending_boss_world mon > 0) then
    if qgt time_since 1.0%Q then
      let boss_confirmed :=
        if decide (pending_boss_world mon = 6) then bool_decide (playing = 0)
        else bool_decide (playing = 0) && bool_decide (ui_state = 3) in
      if boss_confirmed then
        let loc_id :=
          if bool_decide (pending_boss_world mon = 6) && pending_boss_dark mon
             && dark_world_enabled opts
          then dark_boss_location_id
          else boss_location_id (pending_boss_world mon) in
        let '(c, mon) :=
          if bool_decide (loc_id ∉ locations_checked c) then
            let c := send_location_checks [loc_id] c in
            let mon :=
              if negb (pending_boss_dark mon) then
                set_bosses_beaten (bosses_beaten mon ∪ {[pending_boss_world mon]}) mon
              else mon in
            let c := log (LogBossDefeated loc_id) c in
            (goal_checks opts c mon, mon)
          else (c, mon) in
        (c, set_pending 0 false mon)
      else if qgt time_since 10.0%Q then (c, set_pending 0 false mon)
      else (c, mon)
    else (c, mon)
  else (c, mon).

(** Boss detection at level exit: a pending record is opened. *)
Definition open_pending_boss (mon : monitor) (last_world last_level last_lvl_type : Z)
    : monitor :=
  if bool_decide (last_level = 99) && bool_decide (1 <= last_world <= 7) then
    set_pending last_world
      (bool_decide (last_world = 6) && bool_decide (last_lvl_type = TYPE_DARK)) mon
  else mon.

(** **** Level exit, light and dark levels *)

Definition _check_gotwarp (c : APClient) (ev cv world level_index : Z)
    (region : string) : APClient :=
  if bool_decide (ev < 0) || bool_decide (cv < 0) then c
  else if negb (truthy (Z.land ev FLAG_WARP)) && truthy (Z.land cv FLAG_WARP) then
    let lv_1idx := level_index + 1 in
    match WARP_HOST_TO_ZONE !! (world, lv_1idx, region) with
    | Some zone_idx => log (LogWarpFound world lv_1idx region zone_idx) c
    | None => c
    end
  else c.

(** Whether a completion of the exited level is reportable. *)
Definition exit_should_check (opts : options) (last_world : Z)
    (exit_region : string) : bool :=
  if decide (exit_region = "light"%string) then
    bool_decide (1 <= last_world <= 6)
    || (bool_decide (last_world = 7) && w7_enabled opts)
  else if decide (exit_region = "dark"%string) then
    if decide (1 <= last_world <= 5) then dark_world_enabled opts
    else if decide (last_world = 6) then dark_world_enabled opts
    else if decide (last_world = 7) then w7_enabled opts
    else false
  else false.

(** The completion check of the diff: the id to queue, if any. *)
Definition exit_completion_checks (opts : options) (c : APClient)
    (ev cv last_world exit_level : Z) (exit_region : string) : list Z :=
  if negb (truthy (Z.land ev FLAG_COMPLETE)) && truthy (Z.land cv FLAG_COMPLETE) then
    match get_completion_location_id last_world exit_level exit_region with
    | Some loc_id =>
        if truthy loc_id && exit_should_check opts last_world exit_region
           && bool_decide (loc_id ∉ locations_checked c)
        then [loc_id] else []
    | None => []
    end
  else [].

(** The diff of the entry snapshot against the completion byte read at the
    exit: completion, bandage credit with its corrective write, GotWarp.
    The three components of the result are the three objects the source
    updates in place: the client, the game and the [checks] list.  (The
    debug line for a missing mapping formats the address; it is reached
    only after a successful read, when the address is not [None].) *)
Definition level_exit_diff (opts : options) (c : APClient)
    (game : GameInterface) (mon : monitor)
    (sp2 last_world exit_level exit_type : Z) (exit_region : string)
    : APClient * GameInterface * list Z :=
  let ev := default (-1) (entry_comp mon !! (last_world, exit_level, exit_type)) in
  let cv := read_comp game sp2 last_world exit_level exit_region in
  if bool_decide (ev >= 0) && bool_decide (cv >= 0) && bool_decide (ev ≠ cv) then
    (* Completion *)
    let checks := exit_completion_checks opts c ev cv last_world exit_level exit_region in
    (* Bandage *)
    let bandage_new :=
      negb (truthy (Z.land ev FLAG_BANDAGE)) && truthy (Z.land cv FLAG_BANDAGE) in
    let ca := comp_addr last_world exit_level exit_region in
    let be := ca ≫= (fun ca => BANDAGE_BY_ADDR !! ca) in
    let checks :=
      if bandage_new then
        match be with Some be => checks ++ [b_ap_id be] | None => checks end
      else checks in
    let c :=
      if bandage_new then
        match be with
        | Some be => log (LogBandage be) c
        | None => log (LogDebugBandageNoMapping last_world exit_level exit_region ca) c
        end
      else c in
    let game :=
      if bandage_new then
        write_comp game sp2 last_world exit_level exit_region
          (Z.land cv MASK_CLEAR_BANDAGE)
      else game in
    (* GotWarp bit *)
    (_check_gotwarp c ev cv last_world exit_level exit_region, game, checks)
  else if bool_decide (ev >= 0) && bool_decide (cv >= 0) && bool_decide (ev = cv) then
    (log (LogDebugExitNoChange last_world exit_level exit_type ev cv) c, game, [])
  else (c, game, []).

(** The light/dark branch of the level exit up to the report of its
    checks. *)
Definition level_exit_light_dark (opts : options) (c : APClient)
    (game : GameInterface) (mon : monitor)
    (sp2 last_world exit_level exit_type : Z) (exit_region : string)
    : APClient * GameInterface :=
  let '(c, game, checks) :=
    level_exit_diff opts c game mon sp2 last_world exit_level exit_type exit_region in
  let '(c, checks) :=
    _check_aplus c game sp2 last_world exit_level exit_region checks
      (aplus_enabled opts) in
  let c := if bool_decide (checks ≠ []) then send_location_checks checks c else c in
  (c, game).

(** *** Names of items and achievements *)

Definition BOSS_TOKEN_NAMES : gmap Z string :=
  list_to_map
    [ (1, "Forest Boss Token"); (2, "Hospital Boss Token");
      (3, "Salt Factory Boss Token"); (4, "Hell Boss Token");
      (5, "Rapture Boss Token"); (6, "The End Boss Token") ]%string.

Definition DARK_ACCESS_NAMES : gmap Z string :=
  list_to_map
    [ (1, "Forest Dark Access"); (2, "Hospital Dark Access");
      (3, "Salt Factory Dark Access"); (4, "Hell Dark Access");
      (5, "Rapture Dark Access") ]%string.

(** The display names of [CHARACTER_ITEMS], the second component of the
    source tuples. *)
Definition CHARACTER_ITEM_NAMES : gmap Z string :=
  list_to_map
    [ (BASE_ID + 10, "4Color Meat Boy"); (BASE_ID + 11, "4Bit Meat Boy");
      (BASE_ID + 31, "Brownie"); (BASE_ID + 32, "Bandage Girl");
      (BASE_ID + 12, "Meat Ninja"); (BASE_ID + 13, "Naija");
      (BASE_ID + 14, "Commander Video"); (BASE_ID + 15, "Runman");
      (BASE_ID + 16, "Blob"); (BASE_ID + 17, "Steve");
      (BASE_ID + 18, "Flywrench"); (BASE_ID + 19, "Jill");
      (BASE_ID + 20, "Captain Viridian"); (BASE_ID + 21, "Tofu Boy");
      (BASE_ID + 22, "Josef"); (BASE_ID + 23, "The Kid");
      (BASE_ID + 24, "Headcrab"); (BASE_ID + 25, "Ogmo");
      (BASE_ID + 26, "Potato Boy"); (BASE_ID + 27, "MeatBoy and BandageGirl");
      (BASE_ID + 28, "Alien Hominid"); (BASE_ID + 29, "Autorun MeatBoy");
      (BASE_ID + 30, "Tim") ]%string.

(** [ITEM_NAMES]: the literal entries, then the three dictionary
    comprehensions.  In a dictionary display a later entry replaces an
    earlier one with the same key, so the later groups stand to the left of
    the left-biased union. *)
Definition ITEM_NAMES : gmap Z string :=
  ((fun w => DARK_ACCESS_NAMES !!! w) <$> DARK_ACCESS_IDS)
  ∪ CHARACTER_ITEM_NAMES
  ∪ ((fun w => BOSS_TOKEN_NAMES !!! w) <$> BOSS_TOKEN_IDS)
  ∪ list_to_map
      [ (ITEM_WORLD2, "World 2 Access"); (ITEM_WORLD3, "World 3 Access");
        (ITEM_WORLD4, "World 4 Access"); (ITEM_WORLD5, "World 5 Access");
        (ITEM_WORLD6, "World 6 Access"); (ITEM_WORLD7, "World 7 Access");
        (ITEM_BANDAGE, "Bandage"); (ITEM_1UP, "1-Up") ]%string.

(** Warp zone milestones, in the order of the dictionary display. *)
Definition WARP_MILESTONE_LOCS : list (Z * Z) :=
  [ (1, BASE_ID + 933); (5, BASE_ID + 934); (10, BASE_ID + 935);
    (20, BASE_ID + 936) ].

Definition WARP_MILESTONE_NAMES : gmap Z string :=
  list_to_map
    [ (1, "Nostalgia"); (5, "Living in the Past"); (10, "Old School");
      (20, "Retro Rampage") ]%string.

Definition WORLD_APLUS_LOCS : gmap Z Z :=
  list_to_map
    [ (1, BASE_ID + 937); (2, BASE_ID + 938); (3, BASE_ID + 939);
      (4, BASE_ID + 940); (5, BASE_ID + 941) ].

Definition WORLD_APLUS_NAMES : gmap Z string :=
  list_to_map
    [ (1, "Rare"); (2, "Medium Rare"); (3, "Medium"); (4, "Medium Well");
      (5, "Well Done") ]%string.

(** *** The item queue and the name lookups *)

(** Log lines of the formats that are not in [log_event]; the functions
    below return the lines they give to [self.log], oldest first. *)
Inductive log_line :=
  | LineReceived (item_name sender : string)
  | LineCharacterUnlocked (char_name : string)
  | LineWarpComplete (wname : string)
  | LineWorldClear (world_name : string)
  | LineDarkClear (world_name : string)
  | LineBandageMilestone (milestone : Z)
  | LineWarpMilestone (name : string) (total_warps_done : Z)
  | LineWorldAplus (name world_name : string)
  | LineGoldenGod
  | LineGirlBoy.

(** One entry of [items_received]: the keys [id], [name] and [sender]. *)
Record received_item := mkItem {
  item_id : Z;
  item_name : string;
  item_sender : string;
}.

(** The attributes of [APClient] behind the item queue and the name
    lookups. *)
Record inbox := mkInbox {
  items_received : list received_item;
  items_processed : Z;
  players : gmap Z string;
  all_items : gmap Z string;
  all_locations : gmap Z string;
}.

Definition init_inbox : inbox := mkInbox [] 0 ∅ ∅ ∅.

Definition get_item_name (ib : inbox) (iid : Z) : string :=
  match all_items ib !! iid with
  | Some name => name
  | None =>
      match ITEM_NAMES !! iid with
      | Some name => name
      | None => ("Unknown Item " +:+ py_str iid)%string
      end
  end.

Definition get_location_name_by_id (ib : inbox) (loc_id : Z) : string :=
  match all_locations ib !! loc_id with
  | Some name => name
  | None => get_location_name loc_id
  end.

Definition get_player_name (ib : inbox) (player_id : Z) : string :=
  default ("Player " +:+ py_str player_id)%string (players ib !! player_id).

(** The [DataPackage] frame: [data] are the games of the package in
    order, each with the items of its [item_name_to_id] and
    [location_name_to_id] dictionaries. *)
Definition handle_data_package
    (data : list (string * (list (string * Z) * list (string * Z))))
    (ib : inbox) : inbox :=
  foldl (fun ib game_data =>
    let '(_, (items, locations)) := game_data in
    let ai := foldl (fun m '(name, id) => <[id := name]> m) (all_items ib) items in
    let al := foldl (fun m '(name, id) => <[id := name]> m) (all_locations ib) locations in
    mkInbox (items_received ib) (items_processed ib) (players ib) ai al)
    ib data.

(** The [ReceivedItems] frame: [start_index] is [msg.get("index", 0)] and
    [items] are the [(item, player)] pairs of [msg.get("items", [])]. *)
Definition handle_received_items (start_index : Z) (items : list (Z * Z))
    (ib : inbox) : inbox * list log_line :=
  let ib :=
    if decide (start_index = 0) then
      mkInbox [] 0 (players ib) (all_items ib) (all_locations ib)
    else ib in
  foldl (fun '(ib, lines) '(iid, player) =>
    let sender := default "Server"%string (players ib !! player) in
    let name := get_item_name ib iid in
    (mkInbox (items_received ib ++ [mkItem iid name sender])
       (items_processed ib) (players ib) (all_items ib) (all_locations ib),
     lines ++ [LineReceived name sender]))
    (ib, []) items.

(** [l[i:]] with Python's negative start. *)
Definition py_slice_from {A} (l : list A) (i : Z) : list A :=
  if decide (i < 0) then drop (Z.to_nat (Z.max 0 (len l + i))) l
  else drop (Z.to_nat i) l.

Definition get_new_items (ib : inbox) : list received_item * inbox :=
  let new := py_slice_from (items_received ib) (items_processed ib) in
  (new,
   mkInbox (items_received ib) (len (items_received ib)) (players ib)
     (all_items ib) (all_locations ib)).

(** *** Character, warp zone and achievement checks *)

(** [comp < 0 or not (comp & FLAG_COMPLETE)]. *)
Definition comp_incomplete (comp : Z) : bool :=
  bool_decide (comp < 0) || negb (truthy (Z.land comp FLAG_COMPLETE)).

(** The loops that stop at the first incomplete slot, as the conjunction of
    their tests (the reads have no effect). *)
Definition slots_complete (game : GameInterface) (sp world : Z)
    (region : string) (slots : list Z) : bool :=
  forallb (fun slot_idx =>
    negb (comp_incomplete (read_comp game sp world slot_idx region))) slots.

(** The three sub-levels of a warp zone. *)
Definition zone_done (game : GameInterface) (sp world zone_idx : Z) : bool :=
  slots_complete game sp world "warp" ((fun sub => zone_idx * 3 + sub) <$> seqZ 0 3).

(** The results are the objects the source updates in place, [checks] and
    the set of the caller, and the lines logged.  The membership test
    [world not in CHARACTER_WARPS] of the first line is the [match]. *)
Definition _check_character_unlock (c : APClient) (game : GameInterface)
    (sp world : Z) (checks : list Z) (char_warp_enabled : bool)
    (characters_unlocked : gset Z) : list Z * gset Z * list log_line :=
  match CHARACTER_WARPS !! world with
  | None => (checks, characters_unlocked, [])
  | Some (char_name, _) =>
      if negb char_warp_enabled then (checks, characters_unlocked, [])
      else if bool_decide (world ∈ characters_unlocked) then
        (checks, characters_unlocked, [])
      else if slots_complete game sp world "warp" CHARACTER_WARP_SLOTS then
        let characters_unlocked := characters_unlocked ∪ {[world]} in
        let char_id := character_unlock_location_id world in
        if bool_decide (char_id ∉ locations_checked c) then
          (checks ++ [char_id], characters_unlocked,
           [LineCharacterUnlocked char_name])
        else (checks, characters_unlocked, [])
      else (checks, characters_unlocked, [])
  end.

Definition check_warp_zone (c : APClient) (game : GameInterface)
    (sp world : Z) (acc : list Z * gset (Z * Z) * list log_line)
    (zone_idx : Z) : list Z * gset (Z * Z) * list log_line :=
  let '(checks, warps_completed, lines) := acc in
  if bool_decide ((world, zone_idx) ∈ warps_completed) then acc
  else if zone_done game sp world zone_idx then
    let warps_completed := warps_completed ∪ {[(world, zone_idx)]} in
    let wc_id := warp_completion_location_id world zone_idx in
    if bool_decide (wc_id ∉ locations_checked c) then
      let wname := default ("Zone " +:+ py_str zone_idx)%string
                     (WARP_ZONE_NAMES !! (world, zone_idx)) in
      (checks ++ [wc_id], warps_completed, lines ++ [LineWarpComplete wname])
    else (checks, warps_completed, lines)
  else acc.

Definition _check_warp_completion (c : APClient) (game : GameInterface)
    (sp world : Z) (checks : list Z) (warp_complete_enabled : bool)
    (warps_completed : gset (Z * Z)) : list Z * gset (Z * Z) * list log_line :=
  if negb warp_complete_enabled || bool_decide (world > 5) then
    (checks, warps_completed, [])
  else foldl (check_warp_zone c game sp world) (checks, warps_completed, [])
         (seqZ 0 4).

(** The sets of [game_monitor] that [_check_achievements] updates in place.
    The last two are optional arguments of the function. *)
Record ach_sets := mkAchSets {
  worlds_cleared : gset Z;
  worlds_dark_cleared : gset Z;
  ach_milestones_sent : gset Z;
  warp_milestones_sent : option (gset Z);
  world_aplus_sent : option (gset Z);
}.

(** The clear id of a world, light or dark. *)
Definition clear_location_id (w : Z) (dark : bool) : Z :=
  if decide (w <= 5) then
    if dark then world_dark_clear_location_id w else world_clear_location_id w
  else if decide (w = 6) then
    if dark then w6_dark_clear_location_id else w6_clear_location_id
  else
    if dark then w7_dark_clear_location_id else w7_clear_location_id.

(** One half of the body of the world clear loop: the light levels, or
    the dark levels, of world [w]. *)
Definition check_world_clear (c : APClient) (game : GameInterface) (sp : Z)
    (dark : bool) (w : Z) (acc : list Z * gset Z * list log_line)
    : list Z * gset Z * list log_line :=
  let '(checks, cleared, lines) := acc in
  let num_lv := default 20 (NUM_LEVELS !! w) in
  if bool_decide (w ∉ cleared) then
    if slots_complete game sp w (if dark then "dark" else "light")%string
         (seqZ 0 num_lv) then
      let cleared := cleared ∪ {[w]} in
      let cid := clear_location_id w dark in
      if bool_decide (cid ∉ locations_checked c) then
        (checks ++ [cid], cleared,
         lines ++ [(if dark then LineDarkClear else LineWorldClear)
                     (world_label w)])
      else (checks, cleared, lines)
    else acc
  else acc.

(** The world clear loop: for each world the light half of the body, then
    the dark half. *)
Definition check_world_clears (c : APClient) (game : GameInterface) (sp : Z)
    (checks : list Z) (wc wdc : gset Z)
    : list Z * gset Z * gset Z * list log_line :=
  foldl (fun '(checks, wc, wdc, lines) w =>
    let '(checks, wc, lines) :=
      check_world_clear c game sp false w (checks, wc, lines) in
    let '(checks, wdc, lines) :=
      check_world_clear c game sp true w (checks, wdc, lines) in
    (checks, wc, wdc, lines))
    (checks, wc, wdc, []) (seqZ 1 7).

Definition check_bandage_milestone (c : APClient)
    (acc : list Z * gset Z * list log_line) (milestone : Z)
    : list Z * gset Z * list log_line :=
  let '(checks, sent, lines) := acc in
  if bool_decide (milestone ∈ sent) then acc
  else if bool_decide (bandage_count c >= milestone) then
    let sent := sent ∪ {[milestone]} in
    let mid := bandage_milestone_location_id milestone in
    if bool_decide (mid ∉ locations_checked c) then
      (checks ++ [mid], sent, lines ++ [LineBandageMilestone milestone])
    else (checks, sent, lines)
  else acc.

(** [total_warps_done]: the warp zones of worlds 1 to 5 whose three
    sub-levels are complete. *)
Definition count_warps_done (game : GameInterface) (sp : Z) : Z :=
  len (filter (fun wz : Z * Z => zone_done game sp wz.1 wz.2 = true)
         (w ← seqZ 1 5; zone_idx ← seqZ 0 4; [(w, zone_idx)])).

Definition check_warp_milestone (c : APClient) (total_warps_done : Z)
    (acc : list Z * gset Z * list log_line) (item : Z * Z)
    : list Z * gset Z * list log_line :=
  let '(checks, sent, lines) := acc in
  let '(threshold, loc_id) := item in
  if bool_decide (threshold ∈ sent) then acc
  else if bool_decide (total_warps_done >= threshold) then
    let sent := sent ∪ {[threshold]} in
    if bool_decide (loc_id ∉ locations_checked c) then
      (checks ++ [loc_id], sent,
       lines ++ [LineWarpMilestone (WARP_MILESTONE_NAMES !!! threshold)
                   total_warps_done])
    else (checks, sent, lines)
  else acc.

(** The test of one light level in the all-A+ loops: complete, not marked
    as a synthetic time, and graded A+ on the time on disk. *)
Definition light_aplus_ok (c : APClient) (game : GameInterface) (sp : Z)
    (level : Z * Z) : bool :=
  let '(w, li) := level in
  negb (comp_incomplete (read_comp game sp w li "light"))
  && negb (bool_decide ((w, li) ∈ fake_aplus_times c))
  && is_a_plus (read_time game sp w li "light") w li "light".

Definition dark_aplus_ok (game : GameInterface) (sp : Z) (level : Z * Z)
    : bool :=
  let '(w, li) := level in
  negb (comp_incomplete (read_comp game sp w li "dark"))
  && is_a_plus (read_time game sp w li "dark") w li "dark".

Definition check_world_aplus (c : APClient) (game : GameInterface) (sp : Z)
    (acc : list Z * gset Z * list log_line) (w : Z)
    : list Z * gset Z * list log_line :=
  let '(checks, sent, lines) := acc in
  if bool_decide (w ∈ sent) then acc
  else
    match WORLD_APLUS_LOCS !! w with
    | None => acc
    | Some loc_id =>
        if negb (truthy loc_id) || bool_decide (loc_id ∈ locations_checked c)
        then acc
        else if forallb (fun li => light_aplus_ok c game sp (w, li)) (seqZ 0 20)
        then
          (checks ++ [loc_id], sent ∪ {[w]},
           lines ++ [LineWorldAplus (WORLD_APLUS_NAMES !!! w) (world_label w)])
        else acc
    end.

(** Golden God and Girl Boy: logged once, queued only when A+ locations
    are enabled. *)
Definition check_all_aplus (c : APClient) (checks : list Z)
    (lines : list log_line) (aplus_enabled : bool) (id : Z) (all_ok : bool)
    (line : log_line) : APClient * list Z * list log_line :=
  if bool_decide (id ∉ locations_checked c)
     && bool_decide (id ∉ aplus_logged c) then
    if all_ok then
      let c := set_aplus_logged (aplus_logged c ∪ {[id]}) c in
      (c, if aplus_enabled then checks ++ [id] else checks, lines ++ [line])
    else (c, checks, lines)
  else (c, checks, lines).

(** [_check_achievements].  Its [warps_completed] argument is not used by
    the body and is left out. *)
Definition _check_achievements (c : APClient) (game : GameInterface) (sp : Z)
    (checks : list Z) (achievements_enabled : bool) (s : ach_sets)
    (aplus_enabled : bool) : APClient * list Z * ach_sets * list log_line :=
  if negb achievements_enabled then (c, checks, s, [])
  else
    (* World clear checks *)
    let '(checks, wc, wdc, lines) :=
      check_world_clears c game sp checks (worlds_cleared s)
        (worlds_dark_cleared s) in
    (* Bandage milestones *)
    let '(checks, ms, lines) :=
      foldl (check_bandage_milestone c) (checks, ach_milestones_sent s, lines)
        BANDAGE_MILESTONES in
    (* Warp zone milestones *)
    let '(checks, wms, lines) :=
      match warp_milestones_sent s with
      | Some sent =>
          let total_warps_done := count_warps_done game sp in
          let '(checks, sent, lines) :=
            foldl (check_warp_milestone c total_warps_done)
              (checks, sent, lines) WARP_MILESTONE_LOCS in
          (checks, Some sent, lines)
      | None => (checks, None, lines)
      end in
    (* Per-world light A+ achievements *)
    let '(checks, was, lines) :=
      match world_aplus_sent s with
      | Some sent =>
          if aplus_enabled then
            let '(checks, sent, lines) :=
              foldl (check_world_aplus c game sp) (checks, sent, lines)
                (seqZ 1 5) in
            (checks, Some sent, lines)
          else (checks, Some sent, lines)
      | None => (checks, None, lines)
      end in
    (* Golden God *)
    let '(c, checks, lines) :=
      check_all_aplus c checks lines aplus_enabled golden_god_location_id
        (forallb (light_aplus_ok c game sp) light_levels_1_5) LineGoldenGod in
    (* Girl Boy *)
    let '(c, checks, lines) :=
      check_all_aplus c checks lines aplus_enabled girl_boy_location_id
        (forallb (dark_aplus_ok game sp) light_levels_1_5) LineGirlBoy in
    (c, checks, mkAchSets wc wdc ms wms was, lines).

(** *** The enforcement blocks of the main loop *)

(** The block under [if on_world_select:].  [dark_lock_enabled] of
    [game_monitor] is the value it has stored in the client.  The third
    component says that an exception has left the block. *)
Definition enforce_on_world_select (opts : options) (c : APClient)
    (game : GameInterface) (sp : Z) : APClient * GameInterface * bool :=
  let bitmask := world_bitmask (allowed_worlds c) in
  let game := set_world_unlock game sp bitmask in
  (* Enforce character bitmask (game recalculates from bandage counts) *)
  let game := set_char_bitmask game sp (character_bits c) in
  (* Enforce boss counters (game overwrites on level completion) *)
  let game :=
    if boss_tokens_enabled opts then
      _enforce_boss_counters c game sp (boss_token_costs opts)
    else game in
  if dark_lock_enabled c then _enforce_dark_locks c game sp
  else (c, game, false).

(** The block under [if poll_count & 0x3F == 0:]. *)
Definition enforce_periodically (opts : options) (c : APClient)
    (game : GameInterface) (sp : Z) : APClient * GameInterface * bool :=
  let game := set_char_bitmask game sp (character_bits c) in
  let game :=
    if boss_tokens_enabled opts then
      _enforce_boss_counters c game sp (boss_token_costs opts)
    else game in
  if dark_lock_enabled c then _enforce_dark_locks c game sp
  else (c, game, false).

End smb_ap_client.

Import smb_game_data smb_ap_client.

(** * Specification-level definitions *)

(** ** Address resolver *)

(** A coordinate is structurally valid when the world has a save block and
    the region kind exists for it: light and dark everywhere, warp in
    worlds 1 to 5. *)
Definition structurally_valid (world : Z) (region : string) : Prop :=
  is_Some (WORLD_BASES !! world)
  ∧ (region = "light"%string ∨ region = "dark"%string
     ∨ (region = "warp"%string ∧ world ≠ 6 ∧ world ≠ 7)).

Definition world_base (world : Z) : Z := WORLD_BASES !!! world.

Definition region_offset (world : Z) (region : string) : Z :=
  if decide (region = "light"%string) then LIGHT_OFFSET
  else if decide (region = "dark"%string) then
    if decide (world = 6) then W6_DARK_OFFSET else DARK_OFFSET
  else WARP_OFFSET.

(** ** Bandage grant targets *)

(** The 1-indexed levels of a world and region that carry a bandage of
    their own. *)
Definition native_bandage_levels (world : Z) (region : string) : list Z :=
  if decide (region = "light"%string) then default [] (LIGHT_BANDAGE_LEVELS !! world)
  else if decide (region = "dark"%string) then default [] (DARK_BANDAGE_LEVELS !! world)
  else default [] (WARP_BANDAGE_SLOTS !! world).

(** A grant target is safe when it is a light or dark level of worlds 1-5
    without a native bandage whose completion byte is not a key of the
    bandage lookup table.  The check is a boolean so that it can be run on
    the whole target list. *)
Definition grant_target_safe (t : Z * Z * string) : bool :=
  let '(w, li, r) := t in
  (bool_decide (r = "light"%string) || bool_decide (r = "dark"%string))
  && bool_decide (1 <= w <= 5) && bool_decide (0 <= li < 20)
  && bool_decide ((li + 1) ∉ native_bandage_levels w r)
  && match comp_addr w li r with
     | Some ca =>
         match BANDAGE_BY_ADDR !! ca with None => true | Some _ => false end
     | None => false
     end.

(** ** Memory access *)

(** The raw accesses behind the read helpers; [None] is a raised
    exception (no process attached, or an unreadable address). *)
Definition peek_uchar (g : GameInterface) (a : Z) : option Z :=
  m ← pm g; read_uchar m a.
Definition peek_uint (g : GameInterface) (a : Z) : option Z :=
  m ← pm g; read_uint m a.
Definition peek_float (g : GameInterface) (a : Z) : option Q :=
  m ← pm g; read_float m a.



(** ** Sessions *)




(** ** Progression model *)

(** [progression_le c c']: every field of the progression model of [c'] is
    at least what it is in [c]: the sets contain the old ones, every set
    bit of the character bitmask is still set, the counters have not
    decreased, and every per-world count is still there and has not
    decreased. *)
Definition progression_le (c c' : APClient) : Prop :=
  allowed_worlds c ⊆ allowed_worlds c'
  ∧ boss_unlocked c ⊆ boss_unlocked c'
  ∧ (∀ n, Z.testbit (character_bits c) n = true →
          Z.testbit (character_bits c') n = true)
  ∧ bandage_count c <= bandage_count c'
  ∧ boss_token_count c <= boss_token_count c'
  ∧ (∀ w v, boss_token_counts c !! w = Some v →
            ∃ v', boss_token_counts c' !! w = Some v' ∧ v <= v')
  ∧ (∀ w v, dark_access_counts c !! w = Some v →
            ∃ v', dark_access_counts c' !! w = Some v' ∧ v <= v').

(** The fields of the progression model, as one tuple. *)
Definition progression (c : APClient) :=
  (allowed_worlds c, boss_unlocked c, character_bits c, bandage_count c,
   boss_token_count c, boss_token_counts c, dark_access_counts c).

(** ** Goal evaluation *)

(** The boss condition of the configured goal mode, for the pending boss. *)
Definition goal_boss_condition (opts : options) (mon : monitor) : bool :=
  if pending_boss_dark mon then bool_decide (goal opts = 3)
  else
    (bool_decide (goal opts = 0) && bool_decide (pending_boss_world mon = 5))
    || (bool_decide (goal opts = 1)
        && bool_decide (Z.of_nat (size (bosses_beaten mon)) >= 5))
    || (bool_decide (goal opts = 2) && bool_decide (pending_boss_world mon = 6)).

(** Goal 0 (beat the Rapture boss) with 10 bandages required. *)
Definition C4_options : options := mkOptions false 0 10 false false false false [].

(** A connected client with an open socket and [n] bandages. *)
Definition C4_client (n : Z) : APClient :=
  set_bandage_count n
    (handle_connected [] (set_ws_open true init_client)).

(** The boss level of world 5 has just been left. *)
Definition C4_monitor : monitor := open_pending_boss init_monitor 5 99 0.

(** ** Boss gates *)

(** A write of the game process itself to one of its bytes. *)
Definition game_writes (g : GameInterface) (a v : Z) : GameInterface :=
  match pm g with
  | Some m => set_pm g (mkPymem (<[a := v]> (bytes m)) (floats m))
  | None => g
  end.

(** World 1 needs 3 tokens, the other worlds have no token cost. *)
Definition C2_options : options :=
  mkOptions false 0 0 false false false true
    (mk_boss_token_costs (fun w => if decide (w = 1) then 3 else 0)).

(** The save pointer is 0x1000 and the boss counter of world 1 is 12. *)
Definition C2_game : GameInterface :=
  mkGame
    (Some (mkPymem
             (list_to_map
                [ (ADDR_save_ptr, 0x00); (ADDR_save_ptr + 1, 0x10);
                  (ADDR_save_ptr + 2, 0x00); (ADDR_save_ptr + 3, 0x00);
                  (0x1000 + 0x38D8, 12) ])
             ∅))
    0 true.

(** The same game at a moment when the save pointer reads 0. *)
Definition C2_no_save_ptr (g : GameInterface) : GameInterface :=
  game_writes g (ADDR_save_ptr + 1) 0.
Definition C2_save_ptr_back (g : GameInterface) : GameInterface :=
  game_writes g (ADDR_save_ptr + 1) 0x10.

Definition C2_client : APClient :=
  handle_connected [] (set_ws_open true init_client).

Definition FOREST_BOSS_TOKEN : Z := BASE_ID + 33.

(** ** Synthetic times *)

(** Whether a log line is an A+ line of a level. *)
Definition is_aplus_event (world level_index : Z) (region : string)
    (e : log_event) : Prop :=
  match e with
  | LogAplus w li r _ _ | LogAplusSweep w li r _ _ =>
      w = world ∧ li = level_index ∧ r = region
  | _ => False
  end.

(** A moment at which one time cell cannot be read. *)
Definition time_unreadable (g : GameInterface) (a : Z) : GameInterface :=
  match pm g with
  | Some m => set_pm g (mkPymem (bytes m) (delete a (floats m)))
  | None => g
  end.

(** Dark lock mode with one dark access item of world 1 received: the dark
    levels 1 to 5 of world 1 are unlocked. *)
Definition C3_client : APClient :=
  initial_sync_items
    (set_dark_lock_enabled true
       (handle_connected [] (set_ws_open true init_client)))
    [BASE_ID + 100].

(** The save block at 0x1000: the light levels of worlds 1 to 5 are
    untouched, except level 1-1, complete with a best time of 5.0 seconds
    (par 3.0). *)
Definition C3_game : GameInterface :=
  mkGame
    (Some (mkPymem
       (<[0x1000 + 0x0060 + 4 := 2]>
          (list_to_map ((fun '(w, li) =>
             (0x1000 + default 0 (comp_addr w li "light"), 0)) <$> light_levels_1_5)))
       (<[0x1000 + 0x0060 := 5.0%Q]>
          (list_to_map ((fun '(w, li) =>
             (0x1000 + default 0 (time_addr w li "light"), 0%Q)) <$> light_levels_1_5)))))
    0 true.

(** ** Sweeps *)



(** What a sweep leaves alone in the client: the sets its tests read. *)
Definition sweep_frame (c0 c : APClient) : Prop :=
  locations_checked c = locations_checked c0
  ∧ fake_aplus_times c = fake_aplus_times c0
  ∧ real_best_times c = real_best_times c0
  ∧ dark_lock_enabled c = dark_lock_enabled c0.



(** ** Auxiliary definitions of the proofs and concrete inputs *)

(** A concrete game for C7: dark level 2-4X, a bandage level, entered
    complete (byte 2) and left with the bandage bit set (byte 3); the save
    pointer is 0x1000. *)
Definition C7_game : GameInterface :=
  mkGame (Some (mkPymem {[ 0x1000 + 0x02D0 + 0x0F0 + 3 * 12 + 4 := 3 ]} ∅))
    0 true.

Definition C7_monitor : monitor :=
  mkMonitor {[ (2, 3, 1) := 2 ]} 0 false ∅ ∅.


(** [_update_boss_tokens] only adds to [boss_unlocked]. *)
Definition unlock_only (c c' : APClient) : Prop :=
  boss_unlocked c ⊆ boss_unlocked c'
  ∧ allowed_worlds c' = allowed_worlds c
  ∧ character_bits c' = character_bits c
  ∧ bandage_count c' = bandage_count c
  ∧ boss_token_count c' = boss_token_count c
  ∧ boss_token_counts c' = boss_token_counts c
  ∧ dark_access_counts c' = dark_access_counts c.


(** What a sweep adds while a light level is marked. *)
Definition marked_inv (world li : Z) (c0 : APClient)
    (acc : APClient * list Z) : Prop :=
  sweep_frame c0 acc.1
  ∧ (∀ x, x ∈ acc.2 → get_aplus_location_id world li "light" ≠ Some x)
  ∧ (∀ e, e ∈ logged acc.1 → e ∈ logged c0 ∨ ¬ is_aplus_event world li "light" e).

(** ** Save slots *)

(** The number of slots of a region: [NUM_WARP_SLOTS] warp slots, and
    [NUM_LEVELS.get(world, 20)] light or dark levels. *)
Definition slot_count (world : Z) (region : string) : Z :=
  if decide (region = "warp"%string) then NUM_WARP_SLOTS
  else default 20 (NUM_LEVELS !! world).

(** A level that has a save slot of its own. *)
Definition has_slot (world level_index : Z) (region : string) : Prop :=
  structurally_valid world region ∧ 0 <= level_index < slot_count world region.

(** The lookup [T[world - 1][type_map[region]][level_index]] with the bound
    checks of [get_par_time] and [get_level_name], for any table. *)
Definition table3 {A} (T : list (list (list A))) (world level_index : Z)
    (region : string) : option A :=
  let wi := world - 1 in
  if decide (wi < 0 ∨ wi >= len T) then None
  else
    match type_map region with
    | None => None
    | Some ti =>
        match T !! Z.to_nat wi with
        | None => None
        | Some by_type =>
            if decide (ti >= len by_type) then None
            else
              match by_type !! Z.to_nat ti with
              | None => None
              | Some times =>
                  if decide (level_index < 0 ∨ level_index >= len times)
                  then None
                  else times !! Z.to_nat level_index
              end
        end
    end.

(** The row lengths of a table. *)
Definition table_shape {A} (T : list (list (list A))) : list (list Z) :=
  (fun by_type : list (list A) => (len <$> by_type : list Z)) <$> T.

Definition level_shape : list (list Z) :=
  [[20; 20; 12]; [20; 20; 12]; [20; 20; 12]; [20; 20; 12]; [20; 20; 12];
   [5; 5]; [20; 20]].

(** ** The item queue *)

(** What happens to the queue: a [ReceivedItems] frame arrives, or the
    monitor polls with [get_new_items]. *)
Inductive inbox_event :=
  | ItemsPacket (start_index : Z) (items : list (Z * Z))
  | PollItems.

(** The items the next poll returns. *)
Definition pending (ib : inbox) : list received_item := (get_new_items ib).1.

(** One event; the second component collects what the polls returned. *)
Definition inbox_step (st : inbox * list received_item) (e : inbox_event)
    : inbox * list received_item :=
  match e with
  | ItemsPacket i items => ((handle_received_items i items st.1).1, st.2)
  | PollItems => ((get_new_items st.1).2, st.2 ++ (get_new_items st.1).1)
  end.

Definition inbox_run (ib : inbox) (evs : list inbox_event)
    : inbox * list received_item :=
  foldl inbox_step (ib, []) evs.

(** The item ids of the frames of an event sequence, in order. *)
Definition packet_ids (evs : list inbox_event) : list Z :=
  flat_map (fun e =>
    match e with ItemsPacket _ items => items.*1 | PollItems => [] end) evs.

Definition incremental (e : inbox_event) : Prop :=
  match e with ItemsPacket i _ => i ≠ 0 | PollItems => True end.

(** The processed counter points into the queue. *)
Definition inbox_ok (ib : inbox) : Prop :=
  0 <= items_processed ib <= len (items_received ib).

(** ** Locations *)

(** The locations the client reports, by the way their id is computed:
    level completions and A+ grades through the dispatchers, bosses,
    bandages by their position in [BANDAGE_DATA], character unlocks, warp
    zone completions, world clears (light or dark), and the achievements. *)
Inductive location :=
  | LevelClear (world level_index : Z) (region : string)
  | LevelAplus (world level_index : Z) (region : string)
  | BossDefeat (world : Z)
  | DarkBossDefeat
  | BandagePickup (position : Z)
  | CharacterUnlock (world : Z)
  | WarpZoneClear (world zone_index : Z)
  | WorldClear (world : Z) (dark : bool)
  | BandageMilestone (count : Z)
  | WarpMilestone (threshold : Z)
  | WorldAplus (world : Z)
  | GoldenGod
  | GirlBoy.

(** The id of a location, [None] where the location does not exist:
    bosses are those of worlds 1 to 6, character unlocks those of the worlds
    of [CHARACTER_WARPS], warp zones the four zones of worlds 1 to 5, world
    clears those of worlds 1 to 7, milestones those of the tables. *)
Definition location_id (l : location) : option Z :=
  match l with
  | LevelClear w li r => get_completion_location_id w li r
  | LevelAplus w li r => get_aplus_location_id w li r
  | BossDefeat w =>
      if decide (1 <= w <= 6) then Some (boss_location_id w) else None
  | DarkBossDefeat => Some dark_boss_location_id
  | BandagePickup n =>
      if decide (0 <= n) then b_ap_id <$> BANDAGE_DATA !! Z.to_nat n else None
  | CharacterUnlock w =>
      match CHARACTER_WARPS !! w with
      | Some _ => Some (character_unlock_location_id w)
      | None => None
      end
  | WarpZoneClear w z =>
      if decide (1 <= w <= 5 ∧ 0 <= z < 4) then
        Some (warp_completion_location_id w z)
      else None
  | WorldClear w dark =>
      if decide (1 <= w <= 7) then Some (clear_location_id w dark) else None
  | BandageMilestone count =>
      if decide (count ∈ BANDAGE_MILESTONES) then
        Some (bandage_milestone_location_id count)
      else None
  | WarpMilestone t => (list_to_map WARP_MILESTONE_LOCS : gmap Z Z) !! t
  | WorldAplus w => WORLD_APLUS_LOCS !! w
  | GoldenGod => Some golden_god_location_id
  | GirlBoy => Some girl_boy_location_id
  end.

(** The offset from [BASE_ID] of the id of a location, written out. *)
Definition location_offset (l : location) (o : Z) : Prop :=
  match l with
  | LevelClear w li r =>
      (r = "light"%string ∧ 1 <= w <= 5 ∧ 0 <= li < 20 ∧ o = (w - 1) * 20 + li + 1)
      ∨ (r = "light"%string ∧ w = 6 ∧ 0 <= li < 5 ∧ o = 401 + li)
      ∨ (r = "light"%string ∧ w = 7 ∧ 0 <= li < 20 ∧ o = 811 + li)
      ∨ (r = "dark"%string ∧ 1 <= w <= 5 ∧ 0 <= li < 20 ∧ o = 300 + (w - 1) * 20 + li + 1)
      ∨ (r = "dark"%string ∧ w = 6 ∧ 0 <= li < 5 ∧ o = 406 + li)
      ∨ (r = "dark"%string ∧ w = 7 ∧ 0 <= li < 20 ∧ o = 831 + li)
  | LevelAplus w li r =>
      (r = "light"%string ∧ 1 <= w <= 5 ∧ 0 <= li < 20 ∧ o = 500 + (w - 1) * 20 + li + 1)
      ∨ (r = "light"%string ∧ w = 6 ∧ 0 <= li < 5 ∧ o = 701 + li)
      ∨ (r = "light"%string ∧ w = 7 ∧ 0 <= li < 20 ∧ o = 711 + li)
      ∨ (r = "dark"%string ∧ 1 <= w <= 5 ∧ 0 <= li < 20 ∧ o = 600 + (w - 1) * 20 + li + 1)
      ∨ (r = "dark"%string ∧ w = 6 ∧ 0 <= li < 5 ∧ o = 706 + li)
      ∨ (r = "dark"%string ∧ w = 7 ∧ 0 <= li < 20 ∧ o = 731 + li)
      ∨ (r = "warp"%string ∧ 1 <= w <= 5 ∧ 0 <= li < 12 ∧ o = 751 + (w - 1) * 12 + li)
  | BossDefeat w => 1 <= w <= 6 ∧ o = 100 + w
  | DarkBossDefeat => o = 107
  | BandagePickup n => 0 <= n < 100 ∧ o = 201 + n
  | CharacterUnlock w => 1 <= w <= 5 ∧ o = 850 + w
  | WarpZoneClear w z => 1 <= w <= 5 ∧ 0 <= z < 4 ∧ o = 861 + (w - 1) * 4 + z
  | WorldClear w dark =>
      (1 <= w <= 5 ∧ o = (if dark then 905 else 900) + w)
      ∨ (w = 6 ∧ o = if dark then 912 else 911)
      ∨ (w = 7 ∧ o = if dark then 914 else 913)
  | BandageMilestone count =>
      ∃ k, 1 <= k <= 10 ∧ count = 10 * k ∧ o = 920 + k
  | WarpMilestone t =>
      (t = 1 ∧ o = 933) ∨ (t = 5 ∧ o = 934) ∨ (t = 10 ∧ o = 935)
      ∨ (t = 20 ∧ o = 936)
  | WorldAplus w => 1 <= w <= 5 ∧ o = 936 + w
  | GoldenGod => o = 931
  | GirlBoy => o = 932
  end.

#[global] Instance bandage_eq_dec : EqDecision bandage.
Proof. solve_decision. Defined.

(** A bandage is found under the address of its level. *)
Definition bandage_found (b : bandage) : bool :=
  match comp_addr (b_world b) (b_index b) (b_region b) with
  | Some ca => bool_decide (BANDAGE_BY_ADDR !! ca = Some b)
  | None => false
  end.

(** An entry of the address table is a bandage of the data list, on a
    level of its native table, under the address of that level. *)
Definition bandage_entry_ok (entry : Z * bandage) : bool :=
  bool_decide (entry.2 ∈ BANDAGE_DATA)
  && bool_decide (comp_addr (b_world entry.2) (b_index entry.2)
                    (b_region entry.2) = Some entry.1)
  && bool_decide ((b_index entry.2 + 1)
                    ∈ native_bandage_levels (b_world entry.2) (b_region entry.2))
  && bool_decide (1 <= b_world entry.2 <= 5).

(** ** Location names *)

(** The coordinates of the light and dark levels of worlds 1 to 7 (20 per
    world and region; world 6 uses the first 5). *)
Definition light_dark_levels : list (Z * Z * string) :=
  w ← seqZ 1 7; li ← seqZ 0 20; r ← ["light"; "dark"]%string; [(w, li, r)].

(** The name of the A+ location of a level is the name of its completion
    location behind the prefix ["A+ "]. *)
Definition aplus_name_ok (level : Z * Z * string) : bool :=
  let '(w, li, r) := level in
  match get_completion_location_id w li r, get_aplus_location_id w li r with
  | Some cid, Some aid =>
      bool_decide (get_location_name aid
                   = ("A+ " +:+ get_location_name cid)%string)
  | None, None => true
  | _, _ => false
  end.

(** The offsets from [BASE_ID] that [get_location_name] knows. *)
Definition known_offset (o : Z) : Prop :=
  1 <= o <= 107 ∨ 201 <= o <= 410 ∨ 501 <= o <= 855 ∨ 861 <= o <= 880
  ∨ 901 <= o <= 914 ∨ 921 <= o <= 932.

Definition known_ids : list Z :=
  (fun o => BASE_ID + o)
    <$> filter (fun o => known_offset o) (seqZ 1 932).

Definition unknown_name (loc_id : Z) : string :=
  ("Unknown Location " +:+ py_str loc_id)%string.

(** ** Memory cells *)

(** The time cell of a level can be read. *)
Definition time_readable (g : GameInterface) (sp w i : Z) (r : string) : Prop :=
  sp ≠ 0 ∧ ∃ ta, time_addr w i r = Some ta ∧ is_Some (peek_float g (sp + ta)).

(** ** Unlock masks *)

(** The ranges the item handlers keep: world 1 is always allowed and the
    allowed worlds are among 1 to 7; Meat Boy's bit 0 is always set and
    the character bits stay below bit 30. *)
Definition items_inv (c : APClient) : Prop :=
  1 ∈ allowed_worlds c ∧ (∀ w, w ∈ allowed_worlds c → 1 <= w <= 7)
  ∧ Z.testbit (character_bits c) 0 = true
  ∧ 0 <= character_bits c < 2 ^ 30.

(** Two games agree on every byte outside a set of addresses. *)
Definition bytes_agree (P : Z → Prop) (g g' : GameInterface) : Prop :=
  ∀ a, ¬ P a → peek_uchar g' a = peek_uchar g a.

(** The addresses of the boss counters of a save block. *)
Definition boss_counter_addr (sp a : Z) : Prop :=
  ∃ w o, BOSS_COUNTER_OFFSETS !! w = Some o ∧ a = sp + o.

(** A game whose save block at 0x1000 has its character bitmask and its
    world unlock byte mapped, all zero. *)
Definition masks_game : GameInterface :=
  mkGame (Some (mkPymem
    (list_to_map [(0x1000 + 0x3950, 0); (0x1000 + 0x3951, 0);
                  (0x1000 + 0x3952, 0); (0x1000 + 0x3953, 0);
                  (0x1000 + 0x3954, 0)]) ∅)) 0 true.

Definition plain_options : options :=
  mkOptions false 0 0 false false false false [].

(** ** Dark locks *)

(** The fields [_dark_level_unlocked] reads. *)
Definition lock_state (c : APClient) : bool * Z * gmap Z Z :=
  (dark_lock_enabled c, dark_unlocks_per_world c, dark_access_counts c).

(** The levels [_enforce_dark_locks] visits. *)
Definition light_level_1_5 (level : Z * Z) : Prop :=
  1 <= level.1 <= 5 ∧ 0 <= level.2 < 20.

(** What a pass from [(c, g)] to [(c', g')] owes to a locked level: the time
    on disk is no A+ afterwards, and an A+ that was there is remembered
    while the disk shows par plus the penalty. *)
Definition suppressed (c : APClient) (g : GameInterface) (c' : APClient)
    (g' : GameInterface) (sp w li : Z) : Prop :=
  is_a_plus (read_time g' sp w li "light") w li "light" = false
  ∧ (is_a_plus (read_time g sp w li "light") w li "light" = true →
     real_best_times c' !! (w, li) = Some (read_time g sp w li "light")
     ∧ ∃ par, get_par_time w li "light" = Some par
              ∧ read_time g' sp w li "light" = (par + DARK_LOCK_TIME_PENALTY)%Q).

(** What a pass owes to an unlocked level: a remembered time within par
    replaces a time on disk above par, and a time on disk within par stays. *)
Definition restored (c : APClient) (g g' : GameInterface) (sp w li : Z)
    : Prop :=
  ∀ par, get_par_time w li "light" = Some par →
    (∀ real, real_best_times c !! (w, li) = Some real →
       qle real par = true → qgt (read_time g sp w li "light") par = true →
       read_time g' sp w li "light" = real)
    ∧ (qgt (read_time g sp w li "light") par = false →
       read_time g' sp w li "light" = read_time g sp w li "light").

(** A save block at 0x1000 whose only mapped cell is the time of level
    1-1: 2.5 seconds, below its par of 3.0. *)
Definition aplus_game : GameInterface :=
  mkGame (Some (mkPymem ∅ {[0x1000 + 0x0060 := 2.5%Q]})) 0 true.

(** ** Names *)

(** The [(name, id)] entries of a data package in the order the handler
    visits them. *)
Definition package_items
    (data : list (string * (list (string * Z) * list (string * Z))))
    : list (string * Z) :=
  game_data ← data; game_data.2.1.
Definition package_locations
    (data : list (string * (list (string * Z) * list (string * Z))))
    : list (string * Z) :=
  game_data ← data; game_data.2.2.

(** The name of the last entry for [id], if there is one. *)
Definition last_name (entries : list (string * Z)) (id : Z) : option string :=
  fst <$> last (filter (fun e : string * Z => e.2 = id) entries).

(** The item ids the item handlers act on. *)
Definition handled_item (iid : Z) : Prop :=
  is_Some (WORLD_ACCESS_ITEM_IDS !! iid) ∨ iid = ITEM_BANDAGE
  ∨ is_Some (CHARACTER_ITEMS !! iid) ∨ is_Some (BOSS_TOKEN_IDS !! iid)
  ∨ is_Some (DARK_ACCESS_IDS !! iid).

(** ** Fire-once checks *)

(** The shape the achievement loops share: an entry whose mark is set is
    skipped; an entry whose condition holds is marked, and its ids and
    lines are appended. *)
Definition guarded_step {X S : Type} (mem : X → S → bool) (add : X → S → S)
    (fires : X → bool) (ids : X → list Z) (ls : X → list log_line)
    (acc : list Z * S * list log_line) (x : X)
    : list Z * S * list log_line :=
  let '(checks, s, lines) := acc in
  if mem x s then acc
  else if fires x then (checks ++ ids x, add x s, lines ++ ls x)
  else acc.

(** The entries of [l] that fire from the marks [s]. *)
Definition fired {X S : Type} (mem : X → S → bool) (fires : X → bool) (s : S)
    (l : list X) : list X :=
  filter (fun x => mem x s = false ∧ fires x = true) l.

(** Marking [x] sets its mark and leaves the marks of the other entries of
    [l] alone. *)
Definition marks_ok {X S : Type} (mem : X → S → bool) (add : X → S → S)
    (l : list X) : Prop :=
  (∀ x s, mem x (add x s) = true)
  ∧ (∀ x y s, x ∈ l → y ∈ l → x ≠ y → mem y (add x s) = mem y s).

(** Marks kept in a Python set, an entry being marked through its key. *)
Definition key_mem {X K} `{Countable K} (k : X → K) (x : X) (s : gset K)
    : bool := bool_decide (k x ∈ s).
Definition key_add {X K} `{Countable K} (k : X → K) (x : X) (s : gset K)
    : gset K := s ∪ {[k x]}.

(** [[id]] unless the id is in [locations_checked]. *)
Definition unchecked {A} (c : APClient) (id : Z) (x : A) : list A :=
  if bool_decide (id ∉ locations_checked c) then [x] else [].

(** A loop that fires once: from the marks [s] it appends the ids [new],
    taken in order from [all] and not in [checked], and leaves marks [s']
    from which it appends nothing. *)
Definition fire_once {S}
    (ph : list Z * S * list log_line → list Z * S * list log_line)
    (all : list Z) (checked : gset Z) (s : S) (new : list Z) (s' : S) : Prop :=
  (∀ checks lines,
     ∃ newl, ph (checks, s, lines) = (checks ++ new, s', lines ++ newl))
  ∧ new `sublist_of` all
  ∧ (∀ id, id ∈ new → id ∉ checked)
  ∧ (∀ checks lines, ph (checks, s', lines) = (checks, s', lines)).

(** *** The loops of [_check_achievements] in that shape *)

(** The entries of the world clear loop in the order it visits them: for
    each world the light half, then the dark half. *)
Definition clear_entries : list (Z * bool) :=
  w ← seqZ 1 7; [(w, false); (w, true)].

Definition clear_mem (e : Z * bool) (s : gset Z * gset Z) : bool :=
  bool_decide (e.1 ∈ (if e.2 then s.2 else s.1)).
Definition clear_add (e : Z * bool) (s : gset Z * gset Z) : gset Z * gset Z :=
  if e.2 then (s.1, s.2 ∪ {[e.1]}) else (s.1 ∪ {[e.1]}, s.2).
Definition clear_fires (game : GameInterface) (sp : Z) (e : Z * bool) : bool :=
  slots_complete game sp e.1 (if e.2 then "dark" else "light")%string
    (seqZ 0 (default 20 (NUM_LEVELS !! e.1))).
Definition clear_ids (c : APClient) (e : Z * bool) : list Z :=
  unchecked c (clear_location_id e.1 e.2) (clear_location_id e.1 e.2).
Definition clear_lines (c : APClient) (e : Z * bool) : list log_line :=
  unchecked c (clear_location_id e.1 e.2)
    ((if e.2 then LineDarkClear else LineWorldClear) (world_label e.1)).

Definition world_aplus_fires (c : APClient) (game : GameInterface) (sp w : Z)
    : bool :=
  match WORLD_APLUS_LOCS !! w with
  | Some loc_id =>
      negb (negb (truthy loc_id) || bool_decide (loc_id ∈ locations_checked c))
      && forallb (fun li => light_aplus_ok c game sp (w, li)) (seqZ 0 20)
  | None => false
  end.
Definition world_aplus_id (w : Z) : Z := default 0 (WORLD_APLUS_LOCS !! w).

(** The ids [_check_achievements] can queue, in the order of its loops. *)
Definition ACHIEVEMENT_IDS : list Z :=
  ((fun e : Z * bool => clear_location_id e.1 e.2) <$> clear_entries)
  ++ (bandage_milestone_location_id <$> BANDAGE_MILESTONES)
  ++ (snd <$> WARP_MILESTONE_LOCS)
  ++ (world_aplus_id <$> seqZ 1 5)
  ++ [golden_god_location_id; girl_boy_location_id].

(** The loops that [_check_achievements] runs one after the other, each
    on its own marks. *)
Definition phase (S : Type) : Type :=
  list Z * S * list log_line → list Z * S * list log_line.

Definition seq_phase {S1 S2} (ph1 : phase S1) (ph2 : phase S2)
    : phase (S1 * S2) :=
  fun acc =>
    let '(checks, (s1, s2), lines) := acc in
    let '(checks, s1, lines) := ph1 (checks, s1, lines) in
    let '(checks, s2, lines) := ph2 (checks, s2, lines) in
    (checks, (s1, s2), lines).

Definition opt_phase {S} (ph : phase S) : phase (option S) :=
  fun acc =>
    let '(checks, o, lines) := acc in
    match o with
    | Some s =>
        let '(checks, s, lines) := ph (checks, s, lines) in
        (checks, Some s, lines)
    | None => (checks, None, lines)
    end.

Definition when_phase {S} (b : bool) (ph : phase S) : phase S :=
  fun acc => if b then ph acc else acc.

(** Golden God ([false]) and Girl Boy ([true]). *)
Definition all_aplus_id (dark : bool) : Z :=
  if dark then girl_boy_location_id else golden_god_location_id.
Definition all_aplus_fires (c : APClient) (game : GameInterface) (sp : Z)
    (dark : bool) : bool :=
  bool_decide (all_aplus_id dark ∉ locations_checked c)
  && (if dark then forallb (dark_aplus_ok game sp) light_levels_1_5
      else forallb (light_aplus_ok c game sp) light_levels_1_5).

Definition ach_marks : Type :=
  (gset Z * gset Z)
  * (gset Z * (option (gset Z) * (option (gset Z) * gset Z))).

Definition ach_phases (c : APClient) (game : GameInterface) (sp : Z)
    (aplus_enabled : bool) : phase ach_marks :=
  seq_phase
    (fun acc =>
       foldl (guarded_step clear_mem clear_add (clear_fires game sp)
                (clear_ids c) (clear_lines c)) acc clear_entries)
  (seq_phase
    (fun acc =>
       foldl (guarded_step (key_mem id) (key_add id)
                (fun m => bool_decide (bandage_count c >= m))
                (fun m => unchecked c (bandage_milestone_location_id m)
                            (bandage_milestone_location_id m))
                (fun m => unchecked c (bandage_milestone_location_id m)
                            (LineBandageMilestone m)))
         acc BANDAGE_MILESTONES)
  (seq_phase
    (opt_phase (fun acc =>
       foldl (guarded_step (key_mem fst) (key_add fst)
                (fun it : Z * Z =>
                   bool_decide (count_warps_done game sp >= it.1))
                (fun it => unchecked c it.2 it.2)
                (fun it => unchecked c it.2
                             (LineWarpMilestone (WARP_MILESTONE_NAMES !!! it.1)
                                (count_warps_done game sp))))
         acc WARP_MILESTONE_LOCS))
  (seq_phase
    (opt_phase (when_phase aplus_enabled (fun acc =>
       foldl (guarded_step (key_mem id) (key_add id)
                (world_aplus_fires c game sp)
                (fun w => unchecked c (world_aplus_id w) (world_aplus_id w))
                (fun w => unchecked c (world_aplus_id w)
                            (LineWorldAplus (WORLD_APLUS_NAMES !!! w)
                               (world_label w))))
         acc (seqZ 1 5))))
    (fun acc =>
       foldl (guarded_step (key_mem all_aplus_id) (key_add all_aplus_id)
                (all_aplus_fires c game sp)
                (fun dark => if aplus_enabled
                             then unchecked c (all_aplus_id dark)
                                    (all_aplus_id dark)
                             else [])
                (fun dark => [if dark then LineGirlBoy else LineGoldenGod]))
         acc [false; true])))).

(** ** The batch of a sweep *)

(** The levels a sweep of [world] visits, in order. *)
Definition sweep_levels (world : Z) (dark_world_enabled w7_enabled : bool)
    : list (string * Z) :=
  region ← ["light"; "dark"]%string;
  if sweep_skips world region dark_world_enabled w7_enabled then []
  else (fun li => (region, li)) <$> seqZ 0 (default 20 (NUM_LEVELS !! world)).

(** Why a sweep started in [c0] queues [id] for the level [lv]: the level
    is complete and the id is its completion id, or its A+ id with the A+
    flag on and a positive time on disk, the graded time within par. *)
Definition sweep_queued (c0 : APClient) (game : GameInterface) (sp world : Z)
    (aplus : bool) (id : Z) (lv : string * Z) : Prop :=
  let '(region, li) := lv in
  0 <= read_comp game sp world li region
  ∧ Z.land (read_comp game sp world li region) FLAG_COMPLETE ≠ 0
  ∧ (get_completion_location_id world li region = Some id
     ∨ (aplus = true
        ∧ get_aplus_location_id world li region = Some id
        ∧ id ∉ aplus_logged c0
        ∧ qle (read_time game sp world li region) 0 = false
        ∧ ∃ par, get_par_time world li region = Some par
                 ∧ qgt (dark_lock_time c0 world li region
                          (read_time game sp world li region) par) par
                   = false)).

(** The invariant of the sweep after the levels [visited]. *)
Definition batch_inv (c0 : APClient) (game : GameInterface) (sp world : Z)
    (aplus : bool) (visited : list (string * Z)) (acc : APClient * list Z)
    : Prop :=
  sweep_frame c0 acc.1
  ∧ (∀ x, x ∈ aplus_logged c0 → x ∈ aplus_logged acc.1)
  ∧ NoDup acc.2
  ∧ (∀ id, id ∈ acc.2 →
       id ∉ locations_checked c0
       ∧ ∃ lv, lv ∈ visited ∧ sweep_queued c0 game sp world aplus id lv)
  ∧ (∀ id li r, id ∈ acc.2 → get_aplus_location_id world li r = Some id →
       id ∈ aplus_logged acc.1).

(** ** What the enforcement blocks leave alone *)

(** The bytes of the character bitmask of a save block. *)
Definition char_mask_addr (sp a : Z) : Prop :=
  sp + CHARACTER_BITMASK_OFFSET <= a < sp + CHARACTER_BITMASK_OFFSET + 4.

(** Two games hold the same times. *)
Definition floats_agree (g g' : GameInterface) : Prop :=
  ∀ a, peek_float g' a = peek_float g a.

(** The completion byte of a slot can be read. *)
Definition comp_readable (g : GameInterface) (sp w i : Z) (r : string) : Prop :=
  sp ≠ 0 ∧ ∃ ca, comp_addr w i r = Some ca ∧ is_Some (peek_uchar g (sp + ca)).

(** The A+ ids. *)
Definition is_aplus_id (id : Z) : Prop :=
  ∃ w li r, get_aplus_location_id w li r = Some id.

(** * Theorems *)

Section address_resolver.

Lemma WORLD_BASES_is_Some (world : Z) :
  is_Some (WORLD_BASES !! world) ↔ 1 <= world <= 7.
Proof.
  split.
  - intros [b Hb]. unfold WORLD_BASES, smb_game_data.WORLD_BASES in Hb.
    simpl in Hb.
    repeat (apply lookup_insert_Some in Hb as [[<- _]|[_ Hb]]; [lia|]).
    by rewrite lookup_empty in Hb.
  - intros H.
    assert (world = 1 ∨ world = 2 ∨ world = 3 ∨ world = 4 ∨ world = 5
            ∨ world = 6 ∨ world = 7) as Hw by lia.
    destruct Hw as [->|[->|[->|[->|[->|[->| ->]]]]]]; eexists; vm_compute;
      reflexivity.
Qed.

Lemma WORLD_BASES_None (world : Z) :
  ¬ (1 <= world <= 7) → WORLD_BASES !! world = None.
Proof.
  intros H. destruct (WORLD_BASES !! world) eqn:E; [|done].
  exfalso. apply H, WORLD_BASES_is_Some. eauto.
Qed.

(** C8. For a structurally invalid coordinate the three resolvers return
    [None] and the read and write helpers built on them do nothing (reads
    give the failure sentinel, writes leave the game untouched); for a valid
    one they return world base + region offset + index * 12, plus 4 for the
    completion byte and 0 for the time. *)
Theorem C8_address_resolver (world index : Z) (region : string) :
  (¬ structurally_valid world region →
     slot_addr world index region = None
     ∧ comp_addr world index region = None
     ∧ time_addr world index region = None
     ∧ ∀ (g : GameInterface) (sp v : Z) (t : Q),
         read_comp g sp world index region = -1
         ∧ read_time g sp world index region = (-1.0)%Q
         ∧ write_comp g sp world index region v = g
         ∧ write_time g sp world index region t = g)
  ∧ (structurally_valid world region →
     slot_addr world index region
       = Some (world_base world + region_offset world region + index * 12)
     ∧ comp_addr world index region
       = Some (world_base world + region_offset world region + index * 12 + 4)
     ∧ time_addr world index region
       = Some (world_base world + region_offset world region + index * 12 + 0)).
Proof.
  split.
  - intros Hinv.
    assert (slot_addr world index region = None
            ∧ comp_addr world index region = None
            ∧ time_addr world index region = None) as (Hs & Hc & Ht).
    { unfold structurally_valid in Hinv.
      unfold slot_addr, comp_addr, time_addr, _orig_slot_addr, _orig_comp_addr,
        _orig_time_addr, smb_game_data.comp_addr, smb_game_data.time_addr,
        smb_game_data.slot_addr.
      destruct (decide (1 <= world <= 7)) as [Hw|Hw].
      - apply WORLD_BASES_is_Some in Hw as Hb. destruct Hb as [b Hb]. rewrite Hb.
        repeat case_decide; try done; exfalso; apply Hinv; split; eauto;
          naive_solver.
      - rewrite (WORLD_BASES_None _ Hw).
        repeat case_decide; try done; lia. }
    repeat split; try done; unfold read_comp, read_time, write_comp, write_time;
      by rewrite ?Hc, ?Ht.
  - intros [[b Hb] Hr].
    pose proof (lookup_total_correct _ _ _ Hb) as Hb'.
    unfold slot_addr, comp_addr, time_addr, _orig_slot_addr, _orig_comp_addr,
      _orig_time_addr, smb_game_data.comp_addr, smb_game_data.time_addr,
      smb_game_data.slot_addr, world_base, region_offset.
    rewrite Hb, Hb'.
    unfold LIGHT_OFFSET, DARK_OFFSET, WARP_OFFSET, W6_DARK_OFFSET, SLOT_SIZE,
      COMP_BYTE, TIME_BYTE.
    destruct Hr as [->|[->|(-> & H6 & H7)]]; repeat case_decide;
      destruct_and?; simplify_eq; try rewrite Hb';
      try (repeat split; f_equal; lia); naive_solver.
Qed.

(** Witness of C8 at an invalid and at a valid coordinate. *)
Lemma C8_address_resolver_witness :
  comp_addr 7 3 "warp" = None ∧ comp_addr 2 4 "dark" = Some (0x02D0 + 0x0F0 + 4 * 12 + 4).
Proof.
  split.
  - refine (proj1 (proj2 (proj1 (C8_address_resolver 7 3 "warp") _))).
    unfold structurally_valid. intros [_ [H|[H|(_ & _ & H)]]]; [discriminate H|discriminate H|apply H; reflexivity].
  - refine (proj1 (proj2 (proj2 (C8_address_resolver 2 4 "dark") _))).
    split; [eexists; vm_compute; reflexivity | right; left; reflexivity].
Defined.

End address_resolver.

Section bandage_grant_targets.

Lemma grant_targets_all_safe :
  forallb grant_target_safe BANDAGE_GRANT_TARGETS = true.
Proof. vm_compute. reflexivity. Qed.

(** What the diff at level exit can queue: the completion id of the level
    and the id of the bandage entry found at its completion byte. *)
Lemma level_exit_diff_checks opts c game mon sp2 w li exit_type r id :
  id ∈ (level_exit_diff opts c game mon sp2 w li exit_type r).2 →
  get_completion_location_id w li r = Some id
  ∨ ∃ be, comp_addr w li r ≫= (fun ca => BANDAGE_BY_ADDR !! ca) = Some be
          ∧ id = b_ap_id be.
Proof.
  unfold level_exit_diff, exit_completion_checks.
  generalize (comp_addr w li r ≫= (fun ca => BANDAGE_BY_ADDR !! ca)).
  intros be.
  destruct (get_completion_location_id w li r) as [loc|];
    repeat (case_match; simplify_eq); cbn [snd];
    rewrite ?elem_of_app, ?list_elem_of_singleton, ?elem_of_nil; intros Hid;
    clear - Hid; destruct_or?; try (exfalso; exact Hid); subst; eauto 6.
Qed.

(** C10. Every grant target is a light or dark level of worlds 1-5 without
    a native bandage; its completion byte address is not a key of the
    bandage lookup table, so the diff at level exit finds no bandage entry
    for it: whatever it queues is the completion id of the level, never a
    bandage id. *)
Theorem C10_grant_targets_not_bandage_locations (w li : Z) (r : string) :
  (w, li, r) ∈ BANDAGE_GRANT_TARGETS →
  (r = "light"%string ∨ r = "dark"%string)
  ∧ 1 <= w <= 5 ∧ 0 <= li < 20
  ∧ ((li + 1) ∉ native_bandage_levels w r)
  ∧ (∃ ca, comp_addr w li r = Some ca ∧ BANDAGE_BY_ADDR !! ca = None)
  ∧ ∀ opts c game mon sp2 exit_type id,
      id ∈ (level_exit_diff opts c game mon sp2 w li exit_type r).2 →
      get_completion_location_id w li r = Some id.
Proof.
  intros Hin.
  pose proof (proj1 (forallb_forall _ _) grant_targets_all_safe (w, li, r)) as Hsafe.
  apply list_elem_of_In in Hin. specialize (Hsafe Hin). clear Hin.
  unfold grant_target_safe in Hsafe.
  destruct (comp_addr w li r) as [ca|] eqn:Hca;
    [|rewrite andb_false_r in Hsafe; discriminate Hsafe].
  destruct (BANDAGE_BY_ADDR !! ca) as [b|] eqn:Hnone;
    [rewrite andb_false_r in Hsafe; discriminate Hsafe|].
  rewrite andb_true_r in Hsafe.
  apply andb_prop in Hsafe as [Hsafe Hnat].
  apply andb_prop in Hsafe as [Hsafe Hli].
  apply andb_prop in Hsafe as [Hr Hw].
  apply bool_decide_eq_true in Hnat, Hli, Hw.
  apply orb_prop in Hr.
  split; [destruct Hr as [Hr|Hr]; apply bool_decide_eq_true in Hr; tauto|].
  split; [exact Hw|]. split; [exact Hli|].
  split; [exact Hnat|]. split; [exists ca; split; [reflexivity|exact Hnone]|].
  intros opts c game mon sp2 exit_type id Hid.
  destruct (level_exit_diff_checks opts c game mon sp2 w li exit_type r id Hid)
    as [Hc|(be & Hbe' & _)]; [exact Hc|].
  rewrite Hca in Hbe'. cbn [mbind option_bind] in Hbe'. congruence.
Qed.

(** Witness of C10 at the first grant target, level 1-1. *)
Lemma C10_grant_targets_witness :
  ∃ ca, comp_addr 1 0 "light" = Some ca ∧ BANDAGE_BY_ADDR !! ca = None.
Proof.
  refine (proj1 (proj2 (proj2 (proj2 (proj2
    (C10_grant_targets_not_bandage_locations 1 0 "light" _)))))).
  apply (bool_decide_unpack _). vm_compute. exact I.
Defined.

End bandage_grant_targets.

Section corrective_write.

Lemma truthy_land_bit0 (v : Z) :
  truthy (Z.land v FLAG_BANDAGE) = Z.testbit v 0.
Proof.
  unfold truthy, FLAG_BANDAGE.
  change 1 with (Z.ones 1). rewrite Z.land_ones by lia.
  rewrite Z.bit0_eqb. change (2 ^ 1) with 2.
  pose proof (Z.mod_pos_bound v 2 ltac:(lia)).
  destruct (Z.eqb_spec (v mod 2) 1); case_bool_decide; lia.
Qed.

Lemma MASK_CLEAR_BANDAGE_eq : MASK_CLEAR_BANDAGE = 0xFE.
Proof. reflexivity. Qed.

Lemma land_mask_byte (v : Z) : Z.land v 0xFE `mod` 256 = Z.land v 0xFE.
Proof.
  change 256 with (2 ^ 8). rewrite <- Z.land_ones by lia.
  rewrite <- Z.land_assoc. reflexivity.
Qed.

Lemma land_mask_bits (v n : Z) :
  Z.testbit (Z.land v 0xFE) n
  = if decide (1 <= n < 8) then Z.testbit v n else false.
Proof.
  rewrite Z.land_spec. case_decide as Hn.
  - assert (n = 1 ∨ n = 2 ∨ n = 3 ∨ n = 4 ∨ n = 5 ∨ n = 6 ∨ n = 7) as Hc by lia.
    destruct Hc as [->|[->|[->|[->|[->|[->| ->]]]]]]; apply andb_true_r.
  - destruct (decide (n < 0)).
    + rewrite (Z.testbit_neg_r 254) by lia. apply andb_false_r.
    + destruct (decide (n = 0)) as [->|]; [apply andb_false_r|].
      replace (Z.testbit 254 n) with false; [apply andb_false_r|].
      symmetry. apply Z.bits_above_log2; [lia|].
      change (Z.log2 254) with 7. lia.
Qed.

(** A write of a completion byte that succeeds changes that byte alone. *)
Lemma write_comp_frame g sp world index region value ca m :
  comp_addr world index region = Some ca → sp ≠ 0 →
  pm g = Some m → is_Some (bytes m !! (sp + ca)) →
  ∃ m', pm (write_comp g sp world index region value) = Some m'
        ∧ bytes m' = <[sp + ca := value `mod` 256]> (bytes m)
        ∧ floats m' = floats m
        ∧ base (write_comp g sp world index region value) = base g
        ∧ game_connected (write_comp g sp world index region value)
          = game_connected g.
Proof.
  intros Hca Hsp Hm [old Hold]. unfold write_comp. rewrite Hca.
  case_decide; [done|]. rewrite Hm. cbn. unfold write_uchar. rewrite Hold.
  cbn. eauto 10.
Qed.

Lemma read_comp_Some g sp world index region ca m :
  comp_addr world index region = Some ca → sp ≠ 0 → pm g = Some m →
  read_comp g sp world index region = default (-1) (bytes m !! (sp + ca)).
Proof.
  intros Hca Hsp Hm. unfold read_comp. rewrite Hca.
  case_decide; [done|]. by rewrite Hm.
Qed.

Lemma read_comp_nonneg_inv g sp world index region :
  0 <= read_comp g sp world index region →
  ∃ ca m, comp_addr world index region = Some ca ∧ sp ≠ 0 ∧ pm g = Some m
          ∧ bytes m !! (sp + ca) = Some (read_comp g sp world index region).
Proof.
  unfold read_comp. destruct (comp_addr world index region) as [ca|]; [|lia].
  case_decide; [lia|]. destruct (pm g) as [m|]; cbn; [|lia].
  unfold read_uchar. destruct (bytes m !! (sp + ca)) eqn:E; cbn; [|lia].
  eauto 10.
Qed.

(** C7. When the diff at level exit sees a newly set bandage bit (clear in
    the entry snapshot, set in the completion byte just read), it writes the
    byte back ANDed with 0xFE: the readback has bit 0 clear, the complete
    bit, the GotWarp bit and every other bit of the byte as read, and
    nothing else in the game memory has changed (every other byte and every
    time cell is as before, as are the other attributes of the game
    object). *)
Theorem C7_bandage_bit_cleared_after_credit
    (opts : options) (c : APClient) (game : GameInterface) (mon : monitor)
    (sp2 last_world exit_level exit_type : Z) (exit_region : string)
    (ev cv : Z) :
  entry_comp mon !! (last_world, exit_level, exit_type) = Some ev →
  read_comp game sp2 last_world exit_level exit_region = cv →
  0 <= ev → 0 <= cv →
  Z.testbit ev 0 = false → Z.testbit cv 0 = true →
  let game' :=
    (level_exit_diff opts c game mon sp2 last_world exit_level exit_type
       exit_region).1.2 in
  let readback := read_comp game' sp2 last_world exit_level exit_region in
  readback = Z.land cv 0xFE
  ∧ Z.testbit readback 0 = false
  ∧ Z.land readback FLAG_COMPLETE = Z.land cv FLAG_COMPLETE
  ∧ Z.land readback FLAG_WARP = Z.land cv FLAG_WARP
  ∧ (∀ n, 1 <= n < 8 → Z.testbit readback n = Z.testbit cv n)
  ∧ ∃ ca m m',
      comp_addr last_world exit_level exit_region = Some ca
      ∧ pm game = Some m ∧ pm game' = Some m'
      ∧ (∀ a, a ≠ sp2 + ca → bytes m' !! a = bytes m !! a)
      ∧ floats m' = floats m
      ∧ base game' = base game ∧ game_connected game' = game_connected game.
Proof.
  intros Hev Hcv Hev0 Hcv0 Hebit Hcbit game' readback.
  destruct (read_comp_nonneg_inv game sp2 last_world exit_level exit_region)
    as (ca & m & Hca & Hsp & Hm & Hbyte); [lia|].
  rewrite Hcv in Hbyte.
  assert (ev ≠ cv) as Hne by (intros ->; congruence).
  assert (game' = write_comp game sp2 last_world exit_level exit_region
                    (Z.land cv MASK_CLEAR_BANDAGE)) as Hgame.
  { subst game'. unfold level_exit_diff. rewrite Hev, Hcv. cbn [from_option id].
    rewrite !truthy_land_bit0, Hebit, Hcbit.
    rewrite !bool_decide_eq_true_2 by lia. reflexivity. }
  destruct (write_comp_frame game sp2 last_world exit_level exit_region
              (Z.land cv MASK_CLEAR_BANDAGE) ca m Hca Hsp Hm)
    as (m' & Hm' & Hbytes & Hfloats & Hbase & Hconn); [eauto|].
  rewrite <- Hgame in Hm', Hbase, Hconn.
  rewrite MASK_CLEAR_BANDAGE_eq, land_mask_byte in Hbytes.
  assert (readback = Z.land cv 0xFE) as Hrb.
  { subst readback. rewrite (read_comp_Some _ _ _ _ _ ca m' Hca Hsp Hm').
    rewrite Hbytes, lookup_insert_eq. reflexivity. }
  split; [exact Hrb|]. rewrite Hrb.
  split; [rewrite land_mask_bits; by case_decide; [lia|]|].
  split; [unfold FLAG_COMPLETE; by rewrite <- Z.land_assoc|].
  split; [unfold FLAG_WARP; by rewrite <- Z.land_assoc|].
  split; [intros n Hn; rewrite land_mask_bits; by rewrite decide_True by lia|].
  exists ca, m, m'. repeat split; try assumption.
  intros a Ha. rewrite Hbytes. by rewrite lookup_insert_ne.
Qed.

(** Witness of C7 on the game [C7_game]: the readback after the exit of
    dark level 2-4X is 2. *)
Lemma C7_bandage_bit_cleared_witness :
  read_comp
    (level_exit_diff (mkOptions true 0 0 true true true false []) init_client
       C7_game C7_monitor 0x1000 2 3 1 "dark").1.2
    0x1000 2 3 "dark" = Z.land 3 0xFE.
Proof.
  refine (proj1 (C7_bandage_bit_cleared_after_credit
    (mkOptions true 0 0 true true true false []) init_client C7_game
    C7_monitor 0x1000 2 3 1 "dark" 2 3 _ _ _ _ _ _));
    vm_compute; congruence.
Defined.

End corrective_write.

Section memory_access.






End memory_access.

Section idempotent_reporting.














End idempotent_reporting.

Section monotonic_progression.

Lemma progression_le_refl c : progression_le c c.
Proof. unfold progression_le. naive_solver eauto with lia. Qed.

Lemma progression_le_trans c1 c2 c3 :
  progression_le c1 c2 → progression_le c2 c3 → progression_le c1 c3.
Proof.
  intros (Ha & Hb & Hc & Hd & He & Hf & Hg) (Ha' & Hb' & Hc' & Hd' & He' & Hf' & Hg').
  unfold progression_le. split; [set_solver|]. split; [set_solver|].
  split; [auto|]. split; [lia|]. split; [lia|]. split.
  - intros w v Hv. destruct (Hf w v Hv) as (v' & Hv' & ?).
    destruct (Hf' w v' Hv') as (v'' & ? & ?). exists v''. split; [done|lia].
  - intros w v Hv. destruct (Hg w v Hv) as (v' & Hv' & ?).
    destruct (Hg' w v' Hv') as (v'' & ? & ?). exists v''. split; [done|lia].
Qed.

Lemma progression_le_eq c c' :
  progression c' = progression c → progression_le c c'.
Proof.
  unfold progression, progression_le. intros [= -> -> -> -> -> -> ->].
  naive_solver eauto with lia.
Qed.

Lemma count_incr_le (m : gmap Z Z) (k w v : Z) :
  m !! w = Some v →
  ∃ v', <[k := default 0 (m !! k) + 1]> m !! w = Some v' ∧ v <= v'.
Proof.
  intros Hv. destruct (decide (k = w)) as [->|Hne].
  - rewrite lookup_insert_eq, Hv. cbn. eexists. split; [done|lia].
  - rewrite lookup_insert_ne by done. eexists. split; [done|lia].
Qed.

Lemma progression_log e c : progression (log e c) = progression c.
Proof. reflexivity. Qed.

Lemma progression_foldl_log {A} (f : A → log_event) l c :
  progression (foldl (fun c x => log (f x) c) c l) = progression c.
Proof. revert c. induction l as [|x l IH]; intros c; [done|]. cbn. by rewrite IH. Qed.

Lemma progression_send_location_checks l c :
  progression (send_location_checks l c) = progression c.
Proof.
  unfold send_location_checks. repeat case_match; try done.
  rewrite progression_foldl_log. unfold send_message. by case_match.
Qed.

Lemma progression_item_milestones c mon :
  progression (item_milestones c mon).1.1 = progression c.
Proof.
  unfold item_milestones. generalize BANDAGE_MILESTONES.
  generalize (@nil Z). intros acc l. revert c mon acc.
  induction l as [|x l IH]; intros c mon acc; [done|].
  cbn [foldl]. unfold item_milestone_step at 2.
  repeat case_match; rewrite IH; done.
Qed.

Lemma grant_dark_access_progression c game sp world :
  progression (_grant_dark_access c game sp world).1.1 = progression c.
Proof.
  unfold _grant_dark_access. generalize (seqZ 0 20).
  generalize false. intros raised l. revert c game raised.
  induction l as [|x l IH]; intros c game raised; [done|].
  cbn [foldl]. unfold grant_dark_access_step at 2.
  repeat case_match; rewrite IH; done.
Qed.

Lemma unlock_only_progression_le c c' : unlock_only c c' → progression_le c c'.
Proof.
  intros (H1 & Ha & Hc & Hd & He & Hf & Hg). unfold progression_le.
  rewrite Ha, Hc, Hd, He, Hf, Hg.
  repeat split; try done; eauto with lia.
Qed.

Lemma update_boss_tokens_fold sp l acc :
  unlock_only acc.1.1 (foldl (update_boss_tokens_step sp) acc l).1.1.
Proof.
  revert acc. induction l as [|[w needed] l IH]; intros [[c g] n].
  { cbn. unfold unlock_only. done. }
  cbn [foldl]. specialize (IH (update_boss_tokens_step sp (c, g, n) (w, needed))).
  revert IH. generalize (foldl (update_boss_tokens_step sp)
    (update_boss_tokens_step sp (c, g, n) (w, needed)) l).
  intros r. unfold update_boss_tokens_step. cbn [fst].
  repeat case_match; cbn [fst snd]; try done.
  unfold unlock_only. cbn.
  intros (H1 & -> & -> & -> & -> & -> & ->). split; [|done].
  intros x Hx. apply H1. by apply elem_of_union_l.
Qed.

Lemma update_boss_tokens_progression c game sp costs :
  unlock_only c (_update_boss_tokens c game sp costs).1.1.
Proof. apply (update_boss_tokens_fold sp costs (c, game, [])). Qed.

Lemma character_bits_grow (bits bit n : Z) :
  Z.testbit bits n = true → Z.testbit (Z.lor bits (Z.shiftl 1 bit)) n = true.
Proof. intros H. rewrite Z.lor_spec, H. reflexivity. Qed.

Lemma initial_sync_item_mono c iid : progression_le c (initial_sync_item c iid).
Proof.
  unfold initial_sync_item, progression_le.
  repeat case_match; cbn;
    repeat split; try done; try set_solver; try lia;
    eauto using character_bits_grow, count_incr_le with lia.
Qed.

Lemma process_item_mono opts st iid :
  progression_le st.1.1.1 (process_item opts st iid).1.1.1.
Proof.
  destruct st as [[[c game] mon] raised]. unfold process_item.
  destruct raised; [apply progression_le_refl|]. cbn [fst].
  destruct (WORLD_ACCESS_ITEM_IDS !! iid) as [w|].
  { case_bool_decide; [|apply progression_le_refl]. cbn [fst].
    eapply progression_le_trans; [|apply progression_le_eq, progression_log].
    unfold progression_le. cbn. repeat split; try done; try set_solver; eauto with lia. }
  case_decide.
  { set (c1 := set_bandage_count (bandage_count c + 1) c).
    assert (progression_le c c1) as H1.
    { unfold progression_le. cbn. repeat split; try done; eauto with lia. }
    repeat case_match; cbn [fst]; try exact H1;
      (eapply progression_le_trans; [exact H1|]); apply progression_le_eq;
      rewrite ?progression_send_location_checks;
      try match goal with H : item_milestones ?a ?b = (?c', _, _) |- _ =>
        replace c' with (item_milestones a b).1.1 by (by rewrite H);
        rewrite progression_item_milestones end;
      by rewrite ?progression_log. }
  destruct (CHARACTER_ITEMS !! iid) as [bit|].
  { cbn [fst]. unfold progression_le. cbn.
    repeat split; try done; eauto using character_bits_grow with lia. }
  destruct (BOSS_TOKEN_IDS !! iid) as [token_world|].
  { set (c1 := set_boss_token_count _ _).
    assert (progression_le c c1) as H1.
    { unfold progression_le. cbn.
      repeat split; try done; eauto using count_incr_le with lia. }
    eapply progression_le_trans; [exact H1|].
    destruct (boss_tokens_enabled opts); [|apply progression_le_eq; done].
    destruct (truthy (get_sp game)); [|apply progression_le_eq; done].
    pose proof (update_boss_tokens_progression c1 game (get_sp game)
                  (boss_token_costs opts)) as Hu.
    destruct (_update_boss_tokens c1 game (get_sp game) (boss_token_costs opts))
      as [[c2 g2] newly].
    cbn [fst] in *.
    eapply progression_le_trans; [apply unlock_only_progression_le, Hu|].
    apply progression_le_eq.
    by rewrite progression_log, progression_foldl_log. }
  destruct (DARK_ACCESS_IDS !! iid) as [dw|]; [|apply progression_le_refl].
  set (c1 := set_dark_access_counts _ _).
  assert (progression_le c c1) as H1.
  { unfold progression_le. cbn.
    repeat split; try done; eauto using count_incr_le with lia. }
  repeat case_match; cbn [fst]; (eapply progression_le_trans; [exact H1|]);
    simplify_eq; try apply progression_le_refl;
    apply progression_le_eq; rewrite ?progression_log;
    try match goal with H : _grant_dark_access ?a ?g ?s ?k = (?c', _, _) |- _ =>
      replace c' with (_grant_dark_access a g s k).1.1 by (by rewrite H);
      by rewrite grant_dark_access_progression end; done.
Qed.

(** C6. Along any sequence of received items, processed by the initial
    item sync or by the main loop (whether or not an exception leaves the
    handler on the way), the progression model never decreases: the state
    after any prefix of the items is below the state after the whole
    sequence.  With the empty prefix this compares the final state with the
    initial one. *)
Theorem C6_progression_monotonic
    (opts : options) (c : APClient) (game : GameInterface) (mon : monitor)
    (pre post : list Z) :
  progression_le (initial_sync_items c pre) (initial_sync_items c (pre ++ post))
  ∧ progression_le
      (process_new_items opts (c, game, mon, false) pre).1.1.1
      (process_new_items opts (c, game, mon, false) (pre ++ post)).1.1.1.
Proof.
  unfold initial_sync_items, process_new_items. rewrite !foldl_app. split.
  - generalize (foldl initial_sync_item c pre). intros c1.
    induction post as [|x l IH] using rev_ind; [apply progression_le_refl|].
    rewrite foldl_snoc. eapply progression_le_trans; [exact IH|].
    apply initial_sync_item_mono.
  - generalize (foldl (process_item opts) (c, game, mon, false) pre). intros st.
    induction post as [|x l IH] using rev_ind; [apply progression_le_refl|].
    rewrite foldl_snoc. eapply progression_le_trans; [exact IH|].
    apply process_item_mono.
Qed.

End monotonic_progression.

Section goal_gating.

Lemma send_goal_complete_spec c :
  goal_completed (send_goal_complete c) = true
  ∧ sent (send_goal_complete c)
    = (if goal_completed c || negb (ws_open c) then sent c
       else sent c ++ [StatusUpdate 30])
  ∧ bandage_count (send_goal_complete c) = bandage_count c.
Proof.
  unfold send_goal_complete, send_message.
  destruct (goal_completed c) eqn:E; cbn; [done|].
  destruct (ws_open c); done.
Qed.

(** When the goal checks run, the goal is completed exactly when the boss
    condition of the goal mode and the bandage threshold both hold (or it
    was completed before), and the notification is sent at most once. *)
Lemma goal_checks_spec opts c mon :
  let c' := goal_checks opts c mon in
  goal_completed c'
  = goal_completed c
    || (goal_boss_condition opts mon
        && bool_decide (bandage_count c >= bandages_req opts))
  ∧ sent c'
    = (if negb (goal_completed c) && ws_open c
          && goal_boss_condition opts mon
          && bool_decide (bandage_count c >= bandages_req opts)
       then sent c ++ [StatusUpdate 30] else sent c).
Proof.
  unfold goal_checks, goal_boss_condition.
  destruct (send_goal_complete_spec c) as (Hg & Hs & _).
  destruct (pending_boss_dark mon), (goal_completed c) eqn:Hgc, (ws_open c) eqn:Hws;
    repeat (case_bool_decide; cbn [andb orb negb]); cbn;
    rewrite ?Hg, ?Hs, ?Hgc, ?Hws; cbn; rewrite ?orb_true_r; try done; try lia.
Qed.

(** C4 (failing input). Goal 0 with 10 bandages required.  The Rapture boss
    is defeated and confirmed with 5 bandages: the boss location is
    reported, the shortfall is logged and the goal stays open.  Five more
    bandages arrive, the boss is defeated and confirmed again: the boss
    condition and the threshold now hold together, but the goal checks are
    skipped because the boss location is already checked; the goal is not
    completed and no notification is sent. *)
Theorem C4_second_boss_defeat_not_evaluated :
  let '(c1, mon1) :=
    pending_boss_check C4_options (C4_client 5) C4_monitor 0 3 1.5%Q in
  goal_completed c1 = false
  ∧ sent c1 = [LocationChecks [boss_location_id 5]]
  ∧ logged c1 = [LogChecked (boss_location_id 5);
                 LogBossDefeated (boss_location_id 5); LogGoalNotMet 10 5]
  ∧ let c2 := initial_sync_items c1 (replicate 5 ITEM_BANDAGE) in
    let mon2 := open_pending_boss mon1 5 99 0 in
    let '(c3, mon3) := pending_boss_check C4_options c2 mon2 0 3 1.5%Q in
    goal_boss_condition C4_options mon2 = true
    ∧ bandage_count c2 >= bandages_req C4_options
    ∧ goal_completed c3 = false
    ∧ sent c3 = sent c1
    ∧ pending_boss_world mon3 = 0.
Proof. vm_compute. repeat split; congruence. Qed.

End goal_gating.

Section gate_suppression.

(** C2 (failing input). World 1 costs 3 tokens; the native threshold is 17.
    After two tokens an enforcement pass forces the counter (12) to 0.  When
    the third token is processed with the save pointer readable, world 1
    enters [boss_unlocked], the counter is raised to 17 and a later pass
    restores 17 after the game has reset it to 0.  When the third token is
    processed while the save pointer reads 0, [_update_boss_tokens] is not
    called: world 1 has 3 tokens but is not in [boss_unlocked], and the next
    pass forces a counter of 17 back to 0. *)
Theorem C2_token_processed_without_save_pointer :
  let sp := 0x1000 in
  let costs := boss_token_costs C2_options in
  let '(c2, g2, mon, _) :=
    process_new_items C2_options (C2_client, C2_game, init_monitor, false)
      [FOREST_BOSS_TOKEN; FOREST_BOSS_TOKEN] in
  get_sp g2 = sp
  ∧ boss_token_counts c2 !! 1 = Some 2
  ∧ read_boss_counter (_enforce_boss_counters c2 g2 sp costs) sp 1 = 0
  (* third token, save pointer readable *)
  ∧ (let '(c3, g3, _, _) :=
       process_new_items C2_options (c2, g2, mon, false) [FOREST_BOSS_TOKEN] in
     boss_token_counts c3 !! 1 = Some 3
     ∧ boss_unlocked c3 = {[1]}
     ∧ read_boss_counter g3 sp 1 = 17
     ∧ read_boss_counter
         (_enforce_boss_counters c3 (game_writes g3 (sp + 0x38D8) 0) sp costs)
         sp 1 = 17)
  (* third token, save pointer reads 0 *)
  ∧ (let '(c3, g3, _, _) :=
       process_new_items C2_options (c2, C2_no_save_ptr g2, mon, false)
         [FOREST_BOSS_TOKEN] in
     let g4 := game_writes (C2_save_ptr_back g3) (sp + 0x38D8) 17 in
     get_sp (C2_no_save_ptr g2) = 0
     ∧ boss_token_counts c3 !! 1 = Some 3
     ∧ boss_unlocked c3 = ∅
     ∧ get_sp g4 = sp
     ∧ read_boss_counter g4 sp 1 = 17
     ∧ read_boss_counter (_enforce_boss_counters c3 g4 sp costs) sp 1 = 0).
Proof. vm_compute. repeat split; congruence. Qed.

(** *** Enforcement passes

    What an enforcement pass does to the counter of one world, given the
    [boss_unlocked] set it finds. *)

Lemma BOSS_COUNTER_OFFSETS_Some w o :
  BOSS_COUNTER_OFFSETS !! w = Some o ↔ 1 <= w <= 6 ∧ o = 0x38D8 + 12 * (w - 1).
Proof.
  split.
  - intros H. unfold BOSS_COUNTER_OFFSETS in H. cbn in H.
    repeat (apply lookup_insert_Some in H as [[<- <-]|[_ H]]; [lia|]).
    by rewrite lookup_empty in H.
  - intros [Hw ->].
    assert (w = 1 ∨ w = 2 ∨ w = 3 ∨ w = 4 ∨ w = 5 ∨ w = 6) as Hc by lia.
    destruct Hc as [->|[->|[->|[->|[->| ->]]]]]; reflexivity.
Qed.

Lemma BOSS_UNLOCK_THRESHOLDS_Some w t :
  BOSS_UNLOCK_THRESHOLDS !! w = Some t
  ↔ (1 <= w <= 5 ∧ t = 17) ∨ (w = 6 ∧ t = 5).
Proof.
  split.
  - intros H. unfold BOSS_UNLOCK_THRESHOLDS in H. cbn in H.
    repeat (apply lookup_insert_Some in H as [[<- <-]|[_ H]]; [lia|]).
    by rewrite lookup_empty in H.
  - intros [[Hw ->]|[-> ->]]; [|reflexivity].
    assert (w = 1 ∨ w = 2 ∨ w = 3 ∨ w = 4 ∨ w = 5) as Hc by lia.
    destruct Hc as [->|[->|[->|[->| ->]]]]; reflexivity.
Qed.

Lemma read_boss_counter_write_ne g sp w w' v :
  w ≠ w' →
  read_boss_counter (write_boss_counter g sp w' v) sp w = read_boss_counter g sp w.
Proof.
  intros Hne. unfold read_boss_counter, write_boss_counter.
  destruct (BOSS_COUNTER_OFFSETS !! w) as [o|] eqn:Ho; [|done].
  destruct (BOSS_COUNTER_OFFSETS !! w') as [o'|] eqn:Ho'; [|done].
  apply BOSS_COUNTER_OFFSETS_Some in Ho as [? ->].
  apply BOSS_COUNTER_OFFSETS_Some in Ho' as [? ->].
  case_decide; [done|]. destruct (pm g) as [m|] eqn:Hm; cbn; [|by rewrite Hm].
  unfold write_uchar. destruct (bytes m !! _) eqn:Hb; cbn; [|by rewrite Hm].
  unfold read_uchar. cbn. rewrite lookup_insert_ne by lia. done.
Qed.

Lemma read_boss_counter_write_eq g sp w v :
  0 <= read_boss_counter g sp w → 0 <= v <= 255 →
  read_boss_counter (write_boss_counter g sp w v) sp w = v.
Proof.
  unfold read_boss_counter, write_boss_counter.
  destruct (BOSS_COUNTER_OFFSETS !! w) as [o|]; [|lia].
  case_decide; [lia|]. destruct (pm g) as [m|] eqn:Hm; cbn; [|lia].
  unfold read_uchar, write_uchar.
  destruct (bytes m !! (sp + o)) eqn:Hb; cbn; [|lia].
  intros _ Hv. rewrite lookup_insert_eq. cbn.
  rewrite Z.min_l by lia. apply Z.mod_small. lia.
Qed.

Lemma reraise_step_other sp g w w' :
  w ≠ w' → read_boss_counter (reraise_step sp g w') sp w = read_boss_counter g sp w.
Proof.
  intros Hne. unfold reraise_step. repeat case_match; try done.
  by apply read_boss_counter_write_ne.
Qed.

Lemma reraise_fold_other sp l g w :
  w ∉ l →
  read_boss_counter (foldl (reraise_step sp) g l) sp w = read_boss_counter g sp w.
Proof.
  revert g. induction l as [|x l IH]; intros g Hw; [done|].
  apply not_elem_of_cons in Hw as [Hne Hw]. cbn [foldl].
  rewrite IH by done. by apply reraise_step_other.
Qed.

Lemma reraise_fold_target sp l g w t :
  NoDup l → w ∈ l → BOSS_UNLOCK_THRESHOLDS !! w = Some t →
  0 <= read_boss_counter g sp w →
  read_boss_counter (foldl (reraise_step sp) g l) sp w
  = Z.max t (read_boss_counter g sp w).
Proof.
  intros Hnd Hin Ht Hv. apply list_elem_of_split in Hin as (pre & post & ->).
  apply NoDup_app in Hnd as (_ & Hpre & Hpost).
  apply NoDup_cons in Hpost as [Hpost _].
  rewrite foldl_app. cbn [foldl]. rewrite reraise_fold_other by done.
  assert (w ∉ pre) as Hnpre.
  { intros Hx. apply (Hpre w Hx). by left. }
  pose proof (reraise_fold_other sp pre g w Hnpre) as Hsame.
  unfold reraise_step at 1. rewrite Ht. rewrite Hsame.
  assert (0 <= t <= 255) as Htb.
  { apply BOSS_UNLOCK_THRESHOLDS_Some in Ht. lia. }
  case_bool_decide.
  - rewrite read_boss_counter_write_eq by (rewrite ?Hsame; lia). lia.
  - rewrite Hsame. lia.
Qed.

Lemma suppress_fold_other c sp l g w :
  w ∉ l.*1 →
  read_boss_counter (foldl (suppress_step c sp) g l) sp w = read_boss_counter g sp w.
Proof.
  revert g. induction l as [|[x n] l IH]; intros g Hw; [done|].
  cbn in Hw. apply not_elem_of_cons in Hw as [Hne Hw]. cbn [foldl].
  rewrite IH by done. unfold suppress_step. cbn [fst].
  repeat case_match; try done. by apply read_boss_counter_write_ne.
Qed.

Lemma suppress_fold_unlocked c sp l g w :
  w ∈ boss_unlocked c →
  read_boss_counter (foldl (suppress_step c sp) g l) sp w = read_boss_counter g sp w.
Proof.
  intros Hu. revert g. induction l as [|[x n] l IH]; intros g; [done|].
  cbn [foldl]. rewrite IH. unfold suppress_step. cbn [fst].
  case_bool_decide; [|done]. case_bool_decide; [|done].
  apply read_boss_counter_write_ne. intros ->. done.
Qed.

Lemma suppress_fold_locked c sp l g w :
  w ∉ boss_unlocked c → w ∈ l.*1 →
  0 <= read_boss_counter g sp w →
  read_boss_counter (foldl (suppress_step c sp) g l) sp w = 0.
Proof.
  intros Hu. revert g. induction l as [|[x n] l IH]; intros g Hin Hv.
  { by apply elem_of_nil in Hin. }
  cbn [foldl].
  set (g1 := suppress_step c sp g (x, n)).
  assert (x = w → read_boss_counter g1 sp w = 0) as Hhit.
  { intros ->. subst g1. unfold suppress_step. cbn [fst].
    rewrite (bool_decide_eq_true_2 _ Hu). case_bool_decide.
    - by apply read_boss_counter_write_eq.
    - lia. }
  assert (x ≠ w → read_boss_counter g1 sp w = read_boss_counter g sp w) as Hmiss.
  { intros Hne. subst g1. unfold suppress_step. cbn [fst].
    repeat case_match; try done. by apply read_boss_counter_write_ne. }
  destruct (decide (w ∈ l.*1)) as [Hl|Hl].
  - apply IH; [done|]. destruct (decide (x = w)) as [He|He].
    + rewrite (Hhit He). lia.
    + rewrite (Hmiss He). lia.
  - rewrite suppress_fold_other by done. apply Hhit.
    cbn in Hin. apply elem_of_cons in Hin as [->|?]; done.
Qed.

(** The part of the gate property that holds for the set [boss_unlocked]
    an enforcement pass finds: a readable counter of a world with a token
    cost that is not in the set ends the pass at 0; a readable counter of a
    world in the set ends the pass at the native threshold or above, and is
    left alone when it is there already. *)
Lemma enforce_boss_counters_effect c game sp costs w :
  0 <= read_boss_counter game sp w →
  let after := read_boss_counter (_enforce_boss_counters c game sp costs) sp w in
  (w ∉ boss_unlocked c → w ∈ costs.*1 → after = 0)
  ∧ (w ∈ boss_unlocked c →
     ∀ t, BOSS_UNLOCK_THRESHOLDS !! w = Some t →
          after = Z.max t (read_boss_counter game sp w)).
Proof.
  intros Hv after. subst after. unfold _enforce_boss_counters. split.
  - intros Hu Hin. apply suppress_fold_locked; [done|done|].
    rewrite reraise_fold_other; [done|]. by rewrite elem_of_elements.
  - intros Hu t Ht. rewrite suppress_fold_unlocked by done.
    apply reraise_fold_target; [apply NoDup_elements| |done|done].
    by apply elem_of_elements.
Qed.

(** [_update_boss_tokens] unlocks every world whose count has reached its
    positive cost, and never removes a world. *)
Lemma update_boss_tokens_unlocks c game sp costs w needed :
  (w, needed) ∈ costs → 0 < needed →
  needed <= default 0 (boss_token_counts c !! w) →
  w ∈ boss_unlocked (_update_boss_tokens c game sp costs).1.1.
Proof.
  intros Hin Hpos Hcount. unfold _update_boss_tokens.
  apply list_elem_of_split in Hin as (pre & post & ->).
  rewrite foldl_app. cbn [foldl].
  pose proof (update_boss_tokens_fold sp pre (c, game, [])) as Hpre.
  destruct (foldl (update_boss_tokens_step sp) (c, game, []) pre) as [[c1 g1] n1].
  cbn [fst] in Hpre. destruct Hpre as (Hsub & _ & _ & _ & _ & Hcounts & _).
  pose proof (update_boss_tokens_fold sp post
                (update_boss_tokens_step sp (c1, g1, n1) (w, needed))) as Hpost.
  destruct Hpost as (Hsub' & _). apply Hsub'.
  unfold update_boss_tokens_step. rewrite Hcounts.
  rewrite (bool_decide_eq_false_2 (needed <= 0)) by lia. cbn [orb].
  case_bool_decide; [done|].
  rewrite bool_decide_eq_true_2 by lia. cbn. by apply elem_of_union_r, elem_of_singleton.
Qed.

End gate_suppression.

Section synthetic_times.

(** C3 (failing input). [_grant_dark_access] writes the synthetic time
    par - 0.001 to level 1-1 and marks it; while the mark is there
    [_check_aplus] and [_aplus_sweep] produce nothing for the level.  One
    enforcement pass whose read of the time fails (sentinel -1.0) removes
    the mark, although no new time was written; the synthetic time is still
    on disk, and the next [_check_aplus] logs and queues the A+ of the
    level. *)
Theorem C3_mark_cleared_by_failed_read :
  let sp := 0x1000 in
  let '(c1, g1, _) := _grant_dark_access C3_client C3_game sp 1 in
  (1, 0) ∈ fake_aplus_times c1
  ∧ Qeq (read_time g1 sp 1 0 "light") (3.0 - 0.001)
  ∧ _check_aplus c1 g1 sp 1 0 "light" [] true = (c1, [])
  ∧ (_aplus_sweep c1 g1 sp 1 true true true).2 = [level_location_id 1 0]
  ∧ logged (_aplus_sweep c1 g1 sp 1 true true true).1 = logged c1
  ∧ let '(c2, g2, _) :=
      _enforce_dark_locks c1 (time_unreadable g1 (sp + 0x0060)) sp in
    read_time (time_unreadable g1 (sp + 0x0060)) sp 1 0 "light" = (-1.0)%Q
    ∧ (1, 0) ∉ fake_aplus_times c2
    ∧ real_best_times c2 !! (1, 0) = None
    ∧ (_check_aplus c2 g1 sp 1 0 "light" [] true).2
      = [aplus_light_location_id 1 0]
    ∧ logged (_check_aplus c2 g1 sp 1 0 "light" [] true).1
      = logged c2 ++ [LogAplus 1 0 "light" (3.0 - 0.001) 3.0].
Proof.
  vm_compute.
  repeat split; try congruence; try (intros H; discriminate H).
Qed.

End synthetic_times.

Section sweep_completeness.


Lemma aplus_id_nonzero world li region id :
  get_aplus_location_id world li region = Some id → id ≠ 0.
Proof.
  unfold get_aplus_location_id, aplus_light_location_id, aplus_dark_location_id,
    aplus_w6_light_location_id, aplus_w6_dark_location_id,
    aplus_w7_light_location_id, aplus_w7_dark_location_id,
    aplus_warp_location_id, BASE_ID.
  repeat case_decide; intros [= <-]; lia.
Qed.


(** Within a world, the A+ id determines the level and the region. *)
Lemma aplus_id_inj world li region li' region' id :
  get_aplus_location_id world li region = Some id →
  get_aplus_location_id world li' region' = Some id →
  li = li' ∧ region = region'.
Proof.
  unfold get_aplus_location_id, aplus_light_location_id, aplus_dark_location_id,
    aplus_w6_light_location_id, aplus_w6_dark_location_id,
    aplus_w7_light_location_id, aplus_w7_dark_location_id,
    aplus_warp_location_id, BASE_ID.
  repeat case_decide; intros [= <-] [= Heq]; subst; split; (done || lia).
Qed.

(** No id is both a completion id and an A+ id. *)
Lemma completion_id_not_aplus world li region world' li' region' id :
  get_completion_location_id world li region = Some id →
  get_aplus_location_id world' li' region' = Some id → False.
Proof.
  unfold get_completion_location_id, level_location_id, dark_level_location_id,
    w6_level_location_id, w6_dark_level_location_id, w7_light_location_id,
    w7_dark_location_id, get_aplus_location_id, aplus_light_location_id,
    aplus_dark_location_id, aplus_w6_light_location_id,
    aplus_w6_dark_location_id, aplus_w7_light_location_id,
    aplus_w7_dark_location_id, aplus_warp_location_id, BASE_ID.
  repeat case_decide; intros [= <-] [= Heq]; lia.
Qed.



Lemma dark_lock_time_frame c0 c world li region t p :
  sweep_frame c0 c →
  dark_lock_time c world li region t p = dark_lock_time c0 world li region t p.
Proof. intros (_ & _ & Hr & Hd). unfold dark_lock_time. by rewrite Hr, Hd. Qed.

(** When the A+ part of the sweep fires. *)
Lemma sweep_grade_Some c game sp world li region id t p :
  sweep_grade c game sp world li region = Some (id, t, p)
  ↔ qle (read_time game sp world li region) 0 = false
    ∧ get_par_time world li region = Some p
    ∧ t = dark_lock_time c world li region (read_time game sp world li region) p
    ∧ ¬ ((world, li) ∈ fake_aplus_times c ∧ region = "light"%string)
    ∧ qgt t p = false
    ∧ get_aplus_location_id world li region = Some id
    ∧ id ∉ locations_checked c ∧ id ∉ aplus_logged c.
Proof.
  unfold sweep_grade.
  destruct (qle (read_time game sp world li region) 0); [naive_solver|].
  destruct (get_par_time world li region) as [par|]; [|naive_solver].
  set (tv := dark_lock_time c world li region _ par).
  destruct (bool_decide ((world, li) ∈ fake_aplus_times c)
            && bool_decide (region = "light"%string)) eqn:Hfake.
  { apply andb_prop in Hfake as [?%bool_decide_eq_true ?%bool_decide_eq_true].
    naive_solver. }
  assert (¬ ((world, li) ∈ fake_aplus_times c ∧ region = "light"%string)) as Hnf.
  { intros [H1 H2]. rewrite !bool_decide_eq_true_2 in Hfake by done. done. }
  destruct (qgt tv par) eqn:Hgt.
  { split; [done|]. intros (_ & [= <-] & -> & _ & Hq & _). subst tv.
    congruence. }
  destruct (get_aplus_location_id world li region) as [aid|] eqn:Haid.
  2: { split; [done|]. intros (_ & _ & _ & _ & _ & [=] & _). }
  pose proof (aplus_id_nonzero _ _ _ _ Haid) as Hnz.
  unfold truthy. rewrite (bool_decide_eq_true_2 _ Hnz). cbn [andb].
  repeat case_bool_decide; cbn [andb]; split;
    try (intros [= <- <- <-]; done); try done;
    try (intros (_ & [= <-] & -> & _ & _ & [= <-] & ? & ?); done).
Qed.

(** The three shapes of the result of one level of the sweep. *)
Lemma sweep_level_cases game sp world aplus region c checks li :
  let r := sweep_level game sp world aplus region (c, checks) li in
  ∃ checks1,
    (checks1 = checks
     ∨ ∃ id, checks1 = checks ++ [id]
             ∧ get_completion_location_id world li region = Some id)
    ∧ (r = (c, checks1)
       ∨ ∃ id t p,
           aplus = true
           ∧ sweep_grade c game sp world li region = Some (id, t, p)
           ∧ r = (log (LogAplusSweep world li region t p)
                    (set_aplus_logged (aplus_logged c ∪ {[id]}) c),
                  checks1 ++ [id])).
Proof.
  unfold sweep_level, sweep_completion.
  destruct (bool_decide _ || negb _); [eauto 10|].
  assert (∃ checks1,
    (checks1 = checks
     ∨ ∃ id, checks1 = checks ++ [id]
             ∧ get_completion_location_id world li region = Some id)
    ∧ checks1 = match get_completion_location_id world li region with
                | Some id =>
                    if truthy id && bool_decide (id ∉ locations_checked c)
                    then checks ++ [id] else checks
                | None => checks
                end) as (checks1 & Hck & <-).
  { destruct (get_completion_location_id world li region) as [loc|];
      [destruct (truthy loc && _)|]; eauto 10. }
  exists checks1. split; [exact Hck|].
  destruct aplus; [|by left].
  destruct (sweep_grade c game sp world li region) as [[[id t] p]|] eqn:Hg;
    [|by left].
  right. by exists id, t, p.
Qed.










(** *** Marked levels

    The part of the synthetic time exclusion that holds by construction:
    while a light level is in [fake_aplus_times], neither [_check_aplus] nor
    [_aplus_sweep] logs or queues its A+. *)

Lemma check_aplus_skips_marked c game sp world li checks aplus :
  (world, li) ∈ fake_aplus_times c →
  let r := _check_aplus c game sp world li "light" checks aplus in
  r.2 = checks
  ∧ aplus_logged r.1 = aplus_logged c
  ∧ ∀ e, e ∈ logged r.1 → e ∈ logged c ∨ ¬ is_aplus_event world li "light" e.
Proof.
  intros Hm. unfold _check_aplus.
  rewrite (bool_decide_eq_true_2 _ Hm).
  rewrite (bool_decide_eq_true_2 ("light"%string = "light"%string)) by done.
  cbn [andb].
  repeat case_match; cbn; (split; [done|]); (split; [done|]); intros e He;
    try (by left);
    apply elem_of_app in He as [He|He%list_elem_of_singleton]; try (by left);
    right; subst e; cbn; tauto.
Qed.

Lemma marked_inv_step game sp world aplus region li c0 acc li' :
  (world, li) ∈ fake_aplus_times c0 →
  marked_inv world li c0 acc →
  marked_inv world li c0 (sweep_level game sp world aplus region acc li').
Proof.
  destruct acc as [c checks]. intros Hm (Hf & Hck & Hlog).
  cbn [fst snd] in *. pose proof Hf as (Hlc & Hfk & _).
  destruct (sweep_level_cases game sp world aplus region c checks li')
    as (checks1 & Hck1 & Hr).
  assert (∀ x, x ∈ checks1 → get_aplus_location_id world li "light" ≠ Some x)
    as Hck'.
  { destruct Hck1 as [->|(id & -> & Hid)]; [done|].
    intros x [Hx|Hx%list_elem_of_singleton]%elem_of_app; [auto|].
    subst x. intros Ha. eapply completion_id_not_aplus; eauto. }
  destruct Hr as [->|(id & t & p & _ & Hg & ->)]; [done|].
  apply sweep_grade_Some in Hg as (_ & _ & _ & Hnf & _ & Hid & _).
  rewrite Hfk in Hnf.
  assert (¬ (li' = li ∧ region = "light"%string)) as Hne.
  { intros [-> ->]. by apply Hnf. }
  split; [exact Hf|]. cbn. split.
  - intros x [Hx|Hx%list_elem_of_singleton]%elem_of_app; [auto|].
    subst x. intros Ha. apply Hne.
    destruct (aplus_id_inj _ _ _ _ _ _ Hid Ha). done.
  - intros e [He|He%list_elem_of_singleton]%elem_of_app; [auto|].
    right. subst e. cbn. tauto.
Qed.

Lemma marked_inv_fold game sp world aplus region li c0 l acc :
  (world, li) ∈ fake_aplus_times c0 →
  marked_inv world li c0 acc →
  marked_inv world li c0 (foldl (sweep_level game sp world aplus region) acc l).
Proof.
  intros Hm. revert acc. induction l as [|x l IH]; intros acc Hinv; [done|].
  cbn [foldl]. by apply IH, marked_inv_step.
Qed.

Lemma sweep_skips_marked c game sp world li aplus dark w7 :
  (world, li) ∈ fake_aplus_times c →
  let r := _aplus_sweep c game sp world aplus dark w7 in
  (∀ id, get_aplus_location_id world li "light" = Some id → id ∉ r.2)
  ∧ ∀ e, e ∈ logged r.1 → e ∈ logged c ∨ ¬ is_aplus_event world li "light" e.
Proof.
  intros Hm r.
  assert (marked_inv world li c r) as (_ & H1 & H2).
  { subst r. unfold _aplus_sweep. cbn [foldl].
    assert (marked_inv world li c (c, [])) as H0.
    { split; [done|]. cbn. split; [|auto].
      intros x Hx. by apply elem_of_nil in Hx. }
    repeat case_match; auto using marked_inv_fold. }
  split; [|exact H2]. intros id Hid Hin. by apply (H1 id Hin).
Qed.

End sweep_completeness.

Section level_tables.

Lemma world_1_7_cases (w : Z) :
  1 <= w <= 7 → w = 1 ∨ w = 2 ∨ w = 3 ∨ w = 4 ∨ w = 5 ∨ w = 6 ∨ w = 7.
Proof. lia. Qed.

Lemma NUM_LEVELS_lookup (w : Z) :
  NUM_LEVELS !! w
  = if decide (1 <= w <= 7) then Some (if decide (w = 6) then 5 else 20)
    else None.
Proof.
  case_decide as Hw.
  - apply world_1_7_cases in Hw.
    destruct Hw as [->|[->|[->|[->|[->|[->| ->]]]]]]; reflexivity.
  - destruct (NUM_LEVELS !! w) eqn:E; [exfalso|done].
    unfold NUM_LEVELS in E. simpl in E.
    repeat (apply lookup_insert_Some in E as [[<- _]|[_ E]]; [lia|]).
    by rewrite lookup_empty in E.
Qed.

Lemma slot_count_eq (w : Z) (r : string) :
  slot_count w r
  = if decide (r = "warp"%string) then 12 else if decide (w = 6) then 5 else 20.
Proof.
  unfold slot_count. rewrite NUM_LEVELS_lookup.
  repeat case_decide; try done; lia.
Qed.

Lemma has_slot_iff (w li : Z) (r : string) :
  has_slot w li r ↔
    (1 <= w <= 7 ∧ w ≠ 6 ∧ (r = "light"%string ∨ r = "dark"%string) ∧ 0 <= li < 20)
    ∨ (w = 6 ∧ (r = "light"%string ∨ r = "dark"%string) ∧ 0 <= li < 5)
    ∨ (1 <= w <= 5 ∧ r = "warp"%string ∧ 0 <= li < 12).
Proof.
  unfold has_slot, structurally_valid. rewrite WORLD_BASES_is_Some, slot_count_eq.
  split.
  - intros ((Hw & [->|[->|(-> & H6 & H7)]]) & Hli);
      repeat case_decide; try done; first [lia | naive_solver lia].
  - intros [(Hw & H6 & Hr & Hli)|[(-> & Hr & Hli)|(Hw & -> & Hli)]].
    + destruct Hr as [->| ->]; repeat case_decide; try done;
        (split; [split; [lia|auto]|lia]).
    + destruct Hr as [->| ->]; repeat case_decide; try done;
        (split; [split; [lia|auto]|lia]).
    + repeat case_decide; try done.
      split; [split; [lia|right; right; repeat split; [lia|lia]]|lia].
Qed.

Lemma type_map_Some r ti :
  type_map r = Some ti →
  (r = "light"%string ∧ ti = 0) ∨ (r = "dark"%string ∧ ti = 1)
  ∨ (r = "warp"%string ∧ ti = 2).
Proof. unfold type_map. repeat case_decide; naive_solver. Qed.

Lemma table3_Some {A} (T : list (list (list A))) w li r x :
  table3 T w li r = Some x ↔
  ∃ ti by_type row,
    type_map r = Some ti ∧ 1 <= w ∧ T !! Z.to_nat (w - 1) = Some by_type
    ∧ by_type !! Z.to_nat ti = Some row ∧ 0 <= li
    ∧ row !! Z.to_nat li = Some x.
Proof.
  unfold table3. split.
  - intros H. repeat case_match; try done. repeat case_decide; try done.
    eexists _, _, _. repeat split; eauto; lia.
  - intros (ti & by_type & row & Hti & Hw & Hbt & Hrow & Hli & Hx).
    rewrite Hti, Hbt, Hrow.
    apply lookup_lt_Some in Hbt as Hl1. apply lookup_lt_Some in Hrow as Hl2.
    apply lookup_lt_Some in Hx as Hl3.
    apply type_map_Some in Hti as Hti'.
    unfold len. rewrite !decide_False by lia. done.
Qed.

Lemma table3_is_Some {A} (T : list (list (list A))) w li r :
  is_Some (table3 T w li r) ↔
  ∃ ti srow n,
    type_map r = Some ti ∧ 1 <= w
    ∧ table_shape T !! Z.to_nat (w - 1) = Some srow
    ∧ srow !! Z.to_nat ti = Some n ∧ 0 <= li < n.
Proof.
  unfold is_Some. setoid_rewrite table3_Some. unfold table_shape. split.
  - intros (x & ti & by_type & row & Hti & Hw & Hbt & Hrow & Hli & Hx).
    exists ti, (len <$> by_type), (len row).
    rewrite list_lookup_fmap, Hbt, list_lookup_fmap, Hrow.
    apply lookup_lt_Some in Hx. unfold len. repeat split; auto; lia.
  - intros (ti & srow & n & Hti & Hw & Hs & Hn & Hli).
    rewrite list_lookup_fmap in Hs.
    destruct (T !! Z.to_nat (w - 1)) as [by_type|] eqn:Hbt; [|done].
    cbn in Hs. injection Hs as <-. rewrite list_lookup_fmap in Hn.
    destruct (by_type !! Z.to_nat ti) as [row|] eqn:Hrow; [|done].
    cbn in Hn. injection Hn as <-. unfold len in Hli.
    destruct (lookup_lt_is_Some_2 row (Z.to_nat li)) as [x Hx]; [lia|].
    exists x, ti, by_type, row. repeat split; auto; lia.
Qed.

Lemma shape_has_slot w li r :
  (∃ ti srow n,
    type_map r = Some ti ∧ 1 <= w
    ∧ level_shape !! Z.to_nat (w - 1) = Some srow
    ∧ srow !! Z.to_nat ti = Some n ∧ 0 <= li < n)
  ↔ has_slot w li r.
Proof.
  rewrite has_slot_iff. split.
  - intros (ti & srow & n & Hti & Hw & Hs & Hn & Hli).
    apply lookup_lt_Some in Hs as Hlt. cbn in Hlt.
    assert (1 <= w <= 7) as Hw7 by lia. apply world_1_7_cases in Hw7.
    apply type_map_Some in Hti.
    destruct Hw7 as [->|[->|[->|[->|[->|[->| ->]]]]]];
      vm_compute in Hs; injection Hs as <-;
      destruct Hti as [[-> ->]|[[-> ->]|[-> ->]]];
      vm_compute in Hn; try discriminate Hn; injection Hn as <-;
      first [ left; repeat split; auto; lia
            | right; left; repeat split; auto; lia
            | right; right; repeat split; auto; lia ].
  - intros [(Hw & H6 & Hr & Hli)|[(-> & Hr & Hli)|(Hw & -> & Hli)]].
    + assert (w = 1 ∨ w = 2 ∨ w = 3 ∨ w = 4 ∨ w = 5 ∨ w = 7) as Hc by lia.
      destruct Hr as [->| ->];
        destruct Hc as [->|[->|[->|[->|[->| ->]]]]];
        eexists _, _, _; (split; [reflexivity|]; split; [lia|]; split; [reflexivity|]; split; [reflexivity|lia]).
    + destruct Hr as [->| ->];
        eexists _, _, _; (split; [reflexivity|]; split; [lia|]; split; [reflexivity|]; split; [reflexivity|lia]).
    + assert (w = 1 ∨ w = 2 ∨ w = 3 ∨ w = 4 ∨ w = 5) as Hc by lia.
      destruct Hc as [->|[->|[->|[->| ->]]]];
        eexists _, _, _; (split; [reflexivity|]; split; [lia|]; split; [reflexivity|]; split; [reflexivity|lia]).
Qed.

Lemma PAR_TIMES_shape : table_shape PAR_TIMES = level_shape.
Proof. reflexivity. Qed.

Lemma LEVEL_NAMES_shape : table_shape LEVEL_NAMES = level_shape.
Proof. reflexivity. Qed.

Lemma get_par_time_has_slot w li r :
  has_slot w li r → is_Some (get_par_time w li r).
Proof.
  change (get_par_time w li r) with (table3 PAR_TIMES w li r).
  rewrite table3_is_Some, PAR_TIMES_shape. apply shape_has_slot.
Qed.

(** X1. [get_par_time] and [get_level_name] are defined on
    exactly the same coordinates, the levels that have a save slot: the
    light and dark levels of worlds 1 to 7 below [NUM_LEVELS], and the 12
    warp slots of worlds 1 to 5.  Everywhere else (world 0, index -1 or 20,
    a warp slot of world 6 or 7, an unknown region) both return [None]. *)
Theorem par_times_and_names_cover_slots (w li : Z) (r : string) :
  (is_Some (get_par_time w li r) ↔ has_slot w li r)
  ∧ (is_Some (get_level_name w li r) ↔ has_slot w li r).
Proof.
  change (get_par_time w li r) with (table3 PAR_TIMES w li r).
  change (get_level_name w li r) with (table3 LEVEL_NAMES w li r).
  rewrite !table3_is_Some, PAR_TIMES_shape, LEVEL_NAMES_shape.
  split; apply shape_has_slot.
Qed.

Lemma PAR_TIMES_positive :
  Forall (Forall (Forall (fun q => (0 < q)%Q))) PAR_TIMES.
Proof.
  unfold PAR_TIMES.
  repeat first [apply Forall_nil_2 | apply Forall_cons_2 | reflexivity].
Qed.

Lemma get_par_time_positive w li r par :
  get_par_time w li r = Some par → (0 < par)%Q.
Proof.
  change (get_par_time w li r) with (table3 PAR_TIMES w li r).
  rewrite table3_Some.
  intros (ti & by_type & row & _ & _ & Hbt & Hrow & _ & Hx).
  pose proof PAR_TIMES_positive as H.
  rewrite Forall_lookup in H. specialize (H _ _ Hbt).
  rewrite Forall_lookup in H. specialize (H _ _ Hrow).
  rewrite Forall_lookup in H. exact (H _ _ Hx).
Qed.

(** X2. On a level with a save slot the par time exists and
    is positive, and [is_a_plus] holds exactly for the times in the
    interval from 0 (excluded) to par (included): the par itself earns the
    grade, and no time at or below 0, such as the -1.0 of a failed read,
    does. *)
Theorem is_a_plus_boundary (t : Q) (w li : Z) (r : string) :
  has_slot w li r →
  ∃ par, get_par_time w li r = Some par ∧ (0 < par)%Q
    ∧ (is_a_plus t w li r = true ↔ (0 < t)%Q ∧ (t <= par)%Q)
    ∧ is_a_plus par w li r = true.
Proof.
  intros Hs. destruct (get_par_time_has_slot w li r Hs) as [par Hpar].
  pose proof (get_par_time_positive _ _ _ _ Hpar) as Hpos.
  exists par. split; [done|]. split; [done|].
  unfold is_a_plus, qle. rewrite Hpar.
  assert (∀ x, (if Qle_bool x 0 then false else Qle_bool x par) = true
               ↔ (0 < x)%Q ∧ (x <= par)%Q) as Hiff.
  { intros x. destruct (Qle_bool x 0) eqn:E.
    - apply Qle_bool_iff in E. split; [done|].
      intros [H1 _]. exfalso. by apply (Qlt_not_le _ _ H1).
    - rewrite Qle_bool_iff. split; [|tauto]. intros H. split; [|done].
      apply Qnot_le_lt. intros H'. apply Qle_bool_iff in H'. congruence. }
  split; [apply Hiff|]. apply Hiff. split; [done|apply Qle_refl].
Qed.

(** Witness of X2 at level 1-1. *)
Lemma is_a_plus_boundary_witness :
  ∃ par, get_par_time 1 0 "light" = Some par ∧ (0 < par)%Q
    ∧ (is_a_plus (-1.0)%Q 1 0 "light" = true ↔ (0 < -1.0)%Q ∧ (-1.0 <= par)%Q)
    ∧ is_a_plus par 1 0 "light" = true.
Proof.
  apply (is_a_plus_boundary (-1.0)%Q 1 0 "light").
  apply has_slot_iff. left. repeat split; auto; lia.
Defined.

End level_tables.

Section item_queue.

Lemma handle_received_items_fold (items : list (Z * Z)) (ib : inbox)
    (lines : list log_line) :
  let r := foldl (fun '(ib, lines) '(iid, player) =>
    let sender := default "Server"%string (players ib !! player) in
    let name := get_item_name ib iid in
    (mkInbox (items_received ib ++ [mkItem iid name sender])
       (items_processed ib) (players ib) (all_items ib) (all_locations ib),
     lines ++ [LineReceived name sender]))
    (ib, lines) items in
  item_id <$> items_received r.1 = (item_id <$> items_received ib) ++ items.*1
  ∧ items_processed r.1 = items_processed ib
  ∧ players r.1 = players ib ∧ all_items r.1 = all_items ib
  ∧ all_locations r.1 = all_locations ib.
Proof.
  revert ib lines. induction items as [|[iid player] items IH]; intros ib lines.
  - cbn. by rewrite app_nil_r.
  - cbn [foldl]. cbn zeta.
    destruct (IH (mkInbox
                    (items_received ib ++
                       [mkItem iid (get_item_name ib iid)
                          (default "Server"%string (players ib !! player))])
                    (items_processed ib) (players ib) (all_items ib)
                    (all_locations ib))
                 (lines ++ [LineReceived (get_item_name ib iid)
                              (default "Server"%string (players ib !! player))]))
      as (H1 & H2 & H3 & H4 & H5).
    cbn [items_received items_processed players all_items all_locations] in *.
    split; [|done].
    rewrite H1, fmap_app. cbn. by rewrite <- app_assoc.
Qed.

Lemma handle_received_items_spec (i : Z) (items : list (Z * Z)) (ib : inbox) :
  let r := (handle_received_items i items ib).1 in
  item_id <$> items_received r
  = (if decide (i = 0) then [] else item_id <$> items_received ib) ++ items.*1
  ∧ items_processed r = (if decide (i = 0) then 0 else items_processed ib).
Proof.
  intros r. subst r. unfold handle_received_items.
  match goal with |- context [foldl ?f (?b, []) items] =>
    pose proof (handle_received_items_fold items b []) as (H1 & H2 & _) end.
  cbn zeta in *. rewrite H1, H2. by case_decide.
Qed.

Lemma pending_eq (ib : inbox) :
  inbox_ok ib →
  pending ib = drop (Z.to_nat (items_processed ib)) (items_received ib).
Proof.
  intros [H0 _]. unfold pending, get_new_items, py_slice_from. cbn.
  by rewrite decide_False by lia.
Qed.

Lemma inbox_step_inv (ib : inbox) (delivered : list received_item)
    (e : inbox_event) :
  inbox_ok ib → incremental e →
  let r := inbox_step (ib, delivered) e in
  inbox_ok r.1
  ∧ item_id <$> (r.2 ++ pending r.1)
    = (item_id <$> (delivered ++ pending ib)) ++ packet_ids [e].
Proof.
  intros Hok Hinc. destruct e as [i items|]; cbn [inbox_step fst snd].
  - cbn in Hinc.
    destruct (handle_received_items_spec i items ib) as (H1 & H2).
    rewrite decide_False in H1 by done. rewrite decide_False in H2 by done.
    assert (inbox_ok (handle_received_items i items ib).1) as Hok'.
    { unfold inbox_ok in *. rewrite H2. unfold len in *.
      rewrite <- (length_fmap item_id), H1, length_app, length_fmap. lia. }
    split; [done|].
    rewrite !fmap_app, !pending_eq by done. rewrite H2.
    rewrite !fmap_drop, H1. unfold packet_ids. cbn. rewrite app_nil_r.
    rewrite drop_app_le; [by rewrite app_assoc|].
    rewrite length_fmap. unfold inbox_ok, len in Hok. lia.
  - unfold packet_ids. cbn [flat_map]. rewrite app_nil_r.
    assert (inbox_ok (get_new_items ib).2) as Hok'.
    { unfold inbox_ok, get_new_items, len. cbn. lia. }
    split; [done|].
    rewrite (pending_eq _ Hok'). rewrite (pending_eq _ Hok).
    unfold get_new_items, py_slice_from. cbn.
    unfold len. rewrite Nat2Z.id, drop_all, app_nil_r.
    destruct Hok as [H0 _]. by rewrite decide_False by lia.
Qed.

Lemma inbox_run_inv (evs : list inbox_event) (ib : inbox)
    (delivered : list received_item) :
  inbox_ok ib → Forall incremental evs →
  let r := foldl inbox_step (ib, delivered) evs in
  inbox_ok r.1
  ∧ item_id <$> (r.2 ++ pending r.1)
    = (item_id <$> (delivered ++ pending ib)) ++ packet_ids evs.
Proof.
  revert ib delivered. induction evs as [|e evs IH]; intros ib delivered Hok Hall.
  - cbn. by rewrite app_nil_r.
  - apply Forall_cons in Hall as [He Hall]. cbn [foldl].
    destruct (inbox_step_inv ib delivered e Hok He) as (Hok1 & H1).
    destruct (inbox_step (ib, delivered) e) as [ib1 d1]. cbn [fst snd] in *.
    destruct (IH ib1 d1 Hok1 Hall) as (Hok2 & H2).
    split; [done|]. rewrite H2, H1.
    unfold packet_ids. cbn [flat_map]. rewrite app_nil_r.
    by rewrite <- app_assoc.
Qed.

(** X3. Between resets, the queue hands every received item to
    the monitor exactly once and in order: whatever the interleaving of
    [ReceivedItems] frames with a non-zero index and of polls, the ids the
    polls have returned, followed by the ids the next poll would return,
    are the ids that were pending at the start followed by the ids of the
    frames. *)
Theorem queue_delivers_each_item_once (ib : inbox) (evs : list inbox_event) :
  inbox_ok ib → Forall incremental evs →
  inbox_ok (inbox_run ib evs).1
  ∧ item_id <$> ((inbox_run ib evs).2 ++ pending (inbox_run ib evs).1)
    = (item_id <$> pending ib) ++ packet_ids evs.
Proof.
  intros Hok Hall. exact (inbox_run_inv evs ib [] Hok Hall).
Qed.

(** Witness of X3: two frames around a poll, then a poll. *)
Lemma queue_delivers_each_item_once_witness :
  inbox_ok (inbox_run init_inbox
              [ItemsPacket 5 [(7700005, 1); (7700001, 2)]; PollItems;
               ItemsPacket 7 [(7700033, 1)]; PollItems]).1
  ∧ item_id <$>
      ((inbox_run init_inbox
          [ItemsPacket 5 [(7700005, 1); (7700001, 2)]; PollItems;
           ItemsPacket 7 [(7700033, 1)]; PollItems]).2
       ++ pending (inbox_run init_inbox
          [ItemsPacket 5 [(7700005, 1); (7700001, 2)]; PollItems;
           ItemsPacket 7 [(7700033, 1)]; PollItems]).1)
    = (item_id <$> pending init_inbox)
      ++ packet_ids [ItemsPacket 5 [(7700005, 1); (7700001, 2)]; PollItems;
                     ItemsPacket 7 [(7700033, 1)]; PollItems].
Proof.
  apply (queue_delivers_each_item_once init_inbox).
  - unfold inbox_ok, init_inbox, len.
    cbn [items_processed items_received length]. lia.
  - repeat (apply Forall_cons_2 || apply Forall_nil_2);
      cbn [incremental]; (lia || exact I).
Defined.

(** X4. A [ReceivedItems] frame with index 0 (or without an
    index) empties the queue and rewinds the processed counter before its
    items are appended: whatever was received or polled before, the next
    poll returns exactly the items of this frame, so items the server
    sends again are handed to the monitor again. *)
Theorem queue_restarts_at_index_zero (items : list (Z * Z)) (ib : inbox) :
  item_id <$> pending (handle_received_items 0 items ib).1 = items.*1
  ∧ items_processed (handle_received_items 0 items ib).1 = 0.
Proof.
  destruct (handle_received_items_spec 0 items ib) as (H1 & H2).
  rewrite decide_True in H1 by done. rewrite decide_True in H2 by done.
  cbn [app] in H1.
  split; [|done].
  rewrite pending_eq.
  - rewrite H2. cbn. done.
  - unfold inbox_ok. rewrite H2. unfold len. lia.
Qed.

End item_queue.

Section location_ids.

Lemma BANDAGE_DATA_ids :
  b_ap_id <$> BANDAGE_DATA = (fun n => BASE_ID + 201 + n) <$> seqZ 0 100.
Proof. reflexivity. Qed.

Lemma BANDAGE_DATA_lookup n b :
  BANDAGE_DATA !! n = Some b →
  (n < 100)%nat ∧ b_ap_id b = BASE_ID + 201 + Z.of_nat n.
Proof.
  intros H.
  assert ((b_ap_id <$> BANDAGE_DATA) !! n = Some (b_ap_id b)) as H'.
  { by rewrite list_lookup_fmap, H. }
  rewrite BANDAGE_DATA_ids, list_lookup_fmap in H'.
  destruct (seqZ 0 100 !! n) as [k|] eqn:E; [|done].
  apply lookup_seqZ in E as [-> Hn]. cbn in H'. injection H' as <-.
  split; [lia|done].
Qed.

Lemma small_table_lookup {V} (l : list (Z * V)) (k : Z) (v : V) :
  (list_to_map l : gmap Z V) !! k = Some v → (k, v) ∈ l.
Proof. apply elem_of_list_to_map_2. Qed.

Lemma location_id_offset (l : location) (i : Z) :
  location_id l = Some i → location_offset l (i - BASE_ID).
Proof.
  destruct l as [w li r|w li r|w| |n|w|w z|w dark|count|t|w| |];
    cbn [location_id location_offset].
  - unfold get_completion_location_id, level_location_id, w6_level_location_id,
      w7_light_location_id, dark_level_location_id, w6_dark_level_location_id,
      w7_dark_location_id.
    repeat case_decide; intros Hid; simplify_eq; destruct_and?; subst;
      first [ left; repeat split; auto; lia
            | right; left; repeat split; auto; lia
            | right; right; left; repeat split; auto; lia
            | right; right; right; left; repeat split; auto; lia
            | right; right; right; right; left; repeat split; auto; lia
            | right; right; right; right; right; repeat split; auto; lia ].
  - unfold get_aplus_location_id, aplus_light_location_id,
      aplus_w6_light_location_id, aplus_w7_light_location_id,
      aplus_dark_location_id, aplus_w6_dark_location_id,
      aplus_w7_dark_location_id, aplus_warp_location_id.
    repeat case_decide; intros Hid; simplify_eq; destruct_and?; subst;
      first [ left; repeat split; auto; lia
            | right; left; repeat split; auto; lia
            | right; right; left; repeat split; auto; lia
            | right; right; right; left; repeat split; auto; lia
            | right; right; right; right; left; repeat split; auto; lia
            | right; right; right; right; right; left; repeat split; auto; lia
            | right; right; right; right; right; right; repeat split; auto; lia ].
  - case_decide; intros Hid; simplify_eq. unfold boss_location_id. lia.
  - intros Hid. simplify_eq. unfold dark_boss_location_id. lia.
  - case_decide; [|done]. intros Hid.
    destruct (BANDAGE_DATA !! Z.to_nat n) as [b|] eqn:E; [|done].
    cbn in Hid. injection Hid as <-.
    apply BANDAGE_DATA_lookup in E as [Hn ->]. lia.
  - destruct (CHARACTER_WARPS !! w) as [p|] eqn:E; [|done].
    intros Hid. simplify_eq. unfold character_unlock_location_id.
    apply small_table_lookup in E.
    repeat (apply elem_of_cons in E as [E|E]; [simplify_eq; lia|]).
    by apply elem_of_nil in E.
  - case_decide; intros Hid; simplify_eq. unfold warp_completion_location_id. lia.
  - case_decide as Hw; intros Hid; simplify_eq.
    unfold clear_location_id, world_clear_location_id,
      world_dark_clear_location_id, w6_clear_location_id,
      w6_dark_clear_location_id, w7_clear_location_id, w7_dark_clear_location_id.
    destruct dark; repeat case_decide; first [lia | naive_solver lia].
  - case_decide as Hc; intros Hid; simplify_eq.
    unfold bandage_milestone_location_id, BANDAGE_MILESTONES in *.
    exists (count `div` 10).
    repeat (apply elem_of_cons in Hc as [->|Hc]; [by vm_compute|]).
    by apply elem_of_nil in Hc.
  - intros Hid. apply small_table_lookup in Hid. unfold WARP_MILESTONE_LOCS in Hid.
    repeat (apply elem_of_cons in Hid as [Hid|Hid]; [simplify_eq; lia|]).
    by apply elem_of_nil in Hid.
  - intros Hid. apply small_table_lookup in Hid.
    repeat (apply elem_of_cons in Hid as [Hid|Hid]; [simplify_eq; lia|]).
    by apply elem_of_nil in Hid.
  - intros Hid. simplify_eq. unfold golden_god_location_id. lia.
  - intros Hid. simplify_eq. unfold girl_boy_location_id. lia.
Qed.

(** X5. No two locations share an id: level completions, A+
    grades, bosses of worlds 1 to 6 and the dark boss, the bandages of
    [BANDAGE_DATA], character unlocks, warp zone completions, world clears
    and the achievements (bandage and warp milestones, per-world A+, Golden
    God, Girl Boy) all get different ids, and within a kind different
    coordinates get different ids. *)
Theorem location_ids_distinct (a b : location) (i : Z) :
  location_id a = Some i → location_id b = Some i → a = b.
Proof.
  intros Ha Hb. apply location_id_offset in Ha, Hb.
  destruct a as [w li r|w li r|w| |n|w|w z|w [|]|count|t|w| |],
           b as [w' li' r'|w' li' r'|w'| |n'|w'|w' z'|w' [|]|count'|t'|w'| |];
    cbn [location_offset] in Ha, Hb;
    repeat match goal with
           | H : _ ∨ _ |- _ => destruct H as [H|H]
           | H : _ ∧ _ |- _ => destruct H as [? H]
           | H : ∃ _, _ |- _ => destruct H as [? H]
           end;
    subst; try (exfalso; lia); try reflexivity; f_equal; lia.
Qed.

(** Witness of X5 at the boss of world 5. *)
Lemma location_ids_distinct_witness : BossDefeat 5 = BossDefeat 5.
Proof.
  apply (location_ids_distinct (BossDefeat 5) (BossDefeat 5) (BASE_ID + 105));
    reflexivity.
Defined.

Lemma bandage_all_found : forallb bandage_found BANDAGE_DATA = true.
Proof. vm_compute. reflexivity. Qed.

Lemma bandage_entries_ok :
  forallb bandage_entry_ok (map_to_list BANDAGE_BY_ADDR) = true.
Proof. vm_compute. reflexivity. Qed.

Lemma bandage_entry (ca : Z) (b : bandage) :
  BANDAGE_BY_ADDR !! ca = Some b → bandage_entry_ok (ca, b) = true.
Proof.
  intros H. apply elem_of_map_to_list in H.
  pose proof bandage_entries_ok as Hall.
  rewrite forallb_forall in Hall. apply Hall. by apply list_elem_of_In.
Qed.

(** X6. The address table holds exactly the bandages of
    the data list, each under the address the client's resolver computes
    for its level, so no two bandages collide on an address; every bandage
    sits in worlds 1 to 5 on a level of its native table, and its id is
    [BASE_ID + 201] plus its position in the list. *)
Theorem bandage_table_round_trip (b : bandage) :
  (b ∈ BANDAGE_DATA ↔
     ∃ ca, comp_addr (b_world b) (b_index b) (b_region b) = Some ca
           ∧ BANDAGE_BY_ADDR !! ca = Some b)
  ∧ (b ∈ BANDAGE_DATA →
     1 <= b_world b <= 5
     ∧ (b_index b + 1) ∈ native_bandage_levels (b_world b) (b_region b)
     ∧ ∃ n, 0 <= n < 100 ∧ BANDAGE_DATA !! Z.to_nat n = Some b
            ∧ b_ap_id b = BASE_ID + 201 + n).
Proof.
  assert (b ∈ BANDAGE_DATA →
          ∃ ca, comp_addr (b_world b) (b_index b) (b_region b) = Some ca
                ∧ BANDAGE_BY_ADDR !! ca = Some b) as Hfound.
  { intros Hin. pose proof bandage_all_found as Hall.
    rewrite forallb_forall in Hall.
    specialize (Hall b (proj1 (list_elem_of_In _ _) Hin)).
    unfold bandage_found in Hall.
    destruct (comp_addr (b_world b) (b_index b) (b_region b)) as [ca|]; [|done].
    exists ca. split; [done|]. by apply bool_decide_eq_true in Hall. }
  split; [split; [exact Hfound|]|].
  - intros (ca & _ & Hb). apply bandage_entry in Hb.
    unfold bandage_entry_ok in Hb. cbn [fst snd] in Hb.
    repeat (apply andb_prop in Hb as [Hb ?]).
    by apply bool_decide_eq_true in Hb.
  - intros Hin. destruct (Hfound Hin) as (ca & _ & Hb).
    apply bandage_entry in Hb.
    unfold bandage_entry_ok in Hb. cbn [fst snd] in Hb.
    repeat (apply andb_prop in Hb as [Hb ?]).
    repeat match goal with
           | H : bool_decide _ = true |- _ => apply bool_decide_eq_true in H
           end.
    split; [done|]. split; [done|].
    apply list_elem_of_lookup in Hin as [n Hn].
    destruct (BANDAGE_DATA_lookup _ _ Hn) as [Hlt Hid].
    exists (Z.of_nat n). rewrite Nat2Z.id. repeat split; auto; lia.
Qed.

End location_ids.

Section location_names.

Lemma aplus_names_ok : forallb aplus_name_ok light_dark_levels = true.
Proof. vm_compute. reflexivity. Qed.

Lemma known_names_known :
  forallb (fun id => negb (bool_decide (get_location_name id = unknown_name id)))
    known_ids = true.
Proof. vm_compute. reflexivity. Qed.

Lemma known_names_NoDup : NoDup (get_location_name <$> known_ids).
Proof. apply (bool_decide_unpack _). vm_compute. reflexivity. Qed.

Lemma light_dark_levels_elem (w li : Z) (r : string) :
  1 <= w <= 7 → 0 <= li < 20 → r = "light"%string ∨ r = "dark"%string →
  (w, li, r) ∈ light_dark_levels.
Proof.
  intros Hw Hli Hr. unfold light_dark_levels.
  apply list_elem_of_bind. exists w. split; [|apply elem_of_seqZ; lia].
  apply list_elem_of_bind. exists li. split; [|apply elem_of_seqZ; lia].
  apply list_elem_of_bind. exists r. split; [apply list_elem_of_singleton; done|].
  destruct Hr as [->| ->]; [left|right; left].
Qed.

Lemma known_ids_elem (id : Z) :
  known_offset (id - BASE_ID) → id ∈ known_ids.
Proof.
  intros Hk. unfold known_ids. apply list_elem_of_fmap.
  exists (id - BASE_ID). split; [lia|].
  apply list_elem_of_filter. split; [done|].
  apply elem_of_seqZ. unfold known_offset in Hk. lia.
Qed.

Lemma NoDup_fmap_eq {A B} (f : A → B) (l : list A) (x y : A) :
  NoDup (f <$> l) → x ∈ l → y ∈ l → f x = f y → x = y.
Proof.
  induction l as [|a l IH]; [by intros _ ?%elem_of_nil|].
  rewrite fmap_cons, NoDup_cons.
  intros [Ha Hnd] [->|Hx]%elem_of_cons [->|Hy]%elem_of_cons Heq; auto.
  - exfalso. apply Ha. rewrite Heq. by apply list_elem_of_fmap_2.
  - exfalso. apply Ha. rewrite <- Heq. by apply list_elem_of_fmap_2.
Qed.

(** X7. For every light or dark level, the name
    [get_location_name] gives to the id of its A+ location is the name of
    its completion location behind the prefix ["A+ "]: both ids decode to
    the same world, level and level name. *)
Theorem aplus_name_extends_completion_name
    (w li : Z) (r : string) (cid aid : Z) :
  get_completion_location_id w li r = Some cid →
  get_aplus_location_id w li r = Some aid →
  get_location_name aid = ("A+ " +:+ get_location_name cid)%string.
Proof.
  intros Hc Ha.
  assert ((w, li, r) ∈ light_dark_levels) as Hin.
  { pose proof (location_id_offset (LevelClear w li r) cid Hc) as Ho.
    cbn [location_offset] in Ho.
    apply light_dark_levels_elem; naive_solver lia. }
  pose proof aplus_names_ok as Hall. rewrite forallb_forall in Hall.
  specialize (Hall _ (proj1 (list_elem_of_In _ _) Hin)).
  unfold aplus_name_ok in Hall. rewrite Hc, Ha in Hall.
  by apply bool_decide_eq_true in Hall.
Qed.

(** Witness of X7 at level 3-7. *)
Lemma aplus_name_extends_completion_name_witness :
  get_location_name (BASE_ID + 547)
  = ("A+ " +:+ get_location_name (BASE_ID + 47))%string.
Proof.
  apply (aplus_name_extends_completion_name 3 6 "light"); reflexivity.
Defined.

(** X8. [get_location_name] falls back to "Unknown Location
    <id>" exactly for the ids outside the blocks +1..+107, +201..+410,
    +501..+855, +861..+880, +901..+914 and +921..+932.  The ids of the warp
    milestones (+933..+936) and of the per-world A+ achievements
    (+937..+941), which the client reports, are among those without a
    name. *)
Theorem location_name_unknown_iff (loc_id : Z) :
  get_location_name loc_id = unknown_name loc_id
  ↔ ¬ known_offset (loc_id - BASE_ID).
Proof.
  split.
  - intros Hn Hk. apply known_ids_elem in Hk.
    pose proof known_names_known as Hall. rewrite forallb_forall in Hall.
    specialize (Hall _ (proj1 (list_elem_of_In _ _) Hk)).
    apply negb_true_iff, bool_decide_eq_false in Hall. done.
  - intros Hk. unfold known_offset in Hk. unfold get_location_name.
    cbn zeta. repeat (case_decide; [exfalso; lia|]). reflexivity.
Qed.

(** X9. On the ids it knows, [get_location_name] is
    injective: two different known locations never get the same display
    name. *)
Theorem location_names_distinct (a b : Z) :
  known_offset (a - BASE_ID) → known_offset (b - BASE_ID) →
  get_location_name a = get_location_name b → a = b.
Proof.
  intros Ha Hb. apply NoDup_fmap_eq with (l := known_ids).
  - exact known_names_NoDup.
  - by apply known_ids_elem.
  - by apply known_ids_elem.
Qed.

(** Witness of X9 at the two bosses of world 6. *)
Lemma location_names_distinct_witness : BASE_ID + 107 = BASE_ID + 107.
Proof.
  apply (location_names_distinct (BASE_ID + 107) (BASE_ID + 107));
    [unfold known_offset; lia|unfold known_offset; lia|reflexivity].
Defined.

End location_names.

Section save_layout.

Lemma WORLD_BASES_lookup (w : Z) :
  1 <= w <= 7 → WORLD_BASES !! w = Some (world_base w).
Proof.
  intros Hw. apply WORLD_BASES_is_Some in Hw as [b Hb].
  unfold world_base. by rewrite (lookup_total_correct _ _ _ Hb).
Qed.

Lemma slot_addr_formula (w i : Z) (r : string) :
  has_slot w i r →
  slot_addr w i r = Some (world_base w + region_offset w r + i * 12).
Proof.
  intros [[Hw Hr] _]. apply WORLD_BASES_is_Some in Hw.
  unfold slot_addr, _orig_slot_addr, smb_game_data.slot_addr, region_offset.
  rewrite (WORLD_BASES_lookup w Hw).
  unfold LIGHT_OFFSET, DARK_OFFSET, WARP_OFFSET, W6_DARK_OFFSET, SLOT_SIZE.
  destruct Hr as [->|[->|(-> & H6 & H7)]]; repeat case_decide;
    destruct_and?; simplify_eq; try done; try (exfalso; naive_solver).
  all: unfold world_base; f_equal.
Qed.

Lemma slot_addr_cases (w i : Z) (r : string) (a : Z) :
  has_slot w i r → slot_addr w i r = Some a →
  (r = "light"%string ∧ 1 <= w <= 6 ∧ a = 96 + 624 * (w - 1) + 12 * i
     ∧ 0 <= i < 20 ∧ (w = 6 → i < 5))
  ∨ (r = "light"%string ∧ w = 7 ∧ a = 3336 + 12 * i ∧ 0 <= i < 20)
  ∨ (r = "dark"%string ∧ 1 <= w <= 5 ∧ a = 96 + 624 * (w - 1) + 240 + 12 * i
     ∧ 0 <= i < 20)
  ∨ (r = "dark"%string ∧ w = 6 ∧ a = 3276 + 12 * i ∧ 0 <= i < 5)
  ∨ (r = "dark"%string ∧ w = 7 ∧ a = 3576 + 12 * i ∧ 0 <= i < 20)
  ∨ (r = "warp"%string ∧ 1 <= w <= 5 ∧ a = 96 + 624 * (w - 1) + 480 + 12 * i
     ∧ 0 <= i < 12).
Proof.
  intros Hs Ha. rewrite (slot_addr_formula _ _ _ Hs) in Ha. injection Ha as <-.
  apply has_slot_iff in Hs.
  destruct Hs as [(Hw & H6 & Hr & Hi)|[(-> & Hr & Hi)|(Hw & -> & Hi)]].
  - assert (w = 1 ∨ w = 2 ∨ w = 3 ∨ w = 4 ∨ w = 5 ∨ w = 7) as Hc by lia.
    destruct Hr as [->| ->];
      destruct Hc as [->|[->|[->|[->|[->| ->]]]]];
      change (world_base ?x + region_offset ?x ?y) with
        (ltac:(let v := eval vm_compute in (world_base x + region_offset x y) in exact v));
      first [ left; repeat split; auto; lia
            | right; left; repeat split; auto; lia
            | right; right; left; repeat split; auto; lia
            | right; right; right; right; left; repeat split; auto; lia ].
  - destruct Hr as [->| ->];
      change (world_base ?x + region_offset ?x ?y) with
        (ltac:(let v := eval vm_compute in (world_base x + region_offset x y) in exact v));
      first [ left; repeat split; auto; lia
            | right; right; right; left; repeat split; auto; lia ].
  - assert (w = 1 ∨ w = 2 ∨ w = 3 ∨ w = 4 ∨ w = 5) as Hc by lia.
    destruct Hc as [->|[->|[->|[->| ->]]]];
      change (world_base ?x + region_offset ?x ?y) with
        (ltac:(let v := eval vm_compute in (world_base x + region_offset x y) in exact v));
      repeat right; repeat split; auto; lia.
Qed.

Lemma slot_fields (w i : Z) (r : string) (a : Z) :
  has_slot w i r → slot_addr w i r = Some a →
  comp_addr w i r = Some (a + COMP_BYTE) ∧ time_addr w i r = Some (a + TIME_BYTE)
  ∧ 96 <= a <= 3804.
Proof.
  intros Hs Ha. split; [|split].
  - revert Ha. unfold slot_addr, comp_addr, _orig_slot_addr, _orig_comp_addr,
      smb_game_data.comp_addr.
    repeat case_decide; try done.
    + intros [= <-]. done.
    + intros ->. done.
  - revert Ha. unfold slot_addr, time_addr, _orig_slot_addr, _orig_time_addr,
      smb_game_data.time_addr.
    repeat case_decide; try done.
    + intros [= <-]. done.
    + intros ->. done.
  - destruct (slot_addr_cases _ _ _ _ Hs Ha)
      as [H|[H|[H|[H|[H|H]]]]]; lia.
Qed.

Lemma slot_addrs_apart (w i : Z) (r : string) (w' i' : Z) (r' : string)
    (a a' : Z) :
  has_slot w i r → has_slot w' i' r' →
  slot_addr w i r = Some a → slot_addr w' i' r' = Some a' →
  (w, i, r) ≠ (w', i', r') →
  a + 12 <= a' ∨ a' + 12 <= a.
Proof.
  intros Hs Hs' Ha Ha' Hne.
  pose proof (slot_addr_cases _ _ _ _ Hs Ha) as H1.
  pose proof (slot_addr_cases _ _ _ _ Hs' Ha') as H2.
  assert (w ≠ w' ∨ r ≠ r' ∨ i ≠ i') as Hd.
  { destruct (decide (w = w')) as [->|]; [|auto].
    destruct (decide (r = r')) as [->|]; [|auto].
    destruct (decide (i = i')) as [->|]; [|auto]. done. }
  clear Hne Hs Hs' Ha Ha'.
  destruct H1 as [H1|[H1|[H1|[H1|[H1|H1]]]]];
    destruct H2 as [H2|[H2|[H2|[H2|[H2|H2]]]]];
    destruct H1 as (-> & H1); destruct H2 as (-> & H2);
    (destruct Hd as [Hd|[Hd|Hd]]; [|try done|]); lia.
Qed.

Lemma comp_addr_inj (w i : Z) (r : string) (w' i' : Z) (r' : string) :
  has_slot w i r → has_slot w' i' r' → (w, i, r) ≠ (w', i', r') →
  comp_addr w i r ≠ comp_addr w' i' r'
  ∧ time_addr w i r ≠ time_addr w' i' r'.
Proof.
  intros Hs Hs' Hne.
  destruct (slot_addr w i r) as [a|] eqn:Ha;
    [|by rewrite (slot_addr_formula _ _ _ Hs) in Ha].
  destruct (slot_addr w' i' r') as [a'|] eqn:Ha';
    [|by rewrite (slot_addr_formula _ _ _ Hs') in Ha'].
  pose proof (slot_addrs_apart _ _ _ _ _ _ _ _ Hs Hs' Ha Ha' Hne) as Hd.
  destruct (slot_fields _ _ _ _ Hs Ha) as (Hc & Ht & _).
  destruct (slot_fields _ _ _ _ Hs' Ha') as (Hc' & Ht' & _).
  rewrite Hc, Ht, Hc', Ht'.
  split; intros [= Heq]; lia.
Qed.

(** X10. The save slots of the client's address resolvers do
    not overlap: two different levels that have a slot (with the packed
    layout of world 6 and the corrected base of world 7) get slot addresses
    at least [SLOT_SIZE] = 12 bytes apart, the completion byte and the time
    field of a slot lie inside it at offsets 4 and 0, and no slot starts
    below 0x60. *)
Theorem save_slots_disjoint (w i : Z) (r : string) (w' i' : Z) (r' : string)
    (a a' : Z) :
  has_slot w i r → has_slot w' i' r' →
  slot_addr w i r = Some a → slot_addr w' i' r' = Some a' →
  (w, i, r) ≠ (w', i', r') →
  comp_addr w i r = Some (a + COMP_BYTE)
  ∧ time_addr w i r = Some (a + TIME_BYTE)
  ∧ 96 <= a
  ∧ (a + SLOT_SIZE <= a' ∨ a' + SLOT_SIZE <= a).
Proof.
  intros Hs Hs' Ha Ha' Hne.
  destruct (slot_fields _ _ _ _ Hs Ha) as (Hc & Ht & Hlo & _).
  split; [exact Hc|]. split; [exact Ht|]. split; [exact Hlo|].
  unfold SLOT_SIZE.
  exact (slot_addrs_apart _ _ _ _ _ _ _ _ Hs Hs' Ha Ha' Hne).
Qed.

(** Witness of X10: the last dark slot of world 6 ends where
    the first light slot of world 7 starts. *)
Lemma save_slots_disjoint_witness :
  comp_addr 6 4 "dark" = Some (3324 + COMP_BYTE)
  ∧ time_addr 6 4 "dark" = Some (3324 + TIME_BYTE)
  ∧ 96 <= 3324
  ∧ (3324 + SLOT_SIZE <= 3336 ∨ 3336 + SLOT_SIZE <= 3324).
Proof.
  apply (save_slots_disjoint 6 4 "dark" 7 0 "light" 3324 3336);
    [apply has_slot_iff; right; left; repeat split; auto; lia
    |apply has_slot_iff; left; repeat split; auto; lia
    |reflexivity|reflexivity|congruence].
Defined.

End save_layout.

Section memory_round_trips.

Lemma read_time_Some g sp world index region ta m :
  time_addr world index region = Some ta → sp ≠ 0 → pm g = Some m →
  read_time g sp world index region = default (-1.0)%Q (floats m !! (sp + ta)).
Proof.
  intros Hta Hsp Hm. unfold read_time. rewrite Hta.
  case_decide; [done|]. by rewrite Hm.
Qed.

Lemma write_time_frame g sp world index region value ta m :
  time_addr world index region = Some ta → sp ≠ 0 →
  pm g = Some m → is_Some (floats m !! (sp + ta)) →
  ∃ m', pm (write_time g sp world index region value) = Some m'
        ∧ floats m' = <[sp + ta := value]> (floats m)
        ∧ bytes m' = bytes m
        ∧ base (write_time g sp world index region value) = base g
        ∧ game_connected (write_time g sp world index region value)
          = game_connected g.
Proof.
  intros Hta Hsp Hm [old Hold]. unfold write_time. rewrite Hta.
  case_decide; [done|]. rewrite Hm. cbn. unfold write_float. rewrite Hold.
  cbn. eauto 10.
Qed.

Lemma write_time_pm g sp world index region value :
  pm (write_time g sp world index region value) = pm g
  ∨ ∃ ta m, time_addr world index region = Some ta ∧ sp ≠ 0 ∧ pm g = Some m
      ∧ is_Some (floats m !! (sp + ta))
      ∧ pm (write_time g sp world index region value)
        = Some (mkPymem (bytes m) (<[sp + ta := value]> (floats m))).
Proof.
  unfold write_time. destruct (time_addr world index region) as [ta|]; [|by left].
  case_decide; [by left|]. destruct (pm g) as [m|] eqn:Hm; cbn; [|by left].
  unfold write_float. destruct (floats m !! (sp + ta)) eqn:E; cbn; [|by left].
  right. exists ta, m. rewrite E. eauto 10.
Qed.

Lemma read_time_pm g g' sp w i r :
  pm g' = pm g → read_time g' sp w i r = read_time g sp w i r.
Proof. intros H. unfold read_time. by rewrite H. Qed.


Lemma read_time_write_time_ne g sp w i r v w' i' r' :
  time_addr w' i' r' ≠ time_addr w i r →
  read_time (write_time g sp w i r v) sp w' i' r' = read_time g sp w' i' r'.
Proof.
  intros Hne. destruct (write_time_pm g sp w i r v)
    as [Hpm|(ta & m & Hta & Hsp & Hm & _ & Hpm)].
  - by apply read_time_pm.
  - unfold read_time. destruct (time_addr w' i' r') as [ta'|]; [|done].
    case_decide; [done|]. rewrite Hpm, Hm. cbn. unfold read_float. cbn.
    rewrite lookup_insert_ne; [done|]. intros Heq. apply Hne. rewrite Hta.
    f_equal. lia.
Qed.






Lemma read_time_write_time_eq g sp w i r v :
  time_readable g sp w i r →
  read_time (write_time g sp w i r v) sp w i r = v.
Proof.
  intros (Hsp & ta & Hta & Hp). unfold peek_float in Hp.
  destruct (pm g) as [m|] eqn:Hm; [|by destruct Hp]. cbn in Hp.
  destruct (write_time_frame g sp w i r v ta m Hta Hsp Hm Hp) as (m' & Hm' & Hf' & _).
  rewrite (read_time_Some _ _ _ _ _ ta m' Hta Hsp Hm'), Hf', lookup_insert_eq.
  done.
Qed.



Lemma uint_recombine (v : Z) :
  v `mod` 256 + 256 * ((v `div` 256) `mod` 256)
  + 65536 * ((v `div` 65536) `mod` 256)
  + 16777216 * ((v `div` 16777216) `mod` 256)
  = v `mod` 2 ^ 32.
Proof.
  change (2 ^ 32) with (256 * (256 * (256 * 256))).
  rewrite (Z.rem_mul_r v 256 (256 * (256 * 256))) by lia.
  rewrite (Z.rem_mul_r (v `div` 256) 256 (256 * 256)) by lia.
  rewrite (Z.rem_mul_r (v `div` 256 `div` 256) 256 256) by lia.
  rewrite !Z.div_div by lia.
  change (256 * 256) with 65536. change (65536 * 256) with 16777216.
  lia.
Qed.

Lemma write_uchar_Some m a v :
  is_Some (bytes m !! a) →
  write_uchar m a v = Some (mkPymem (<[a := v `mod` 256]> (bytes m)) (floats m)).
Proof. intros [x Hx]. unfold write_uchar. by rewrite Hx. Qed.

Lemma set_char_bitmask_pm (g : GameInterface) (sp mask : Z) (m : Pymem) :
  pm g = Some m →
  (∀ k, 0 <= k < 4 → is_Some (bytes m !! (sp + CHARACTER_BITMASK_OFFSET + k))) →
  pm (set_char_bitmask g sp mask)
  = Some (mkPymem
      (<[sp + CHARACTER_BITMASK_OFFSET + 3 := (mask `div` 16777216) `mod` 256]>
       (<[sp + CHARACTER_BITMASK_OFFSET + 2 := (mask `div` 65536) `mod` 256]>
        (<[sp + CHARACTER_BITMASK_OFFSET + 1 := (mask `div` 256) `mod` 256]>
         (<[sp + CHARACTER_BITMASK_OFFSET := mask `mod` 256]> (bytes m)))))
      (floats m)).
Proof.
  intros Hm Hb. unfold set_char_bitmask, try_except.
  rewrite Hm. cbn [mbind option_bind].
  pose proof (Hb 0 ltac:(lia)) as H0. pose proof (Hb 1 ltac:(lia)) as H1.
  pose proof (Hb 2 ltac:(lia)) as H2. pose proof (Hb 3 ltac:(lia)) as H3.
  rewrite Z.add_0_r in H0.
  unfold write_uint.
  rewrite (write_uchar_Some m _ _ H0). cbn [mbind option_bind].
  rewrite write_uchar_Some
    by (cbn [bytes]; rewrite lookup_insert_ne by lia; done).
  cbn [mbind option_bind bytes floats].
  rewrite write_uchar_Some
    by (cbn [bytes]; rewrite !lookup_insert_ne by lia; done).
  cbn [mbind option_bind bytes floats].
  rewrite write_uchar_Some
    by (cbn [bytes]; rewrite !lookup_insert_ne by lia; done).
  cbn [mbind option_bind bytes floats from_option id set_pm pm]. done.
Qed.

Lemma char_bitmask_write_read (g : GameInterface) (sp mask : Z) (m : Pymem) :
  pm g = Some m →
  (∀ k, 0 <= k < 4 → is_Some (bytes m !! (sp + CHARACTER_BITMASK_OFFSET + k))) →
  get_char_bitmask (set_char_bitmask g sp mask) sp = mask `mod` 2 ^ 32.
Proof.
  intros Hm Hb. unfold get_char_bitmask, try_except.
  rewrite (set_char_bitmask_pm g sp mask m Hm Hb). cbn [mbind option_bind].
  unfold read_uint. cbn [bytes].
  rewrite (lookup_insert_ne _ (_ + 3) (sp + CHARACTER_BITMASK_OFFSET)) by lia.
  rewrite (lookup_insert_ne _ (_ + 2) (sp + CHARACTER_BITMASK_OFFSET)) by lia.
  rewrite (lookup_insert_ne _ (_ + 1) (sp + CHARACTER_BITMASK_OFFSET)) by lia.
  rewrite lookup_insert_eq. cbn [mbind option_bind].
  rewrite (lookup_insert_ne _ (_ + 3) (_ + 1)) by lia.
  rewrite (lookup_insert_ne _ (_ + 2) (_ + 1)) by lia.
  rewrite lookup_insert_eq. cbn [mbind option_bind].
  rewrite (lookup_insert_ne _ (_ + 3) (_ + 2)) by lia.
  rewrite lookup_insert_eq. cbn [mbind option_bind].
  rewrite lookup_insert_eq. cbn [mbind option_bind from_option id].
  rewrite <- uint_recombine. lia.
Qed.

End memory_round_trips.

Section unlock_masks.

Lemma pow2_add_bits (n R k : Z) :
  0 <= n → 0 <= k → Z.testbit R n = false →
  Z.testbit (2 ^ n + R) k = if decide (k = n) then true else Z.testbit R k.
Proof.
  intros Hn Hk HR.
  assert (Z.land (2 ^ n) R = 0) as Hland.
  { apply Z.bits_inj'. intros j Hj. rewrite Z.land_spec, Z.bits_0.
    destruct (decide (j = n)) as [->|Hne].
    - by rewrite HR, andb_false_r.
    - by rewrite Z.pow2_bits_false by lia. }
  rewrite (Z.add_nocarry_lxor _ _ Hland), Z.lxor_spec.
  case_decide as Hkn.
  - subst k. by rewrite Z.pow2_bits_true, HR by lia.
  - by rewrite Z.pow2_bits_false by lia.
Qed.

Lemma world_bitmask_list_bits (l : list Z) (k : Z) :
  NoDup l → (∀ w, w ∈ l → 1 <= w) → 0 <= k →
  Z.testbit (foldr (fun w acc => Z.shiftl 1 (w - 1) + acc) 0 l) k
  = bool_decide ((k + 1) ∈ l).
Proof.
  intros Hnd Hpos Hk. revert k Hk.
  induction l as [|a l IH]; intros k Hk.
  - cbn. rewrite Z.bits_0. symmetry. apply bool_decide_eq_false.
    by intros ?%elem_of_nil.
  - apply NoDup_cons in Hnd as [Ha Hnd].
    assert (1 <= a) as Ha1 by (apply Hpos; left).
    assert (∀ w, w ∈ l → 1 <= w) as Hpos' by (intros w Hw; apply Hpos; by right).
    cbn [foldr]. rewrite Z.shiftl_1_l.
    rewrite pow2_add_bits; [|lia|lia|].
    + case_decide as Hka.
      * symmetry. apply bool_decide_eq_true. subst k.
        replace (a - 1 + 1) with a by lia. left.
      * rewrite (IH Hnd Hpos' k Hk). apply bool_decide_ext.
        rewrite elem_of_cons. split; [auto|]. intros [Heq|]; [lia|done].
    + rewrite (IH Hnd Hpos' (a - 1)) by lia.
      apply bool_decide_eq_false. by replace (a - 1 + 1) with a by lia.
Qed.

Lemma world_bitmask_bits (S : gset Z) (k : Z) :
  (∀ w, w ∈ S → 1 <= w) → 0 <= k →
  Z.testbit (world_bitmask S) k = bool_decide ((k + 1) ∈ S).
Proof.
  intros Hpos Hk. unfold world_bitmask.
  rewrite world_bitmask_list_bits; [|apply NoDup_elements| |done].
  - apply bool_decide_ext. apply elem_of_elements.
  - intros w Hw. apply Hpos. by apply elem_of_elements.
Qed.

Lemma world_bitmask_nonneg (S : gset Z) : 0 <= world_bitmask S.
Proof.
  unfold world_bitmask. induction (elements S) as [|a l IH]; cbn; [done|].
  pose proof (Z.shiftl_nonneg 1 (a - 1)). lia.
Qed.

Lemma bits_above_false_lt (x n : Z) :
  0 <= x → 0 <= n → (∀ k, n <= k → Z.testbit x k = false) → x < 2 ^ n.
Proof.
  intros Hx Hn Hb. destruct (decide (x < 2 ^ n)) as [|Hge]; [done|exfalso].
  assert (0 < x) as Hpos by (pose proof (Z.pow_pos_nonneg 2 n); lia).
  pose proof (Z.bit_log2 x Hpos) as Hl.
  rewrite Hb in Hl; [done|].
  apply Z.log2_le_pow2; lia.
Qed.

Lemma WORLD_ACCESS_ITEM_IDS_range iid w :
  WORLD_ACCESS_ITEM_IDS !! iid = Some w → 2 <= w <= 7.
Proof.
  intros H. apply small_table_lookup in H.
  repeat (apply elem_of_cons in H as [H|H]; [simplify_eq; lia|]).
  by apply elem_of_nil in H.
Qed.

Lemma CHARACTER_ITEMS_range iid bit :
  CHARACTER_ITEMS !! iid = Some bit → 2 <= bit <= 29.
Proof.
  intros H. apply small_table_lookup in H.
  repeat (apply elem_of_cons in H as [H|H]; [simplify_eq; lia|]).
  by apply elem_of_nil in H.
Qed.

Lemma bits_above_range (x n k : Z) :
  0 <= x < 2 ^ n → n <= k → Z.testbit x k = false.
Proof.
  intros [H0 Hlt] Hk. destruct (decide (x = 0)) as [->|Hne].
  - apply Z.bits_0.
  - apply Z.bits_above_log2; [done|].
    assert (Z.log2 x < n); [|lia]. apply Z.log2_lt_pow2; lia.
Qed.

Lemma items_inv_init : items_inv init_client.
Proof.
  unfold items_inv, init_client. cbn -[Z.testbit Z.pow].
  split; [by apply elem_of_singleton|].
  split; [intros w Hw%elem_of_singleton; lia|].
  split; [done|]. split; [done|reflexivity].
Qed.

Lemma items_inv_allow c w :
  items_inv c → 2 <= w <= 7 → items_inv (set_allowed_worlds (allowed_worlds c ∪ {[w]}) c).
Proof.
  intros (H1 & H2 & H3 & H4) Hw. unfold items_inv.
  cbn -[Z.testbit Z.pow Z.lor Z.shiftl].
  split; [by apply elem_of_union_l|]. split; [|done].
  intros x [Hx|Hx%elem_of_singleton]%elem_of_union; [auto|lia].
Qed.

Lemma items_inv_character c bit :
  items_inv c → 2 <= bit <= 29 →
  items_inv (set_character_bits (Z.lor (character_bits c) (Z.shiftl 1 bit)) c).
Proof.
  intros (H1 & H2 & H3 & H4) Hb. unfold items_inv.
  cbn -[Z.testbit Z.pow Z.lor Z.shiftl].
  split; [done|]. split; [done|].
  split; [by apply character_bits_grow|].
  rewrite Z.shiftl_1_l.
  assert (0 <= Z.lor (character_bits c) (2 ^ bit)) as Hnn.
  { apply Z.lor_nonneg. split; [lia|]. apply Z.pow_nonneg. lia. }
  split; [done|]. apply bits_above_false_lt; [done|lia|].
  intros k Hk. rewrite Z.lor_spec, (bits_above_range _ 30) by (done || lia).
  by rewrite Z.pow2_bits_false by lia.
Qed.

Lemma items_inv_eq c c' :
  progression c' = progression c → items_inv c → items_inv c'.
Proof.
  unfold progression, items_inv. intros [= -> _ -> _ _ _ _]. done.
Qed.

Lemma items_inv_le_eq c c' :
  allowed_worlds c' = allowed_worlds c → character_bits c' = character_bits c →
  items_inv c → items_inv c'.
Proof. unfold items_inv. intros -> ->. done. Qed.

Lemma initial_sync_item_inv c iid : items_inv c → items_inv (initial_sync_item c iid).
Proof.
  intros Hinv. unfold initial_sync_item.
  destruct (WORLD_ACCESS_ITEM_IDS !! iid) as [w|] eqn:Hw.
  { apply items_inv_allow; [done|]. by eapply WORLD_ACCESS_ITEM_IDS_range. }
  case_decide; [by eapply items_inv_le_eq|].
  destruct (CHARACTER_ITEMS !! iid) as [bit|] eqn:Hc.
  { apply items_inv_character; [done|]. by eapply CHARACTER_ITEMS_range. }
  repeat case_match; by eapply items_inv_le_eq.
Qed.

Lemma process_item_inv opts st iid :
  items_inv st.1.1.1 → items_inv (process_item opts st iid).1.1.1.
Proof.
  destruct st as [[[c game] mon] raised]. cbn [fst]. intros Hinv.
  unfold process_item. destruct raised; [done|].
  destruct (WORLD_ACCESS_ITEM_IDS !! iid) as [w|] eqn:Hw.
  { case_bool_decide; [|done]. cbn [fst].
    eapply items_inv_eq; [apply progression_log|].
    apply items_inv_allow; [done|]. by eapply WORLD_ACCESS_ITEM_IDS_range. }
  case_decide.
  { set (c1 := set_bandage_count (bandage_count c + 1) c).
    assert (items_inv c1) as H1 by (by eapply items_inv_le_eq).
    repeat case_match; cbn [fst]; try exact H1;
      (eapply items_inv_eq; [|exact H1]);
      rewrite ?progression_send_location_checks;
      try match goal with H : item_milestones ?a ?b = (?c', _, _) |- _ =>
        replace c' with (item_milestones a b).1.1 by (by rewrite H);
        rewrite progression_item_milestones end;
      by rewrite ?progression_log. }
  destruct (CHARACTER_ITEMS !! iid) as [bit|] eqn:Hc.
  { cbn [fst]. eapply items_inv_eq; [apply progression_log|].
    apply items_inv_character; [done|]. by eapply CHARACTER_ITEMS_range. }
  destruct (BOSS_TOKEN_IDS !! iid) as [token_world|].
  { set (c1 := set_boss_token_count _ _).
    assert (items_inv c1) as H1 by (by eapply items_inv_le_eq).
    destruct (boss_tokens_enabled opts); [|by eapply items_inv_eq].
    destruct (truthy (get_sp game)); [|by eapply items_inv_eq].
    pose proof (update_boss_tokens_progression c1 game (get_sp game)
                  (boss_token_costs opts)) as Hu.
    destruct (_update_boss_tokens c1 game (get_sp game) (boss_token_costs opts))
      as [[c2 g2] newly].
    cbn [fst] in *. destruct Hu as (_ & Ha & Hb & _).
    eapply items_inv_eq; [apply progression_log|].
    eapply items_inv_eq; [apply progression_foldl_log|].
    by eapply items_inv_le_eq. }
  destruct (DARK_ACCESS_IDS !! iid) as [dw|]; [|done].
  set (c1 := set_dark_access_counts _ _).
  assert (items_inv c1) as H1 by (by eapply items_inv_le_eq).
  repeat case_match; cbn [fst]; simplify_eq; try exact H1;
    (eapply items_inv_eq; [|exact H1]); rewrite ?progression_log;
    try match goal with H : _grant_dark_access ?a ?g ?s ?k = (?c', _, _) |- _ =>
      replace c' with (_grant_dark_access a g s k).1.1 by (by rewrite H);
      by rewrite grant_dark_access_progression end; done.
Qed.

Lemma world_bitmask_range (S : gset Z) :
  1 ∈ S → (∀ w, w ∈ S → 1 <= w <= 7) →
  1 <= world_bitmask S < 128 ∧ Z.odd (world_bitmask S) = true.
Proof.
  intros H1 H7.
  assert (∀ k, 0 <= k → Z.testbit (world_bitmask S) k = bool_decide ((k + 1) ∈ S))
    as Hbits.
  { intros k Hk. apply world_bitmask_bits; [|done]. intros w Hw.
    specialize (H7 w Hw). lia. }
  assert (Z.odd (world_bitmask S) = true) as Hodd.
  { rewrite <- Z.bit0_odd, Hbits by lia. by apply bool_decide_eq_true. }
  pose proof (world_bitmask_nonneg S) as Hnn.
  split; [|done]. split.
  - destruct (decide (world_bitmask S = 0)) as [Hz|]; [|lia].
    rewrite Hz in Hodd. done.
  - change 128 with (2 ^ 7). apply bits_above_false_lt; [done|lia|].
    intros k Hk. rewrite Hbits by lia. apply bool_decide_eq_false.
    intros Hin. specialize (H7 _ Hin). lia.
Qed.

(** X13. However many items are received, through the initial
    item sync and then through the main loop, world 1 stays allowed and
    the allowed worlds stay among 1 to 7, and Meat Boy's bit 0 stays set
    and the character bits stay below bit 30.  The world unlock mask
    [sum(1 << (w - 1) for w in allowed_worlds)] is therefore between 1 and
    127, fits the byte it is written to, and has bit [w - 1] set exactly
    for the allowed worlds [w]. *)
Theorem received_items_keep_masks_in_range
    (opts : options) (c0 : APClient) (game : GameInterface) (mon : monitor)
    (sync_items loop_items : list Z) :
  items_inv c0 →
  let c := (process_new_items opts
              (initial_sync_items c0 sync_items, game, mon, false)
              loop_items).1.1.1 in
  items_inv c
  ∧ 1 <= world_bitmask (allowed_worlds c) < 128
  ∧ ∀ k, 0 <= k →
      Z.testbit (world_bitmask (allowed_worlds c)) k
      = bool_decide ((k + 1) ∈ allowed_worlds c).
Proof.
  intros H0 c.
  assert (items_inv c) as Hinv.
  { subst c. unfold process_new_items, initial_sync_items.
    assert (items_inv (foldl initial_sync_item c0 sync_items)) as H1.
    { clear -H0. induction sync_items as [|x l IH] using rev_ind; [done|].
      rewrite foldl_snoc. by apply initial_sync_item_inv. }
    revert H1. generalize (foldl initial_sync_item c0 sync_items). intros c1 H1.
    induction loop_items as [|x l IH] using rev_ind; [done|].
    rewrite foldl_snoc. by apply process_item_inv. }
  split; [done|]. destruct Hinv as (H1 & H7 & _).
  split; [apply world_bitmask_range; done|].
  intros k Hk. apply world_bitmask_bits; [|done].
  intros w Hw. specialize (H7 w Hw). lia.
Qed.

(** Witness of X13: world 3 and a bandage in the initial sync,
    then Jill and world 7 in the main loop. *)
Lemma received_items_keep_masks_in_range_witness :
  let c := (process_new_items plain_options
              (initial_sync_items init_client [ITEM_WORLD3; ITEM_BANDAGE],
               masks_game, init_monitor, false)
              [BASE_ID + 19; ITEM_WORLD7]).1.1.1 in
  items_inv c
  ∧ 1 <= world_bitmask (allowed_worlds c) < 128
  ∧ ∀ k, 0 <= k →
      Z.testbit (world_bitmask (allowed_worlds c)) k
      = bool_decide ((k + 1) ∈ allowed_worlds c).
Proof.
  apply (received_items_keep_masks_in_range plain_options init_client).
  apply items_inv_init.
Defined.

Lemma bytes_agree_refl P g : bytes_agree P g g.
Proof. by intros a _. Qed.

Lemma bytes_agree_trans P g1 g2 g3 :
  bytes_agree P g1 g2 → bytes_agree P g2 g3 → bytes_agree P g1 g3.
Proof. intros H1 H2 a Ha. by rewrite H2, H1. Qed.

Lemma write_boss_counter_bytes sp g w v :
  bytes_agree (boss_counter_addr sp) g (write_boss_counter g sp w v).
Proof.
  intros a Ha. unfold write_boss_counter, peek_uchar.
  destruct (BOSS_COUNTER_OFFSETS !! w) as [o|] eqn:Ho; [|done].
  case_decide; [done|]. destruct (pm g) as [m|] eqn:Hm; cbn; [|by rewrite Hm].
  unfold write_uchar. destruct (bytes m !! (sp + o)) eqn:E; cbn; [|by rewrite Hm].
  unfold read_uchar. cbn. rewrite lookup_insert_ne; [done|].
  intros <-. apply Ha. by exists w, o.
Qed.

Lemma enforce_boss_counters_bytes c g sp costs :
  bytes_agree (boss_counter_addr sp) g (_enforce_boss_counters c g sp costs).
Proof.
  unfold _enforce_boss_counters.
  assert (∀ l g0, bytes_agree (boss_counter_addr sp) g0
                    (foldl (reraise_step sp) g0 l)) as H1.
  { induction l as [|w l IH]; intros g0; [apply bytes_agree_refl|].
    cbn [foldl]. eapply bytes_agree_trans; [|apply IH].
    unfold reraise_step. repeat case_match;
      first [apply bytes_agree_refl | apply write_boss_counter_bytes]. }
  assert (∀ l g0, bytes_agree (boss_counter_addr sp) g0
                    (foldl (suppress_step c sp) g0 l)) as H2.
  { induction l as [|w l IH]; intros g0; [apply bytes_agree_refl|].
    cbn [foldl]. eapply bytes_agree_trans; [|apply IH].
    unfold suppress_step. repeat case_match;
      first [apply bytes_agree_refl | apply write_boss_counter_bytes]. }
  eapply bytes_agree_trans; [apply H1|apply H2].
Qed.

Lemma write_time_bytes g sp w i r v a :
  peek_uchar (write_time g sp w i r v) a = peek_uchar g a.
Proof.
  unfold peek_uchar.
  destruct (write_time_pm g sp w i r v) as [->|(ta & m & _ & _ & Hm & _ & ->)];
    [done|]. by rewrite Hm.
Qed.

Lemma enforce_dark_locks_step_bytes sp acc level a :
  peek_uchar (enforce_dark_locks_step sp acc level).1.2 a = peek_uchar acc.1.2 a.
Proof.
  destruct acc as [[c g] raised], level as [w li].
  unfold enforce_dark_locks_step.
  repeat case_match; cbn [fst snd]; rewrite ?write_time_bytes; done.
Qed.

Lemma enforce_dark_locks_bytes c g sp a :
  peek_uchar (_enforce_dark_locks c g sp).1.2 a = peek_uchar g a.
Proof.
  unfold _enforce_dark_locks. destruct (negb (dark_lock_enabled c)); [done|].
  change g with (c, g, false).1.2 at 2.
  generalize (c, g, false). generalize light_levels_1_5.
  induction l as [|level l IH]; intros acc; [done|].
  cbn [foldl]. by rewrite IH, enforce_dark_locks_step_bytes.
Qed.

Lemma peek_uint_agree g g' a :
  (∀ k, 0 <= k < 4 → peek_uchar g' (a + k) = peek_uchar g (a + k)) →
  peek_uint g' a = peek_uint g a.
Proof.
  intros H. pose proof (H 0 ltac:(lia)) as H0. pose proof (H 1 ltac:(lia)) as H1.
  pose proof (H 2 ltac:(lia)) as H2. pose proof (H 3 ltac:(lia)) as H3.
  rewrite Z.add_0_r in H0. unfold peek_uint, peek_uchar, read_uint, read_uchar in *.
  destruct (pm g) as [m|], (pm g') as [m'|]; cbn in *.
  - by rewrite H0, H1, H2, H3.
  - destruct (bytes m !! a); [done|]. done.
  - destruct (bytes m' !! a); [done|]. done.
  - done.
Qed.

Lemma set_world_unlock_pm g sp mask m :
  pm g = Some m → is_Some (bytes m !! (sp + ADDR_world_unlock)) →
  pm (set_world_unlock g sp mask)
  = Some (mkPymem (<[sp + ADDR_world_unlock := mask `mod` 256]> (bytes m))
            (floats m)).
Proof.
  intros Hm Hb. unfold set_world_unlock, try_except. rewrite Hm.
  cbn [mbind option_bind]. rewrite (write_uchar_Some _ _ _ Hb). done.
Qed.

Lemma get_world_unlock_peek g sp :
  get_world_unlock g sp = default 0 (peek_uchar g (sp + ADDR_world_unlock)).
Proof. done. Qed.

Lemma get_char_bitmask_peek g sp :
  get_char_bitmask g sp = default 0 (peek_uint g (sp + CHARACTER_BITMASK_OFFSET)).
Proof. done. Qed.

Lemma not_boss_counter_addr sp a :
  sp + 0x3950 <= a → ¬ boss_counter_addr sp a.
Proof.
  intros Ha (w & o & Ho & ->). apply BOSS_COUNTER_OFFSETS_Some in Ho as [Hw ->].
  lia.
Qed.

Lemma enforcement_tail_bytes opts c g sp a :
  sp + 0x3950 <= a →
  peek_uchar
    (if dark_lock_enabled c
     then _enforce_dark_locks c
            (if boss_tokens_enabled opts
             then _enforce_boss_counters c g sp (boss_token_costs opts) else g) sp
     else (c, if boss_tokens_enabled opts
              then _enforce_boss_counters c g sp (boss_token_costs opts) else g,
           false)).1.2 a
  = peek_uchar g a.
Proof.
  intros Ha.
  assert (peek_uchar (if boss_tokens_enabled opts
             then _enforce_boss_counters c g sp (boss_token_costs opts) else g) a
          = peek_uchar g a) as Hb.
  { destruct (boss_tokens_enabled opts); [|done].
    apply enforce_boss_counters_bytes. by apply not_boss_counter_addr. }
  destruct (dark_lock_enabled c); cbn [fst snd].
  - by rewrite enforce_dark_locks_bytes.
  - done.
Qed.

(** X14. The enforcement block that runs on the world select
    screen leaves the game memory in step with the client: when the world
    unlock byte and the four bytes of the character bitmask are mapped,
    afterwards the unlock byte reads as the mask of the allowed worlds (bit
    [w - 1] set exactly for the allowed worlds [w]) and the character
    bitmask reads as [character_bits], whatever the boss counter and dark
    lock enforcement of the same block wrote. *)
Theorem world_select_unlock_masks (opts : options) (c : APClient)
    (game : GameInterface) (sp : Z) (m : Pymem) :
  items_inv c → pm game = Some m →
  (∀ k, 0 <= k <= 4 → is_Some (bytes m !! (sp + CHARACTER_BITMASK_OFFSET + k))) →
  let game' := (enforce_on_world_select opts c game sp).1.2 in
  get_world_unlock game' sp = world_bitmask (allowed_worlds c)
  ∧ get_char_bitmask game' sp = character_bits c
  ∧ ∀ k, 0 <= k →
      Z.testbit (get_world_unlock game' sp) k
      = bool_decide ((k + 1) ∈ allowed_worlds c).
Proof.
  intros Hinv Hm Hb game'.
  pose proof Hinv as (H1 & H7 & Hbit0 & Hrange).
  destruct (world_bitmask_range _ H1 H7) as [Hmask _].
  assert (is_Some (bytes m !! (sp + ADDR_world_unlock))) as Hwu.
  { specialize (Hb 4 ltac:(lia)).
    by replace (sp + CHARACTER_BITMASK_OFFSET + 4) with (sp + ADDR_world_unlock)
      in Hb by (unfold CHARACTER_BITMASK_OFFSET, ADDR_world_unlock; lia). }
  pose proof (set_world_unlock_pm game sp (world_bitmask (allowed_worlds c)) m Hm Hwu)
    as Hg1.
  set (g1 := set_world_unlock game sp (world_bitmask (allowed_worlds c))) in *.
  set (m1 := mkPymem _ _) in Hg1.
  assert (∀ k, 0 <= k < 4 →
            is_Some (bytes m1 !! (sp + CHARACTER_BITMASK_OFFSET + k))) as Hb1.
  { intros k Hk. subst m1. cbn [bytes].
    rewrite lookup_insert_ne
      by (unfold CHARACTER_BITMASK_OFFSET, ADDR_world_unlock; lia).
    apply Hb. lia. }
  pose proof (set_char_bitmask_pm g1 sp (character_bits c) m1 Hg1 Hb1) as Hg2.
  pose proof (char_bitmask_write_read g1 sp (character_bits c) m1 Hg1 Hb1) as Hrt.
  set (g2 := set_char_bitmask g1 sp (character_bits c)) in *.
  assert (get_world_unlock game' sp = world_bitmask (allowed_worlds c)) as Hw.
  { subst game'. unfold enforce_on_world_select. cbn zeta.
    fold g1. fold g2. rewrite get_world_unlock_peek.
    rewrite enforcement_tail_bytes
      by (unfold ADDR_world_unlock; lia).
    unfold peek_uchar. rewrite Hg2. cbn [mbind option_bind].
    unfold read_uchar. cbn [bytes].
    rewrite !lookup_insert_ne
      by (unfold CHARACTER_BITMASK_OFFSET, ADDR_world_unlock; lia).
    subst m1. cbn [bytes]. rewrite lookup_insert_eq. cbn.
    apply Z.mod_small. lia. }
  split; [done|]. split.
  - subst game'. unfold enforce_on_world_select. cbn zeta.
    fold g1. fold g2. rewrite get_char_bitmask_peek.
    rewrite (peek_uint_agree g2).
    + rewrite <- get_char_bitmask_peek, Hrt. apply Z.mod_small. lia.
    + intros k Hk. apply enforcement_tail_bytes.
      unfold CHARACTER_BITMASK_OFFSET. lia.
  - intros k Hk. rewrite Hw. apply world_bitmask_bits; [|done].
    intros w Hw'. specialize (H7 w Hw'). lia.
Qed.

(** Witness of X14 on a client after [__init__]. *)
Lemma world_select_unlock_masks_witness :
  let game' := (enforce_on_world_select plain_options init_client masks_game
                  0x1000).1.2 in
  get_world_unlock game' 0x1000 = world_bitmask (allowed_worlds init_client)
  ∧ get_char_bitmask game' 0x1000 = character_bits init_client
  ∧ ∀ k, 0 <= k →
      Z.testbit (get_world_unlock game' 0x1000) k
      = bool_decide ((k + 1) ∈ allowed_worlds init_client).
Proof.
  eapply (world_select_unlock_masks plain_options init_client masks_game);
    [apply items_inv_init|reflexivity|].
  intros k Hk.
  assert (k = 0 ∨ k = 1 ∨ k = 2 ∨ k = 3 ∨ k = 4) as [->|[->|[->|[->| ->]]]]
    by lia; eexists; vm_compute; reflexivity.
Defined.

End unlock_masks.

(** ** Dark locks *)

Section dark_locks.

Lemma dark_level_unlocked_None c w li :
  _dark_level_unlocked c w li = None
  ↔ dark_lock_enabled c = true ∧ 1 <= w <= 5
    ∧ (dark_unlocks_per_world c = 0 ∨ 20 < dark_unlocks_per_world c).
Proof.
  unfold _dark_level_unlocked.
  destruct (dark_lock_enabled c); cbn [negb]; [|naive_solver].
  case_decide as Hw; [naive_solver lia|].
  case_decide as Hn; [split; [intros _; split; [done|split; [lia|by left]]|done]|].
  pose proof (Z.div_small_iff 20 (dark_unlocks_per_world c) Hn) as Hs.
  case_decide as Hl.
  - split; [intros _|done]. split; [done|]. split; [lia|]. right.
    apply Hs in Hl. lia.
  - split; [done|]. intros (_ & _ & [H0|Hgt]); [done|].
    exfalso. apply Hl, Hs. lia.
Qed.

(** X15. [_dark_level_unlocked] raises (a division by zero)
    exactly when the dark lock is on, the world is 1 to 5 and
    [dark_unlocks_per_world] is 0 or above 20. With 1 to 20 items per world
    the unlocked levels of a world are its first
    [min(count * (20 // per_world), 20)] levels, the number the item handler
    logs. *)
Theorem dark_level_unlocked_by_count (c : APClient) (w li : Z) :
  (_dark_level_unlocked c w li = None
   ↔ dark_lock_enabled c = true ∧ 1 <= w <= 5
     ∧ (dark_unlocks_per_world c = 0 ∨ 20 < dark_unlocks_per_world c))
  ∧ (dark_lock_enabled c = true → 1 <= w <= 5 →
     1 <= dark_unlocks_per_world c <= 20 → 0 <= li < 20 →
     _dark_level_unlocked c w li
     = Some (bool_decide
               (li < Z.min (default 0 (dark_access_counts c !! w)
                            * (20 `div` dark_unlocks_per_world c)) 20))).
Proof.
  split; [apply dark_level_unlocked_None|].
  intros He Hw Hn Hli. unfold _dark_level_unlocked. rewrite He. cbn [negb].
  rewrite decide_False by lia. rewrite decide_False by lia.
  set (n := dark_unlocks_per_world c) in *.
  set (count := default 0 (dark_access_counts c !! w)).
  assert (1 <= 20 `div` n) as Hl by (apply Z.div_le_lower_bound; lia).
  rewrite decide_False by lia. f_equal. apply bool_decide_ext.
  set (l := 20 `div` n) in *.
  pose proof (Z.div_mod li l ltac:(lia)) as Hdm.
  pose proof (Z.mod_pos_bound li l ltac:(lia)) as Hmb.
  split.
  - intros Hc. apply Z.min_glb_lt; [|lia]. nia.
  - intros Hlt. apply Z.min_glb_lt_iff in Hlt as [Hlt _].
    assert (li `div` l < count); [|lia].
    apply Z.div_lt_upper_bound; lia.
Qed.


Lemma dark_level_unlocked_lock_state c c' w li :
  lock_state c' = lock_state c →
  _dark_level_unlocked c' w li = _dark_level_unlocked c w li.
Proof.
  unfold lock_state, _dark_level_unlocked. intros [= -> -> ->]. done.
Qed.

Lemma dark_level_unlocked_not_None c w li :
  1 <= dark_unlocks_per_world c <= 20 → _dark_level_unlocked c w li ≠ None.
Proof. intros Hn H. apply dark_level_unlocked_None in H. lia. Qed.

Lemma is_a_plus_test t w li r par :
  get_par_time w li r = Some par →
  is_a_plus t w li r = qgt t 0 && qle t par.
Proof.
  intros Hp. unfold is_a_plus, qgt, qle. rewrite Hp.
  by destruct (Qle_bool t 0).
Qed.

Lemma qle_penalty par : qle (par + DARK_LOCK_TIME_PENALTY) par = false.
Proof.
  unfold qle, DARK_LOCK_TIME_PENALTY.
  destruct (Qle_bool (par + 1.0) par) eqn:E; [|done].
  apply Qle_bool_iff in E. exfalso.
  rewrite <- (Qplus_0_r par) in E at 2.
  apply Qplus_le_r in E. by vm_compute in E.
Qed.

Lemma qgt_penalty par :
  (0 < par)%Q → qgt (par + DARK_LOCK_TIME_PENALTY) 0 = true.
Proof.
  intros Hp. unfold qgt, DARK_LOCK_TIME_PENALTY.
  destruct (Qle_bool (par + 1.0) 0) eqn:E; [|done].
  apply Qle_bool_iff in E. exfalso.
  apply (Qlt_irrefl 0). eapply Qlt_le_trans; [|exact E].
  apply (Qlt_trans _ par); [done|].
  rewrite <- (Qplus_0_r par) at 1. apply Qplus_lt_r. by vm_compute.
Qed.

Lemma read_time_pos_readable g sp w i r :
  qgt (read_time g sp w i r) 0 = true → time_readable g sp w i r.
Proof.
  unfold read_time, time_readable, peek_float.
  destruct (time_addr w i r) as [ta|]; [|done].
  case_decide; [done|]. destruct (pm g) as [m|]; cbn; [|done].
  unfold read_float. destruct (floats m !! (sp + ta)) eqn:E; cbn; [|done].
  intros _. split; [done|]. exists ta. rewrite E. split; [done|by eexists].
Qed.

Lemma light_level_has_slot w li :
  light_level_1_5 (w, li) → has_slot w li "light".
Proof.
  intros [Hw Hli]. cbn in *. apply has_slot_iff. left.
  repeat split; auto; lia.
Qed.

Lemma light_time_frame g sp w li v w' li' :
  light_level_1_5 (w, li) → light_level_1_5 (w', li') → (w', li') ≠ (w, li) →
  read_time (write_time g sp w li "light" v) sp w' li' "light"
  = read_time g sp w' li' "light".
Proof.
  intros Hlv Hlv' Hne. apply read_time_write_time_ne.
  apply comp_addr_inj; [by apply light_level_has_slot..|congruence].
Qed.

Lemma enforce_step_spec sp c g w li :
  light_level_1_5 (w, li) →
  _dark_level_unlocked c w li ≠ None →
  ∃ c' g',
    enforce_dark_locks_step sp (c, g, false) (w, li) = (c', g', false)
    ∧ lock_state c' = lock_state c
    ∧ (∀ w' li', light_level_1_5 (w', li') → (w', li') ≠ (w, li) →
         read_time g' sp w' li' "light" = read_time g sp w' li' "light"
         ∧ real_best_times c' !! (w', li') = real_best_times c !! (w', li'))
    ∧ (_dark_level_unlocked c w li = Some false → suppressed c g c' g' sp w li).
Proof.
  intros Hlv Hnone. pose proof (light_level_has_slot _ _ Hlv) as Hs.
  destruct (get_par_time_has_slot _ _ _ Hs) as [par Hpar].
  unfold enforce_dark_locks_step.
  destruct (_dark_level_unlocked c w li) as [[|]|] eqn:Hu; [| |done].
  - rewrite Hpar.
    eexists _, _. split; [reflexivity|]. split.
    { unfold lock_state. repeat case_match; done. }
    split; [|done]. intros w' li' Hlv' Hne. split.
    + repeat case_match; rewrite ?light_time_frame by done; done.
    + repeat case_match; done.
  - rewrite Hpar.
    destruct (qgt (read_time g sp w li "light") 0
              && qle (read_time g sp w li "light") par) eqn:Ht.
    + eexists _, _. split; [reflexivity|]. split; [done|]. split.
      * intros w' li' Hlv' Hne. split; [by apply light_time_frame|].
        cbn. rewrite lookup_insert_ne by congruence. done.
      * intros _. apply andb_prop in Ht as [Hpos Hle].
        pose proof (read_time_pos_readable _ _ _ _ _ Hpos) as Hrd.
        unfold suppressed.
        rewrite read_time_write_time_eq by done.
        rewrite (is_a_plus_test _ _ _ _ _ Hpar), qle_penalty, andb_false_r.
        split; [done|]. intros _. cbn. rewrite lookup_insert_eq.
        split; [done|]. by exists par.
    + eexists _, _. split; [reflexivity|]. split; [done|].
      split; [done|]. intros _. unfold suppressed.
      rewrite (is_a_plus_test _ _ _ _ _ Hpar), Ht. done.
Qed.

Lemma qgt_par_pos t par : (0 < par)%Q → qgt t par = true → qgt t 0 = true.
Proof.
  unfold qgt. intros Hp Ht.
  destruct (Qle_bool t 0) eqn:E; [|done]. apply Qle_bool_iff in E.
  destruct (Qle_bool t par) eqn:E'; [done|]. exfalso.
  assert (Qle_bool t par = true); [|congruence].
  apply Qle_bool_iff. apply Qlt_le_weak. by eapply Qle_lt_trans.
Qed.

Lemma qgt_penalty_par par : qgt (par + DARK_LOCK_TIME_PENALTY) par = true.
Proof.
  pose proof (qle_penalty par) as H. unfold qgt, qle in *. by rewrite H.
Qed.

Lemma enforce_step_unlocked sp c g w li :
  light_level_1_5 (w, li) →
  _dark_level_unlocked c w li = Some true →
  ∃ c' g',
    enforce_dark_locks_step sp (c, g, false) (w, li) = (c', g', false)
    ∧ restored c g g' sp w li.
Proof.
  intros Hlv Hu. pose proof (light_level_has_slot _ _ Hlv) as Hs.
  destruct (get_par_time_has_slot _ _ _ Hs) as [par Hpar].
  pose proof (get_par_time_positive _ _ _ _ Hpar) as Hpos.
  unfold enforce_dark_locks_step. rewrite Hu, Hpar.
  eexists _, _. split; [reflexivity|].
  intros par' Hp'. rewrite Hpar in Hp'. injection Hp' as <-. split.
  - intros real Hreal Hle Hgt. rewrite Hreal, Hle, Hgt.
    apply read_time_write_time_eq, read_time_pos_readable.
    by apply (qgt_par_pos _ par).
  - intros Hgt. rewrite Hgt. by repeat case_match.
Qed.

Lemma enforce_step_full sp c g w li :
  light_level_1_5 (w, li) →
  _dark_level_unlocked c w li ≠ None →
  ∃ c' g',
    enforce_dark_locks_step sp (c, g, false) (w, li) = (c', g', false)
    ∧ lock_state c' = lock_state c
    ∧ (∀ w' li', light_level_1_5 (w', li') → (w', li') ≠ (w, li) →
         read_time g' sp w' li' "light" = read_time g sp w' li' "light"
         ∧ real_best_times c' !! (w', li') = real_best_times c !! (w', li'))
    ∧ (_dark_level_unlocked c w li = Some false → suppressed c g c' g' sp w li)
    ∧ (_dark_level_unlocked c w li = Some true → restored c g g' sp w li).
Proof.
  intros Hlv Hnone.
  destruct (enforce_step_spec sp c g w li Hlv Hnone)
    as (c' & g' & Heq & Hls & Hfr & Hsup).
  exists c', g'. do 4 (split; [done|]). intros Hu.
  destruct (enforce_step_unlocked sp c g w li Hlv Hu) as (c'' & g'' & Heq' & Hr).
  rewrite Heq in Heq'. by injection Heq' as -> ->.
Qed.

Lemma enforce_fold_spec sp (l : list (Z * Z)) c g :
  NoDup l → Forall light_level_1_5 l →
  1 <= dark_unlocks_per_world c <= 20 →
  ∃ c' g',
    foldl (enforce_dark_locks_step sp) (c, g, false) l = (c', g', false)
    ∧ lock_state c' = lock_state c
    ∧ (∀ w li, light_level_1_5 (w, li) → (w, li) ∉ l →
         read_time g' sp w li "light" = read_time g sp w li "light"
         ∧ real_best_times c' !! (w, li) = real_best_times c !! (w, li))
    ∧ (∀ w li, (w, li) ∈ l →
         (_dark_level_unlocked c w li = Some false → suppressed c g c' g' sp w li)
         ∧ (_dark_level_unlocked c w li = Some true → restored c g g' sp w li)).
Proof.
  revert c g. induction l as [|[w0 li0] l IH]; intros c g Hnd Hall Hn.
  { exists c, g. split; [done|]. split; [done|]. split; [done|].
    intros w li Hin. by apply elem_of_nil in Hin. }
  apply NoDup_cons in Hnd as [Hnotin Hnd].
  apply Forall_cons in Hall as [Hlv0 Hall].
  destruct (enforce_step_full sp c g w0 li0 Hlv0
              (dark_level_unlocked_not_None _ _ _ Hn))
    as (c1 & g1 & Hstep & Hls1 & Hfr1 & Hsup1 & Hres1).
  assert (1 <= dark_unlocks_per_world c1 <= 20) as Hn1.
  { unfold lock_state in Hls1. injection Hls1 as _ -> _. done. }
  destruct (IH c1 g1 Hnd Hall Hn1) as (c' & g' & Hfold & Hls & Hfr & Hpost).
  exists c', g'. cbn [foldl]. rewrite Hstep.
  split; [done|]. split; [by rewrite Hls|]. split.
  - intros w li Hlv Hni. apply not_elem_of_cons in Hni as [Hne Hni].
    destruct (Hfr w li Hlv Hni) as [-> ->]. by apply Hfr1.
  - intros w li Hin. apply elem_of_cons in Hin as [[= -> ->]|Hin].
    + destruct (Hfr w0 li0 Hlv0 Hnotin) as [Ht Hr]. split; intros Hu.
      * destruct (Hsup1 Hu) as [Ha Hb]. unfold suppressed.
        rewrite Ht, Hr. done.
      * intros par Hpar. rewrite Ht. by apply Hres1.
    + assert ((w, li) ≠ (w0, li0)) as Hne by (intros [= -> ->]; done).
      assert (light_level_1_5 (w, li)) as Hlv.
      { rewrite Forall_forall in Hall. by apply Hall. }
      destruct (Hfr1 w li Hlv Hne) as [Ht Hr].
      destruct (Hpost w li Hin) as [Hsup Hres].
      rewrite (dark_level_unlocked_lock_state c c1) in Hsup, Hres by done.
      split; intros Hu.
      * destruct (Hsup Hu) as [Ha Hb]. unfold suppressed.
        rewrite <- Ht. done.
      * intros par Hpar. rewrite <- Ht, <- Hr. by apply Hres.
Qed.

Lemma light_levels_1_5_elem w li :
  (w, li) ∈ light_levels_1_5 ↔ light_level_1_5 (w, li).
Proof.
  unfold light_levels_1_5, light_level_1_5. cbn [fst snd].
  rewrite list_elem_of_bind. split.
  - intros (w' & Hin & Hw). apply list_elem_of_bind in Hin as (li' & Hin & Hli).
    apply list_elem_of_singleton in Hin as [= -> ->].
    apply elem_of_seqZ in Hw, Hli. lia.
  - intros [Hw Hli]. exists w. split; [|apply elem_of_seqZ; lia].
    apply list_elem_of_bind. exists li. split; [|apply elem_of_seqZ; lia].
    by apply list_elem_of_singleton.
Qed.

Lemma light_levels_1_5_NoDup : NoDup light_levels_1_5.
Proof. apply (bool_decide_unpack _). vm_compute. reflexivity. Qed.

Lemma enforce_dark_locks_spec c g sp :
  dark_lock_enabled c = true →
  1 <= dark_unlocks_per_world c <= 20 →
  ∃ c' g',
    _enforce_dark_locks c g sp = (c', g', false)
    ∧ lock_state c' = lock_state c
    ∧ (∀ w li, light_level_1_5 (w, li) →
         (_dark_level_unlocked c w li = Some false → suppressed c g c' g' sp w li)
         ∧ (_dark_level_unlocked c w li = Some true → restored c g g' sp w li)).
Proof.
  intros He Hn. unfold _enforce_dark_locks. rewrite He. cbn [negb].
  destruct (enforce_fold_spec sp light_levels_1_5 c g light_levels_1_5_NoDup)
    as (c' & g' & Hfold & Hls & _ & Hpost); [|done|].
  { apply Forall_forall. intros [w li]. apply light_levels_1_5_elem. }
  exists c', g'. split; [done|]. split; [done|].
  intros w li Hlv. apply Hpost, light_levels_1_5_elem, Hlv.
Qed.



Lemma grant_step_spec sp w c g li :
  light_level_1_5 (w, li) →
  _dark_level_unlocked c w li ≠ None →
  ∃ c' g',
    grant_dark_access_step sp w (c, g, false) li = (c', g', false)
    ∧ lock_state c' = lock_state c
    ∧ real_best_times c' = real_best_times c
    ∧ (∀ w' li', light_level_1_5 (w', li') → (w', li') ≠ (w, li) →
         read_time g' sp w' li' "light" = read_time g sp w' li' "light")
    ∧ (_dark_level_unlocked c w li = Some true →
       ∀ real, real_best_times c !! (w, li) = Some real →
         is_a_plus real w li "light" = true →
         qgt (read_time g sp w li "light") 0 = true →
         read_time g' sp w li "light" = real)
    ∧ (_dark_level_unlocked c w li = Some false → g' = g).
Proof.
  intros Hlv Hnone. pose proof (light_level_has_slot _ _ Hlv) as Hs.
  destruct (get_par_time_has_slot _ _ _ Hs) as [par Hpar].
  unfold grant_dark_access_step.
  destruct (_dark_level_unlocked c w li) as [[|]|] eqn:Hu; [| |done].
  - rewrite Hpar.
    destruct (real_best_times c !! (w, li)) as [real|] eqn:Hreal.
    + destruct (qgt real 0 && qle real par) eqn:Ht.
      * eexists _, _. split; [reflexivity|]. split; [done|]. split; [done|].
        split; [intros; by apply light_time_frame|]. split; [|done].
        intros _ real' [= <-] _ Hpos.
        apply read_time_write_time_eq, read_time_pos_readable, Hpos.
      * assert (∀ real', Some real = Some real' →
                  is_a_plus real' w li "light" = true → False) as Hno.
        { intros real' [= <-] Ha.
          by rewrite (is_a_plus_test _ _ _ _ _ Hpar), Ht in Ha. }
        repeat case_match; (eexists _, _; split; [reflexivity|]);
          (split; [done|]); (split; [done|]);
          (split; [intros; rewrite ?light_time_frame by done; done|]);
          (split; [|done]); intros _ real' Hr Ha; destruct (Hno real' Hr Ha).
    + repeat case_match; (eexists _, _; split; [reflexivity|]);
        (split; [done|]); (split; [done|]);
        (split; [intros; rewrite ?light_time_frame by done; done|]);
        split; done.
  - eexists _, _. split; [reflexivity|]. done.
Qed.

Lemma grant_fold_spec sp w (l : list Z) c g :
  NoDup l → Forall (fun li => light_level_1_5 (w, li)) l →
  1 <= dark_unlocks_per_world c <= 20 →
  ∃ c' g',
    foldl (grant_dark_access_step sp w) (c, g, false) l = (c', g', false)
    ∧ lock_state c' = lock_state c
    ∧ real_best_times c' = real_best_times c
    ∧ (∀ w' li', light_level_1_5 (w', li') → (w' = w → li' ∉ l) →
         read_time g' sp w' li' "light" = read_time g sp w' li' "light")
    ∧ (∀ li, li ∈ l → _dark_level_unlocked c w li = Some true →
         ∀ real, real_best_times c !! (w, li) = Some real →
           is_a_plus real w li "light" = true →
           qgt (read_time g sp w li "light") 0 = true →
           read_time g' sp w li "light" = real).
Proof.
  revert c g. induction l as [|li0 l IH]; intros c g Hnd Hall Hn.
  { exists c, g. split; [done|]. split; [done|]. split; [done|]. split; [done|].
    intros li Hin. by apply elem_of_nil in Hin. }
  apply NoDup_cons in Hnd as [Hnotin Hnd].
  apply Forall_cons in Hall as [Hlv0 Hall].
  destruct (grant_step_spec sp w c g li0 Hlv0
              (dark_level_unlocked_not_None _ _ _ Hn))
    as (c1 & g1 & Hstep & Hls1 & Hrb1 & Hfr1 & Hres1 & _).
  assert (1 <= dark_unlocks_per_world c1 <= 20) as Hn1.
  { unfold lock_state in Hls1. injection Hls1 as _ -> _. done. }
  destruct (IH c1 g1 Hnd Hall Hn1) as (c' & g' & Hfold & Hls & Hrb & Hfr & Hres).
  exists c', g'. cbn [foldl]. rewrite Hstep.
  split; [done|]. split; [by rewrite Hls|]. split; [by rewrite Hrb|]. split.
  - intros w' li' Hlv Hni. rewrite Hfr.
    + apply Hfr1; [done|]. intros [= -> ->]. apply (Hni eq_refl). by left.
    + done.
    + intros ->. specialize (Hni eq_refl). by apply not_elem_of_cons in Hni as [_ ?].
  - intros li Hin Hu real Hreal Ha Hpos.
    apply elem_of_cons in Hin as [->|Hin].
    + rewrite Hfr by done. by apply Hres1.
    + assert (li ≠ li0) as Hne by (intros ->; done).
      assert (light_level_1_5 (w, li)) as Hlv.
      { rewrite Forall_forall in Hall. by apply Hall. }
      apply Hres; [done| | |done|].
      * by rewrite (dark_level_unlocked_lock_state c c1).
      * by rewrite Hrb1.
      * rewrite Hfr1; [done..|]. intros [= ->]. done.
Qed.

Lemma grant_dark_access_spec c g sp w :
  1 <= w <= 5 → 1 <= dark_unlocks_per_world c <= 20 →
  ∃ c' g',
    _grant_dark_access c g sp w = (c', g', false)
    ∧ lock_state c' = lock_state c
    ∧ real_best_times c' = real_best_times c
    ∧ (∀ w' li', light_level_1_5 (w', li') → w' ≠ w →
         read_time g' sp w' li' "light" = read_time g sp w' li' "light")
    ∧ (∀ li, 0 <= li < 20 → _dark_level_unlocked c w li = Some true →
         ∀ real, real_best_times c !! (w, li) = Some real →
           is_a_plus real w li "light" = true →
           qgt (read_time g sp w li "light") 0 = true →
           read_time g' sp w li "light" = real).
Proof.
  intros Hw Hn. unfold _grant_dark_access.
  destruct (grant_fold_spec sp w (seqZ 0 20) c g) as
    (c' & g' & Hfold & Hls & Hrb & Hfr & Hres); [apply NoDup_seqZ| |done|].
  { apply Forall_forall. intros li Hli%elem_of_seqZ. split; cbn; lia. }
  exists c', g'. do 3 (split; [done|]). split.
  - intros w' li' Hlv Hne. by apply Hfr.
  - intros li Hli. apply Hres, elem_of_seqZ. lia.
Qed.

(** X17. A light A+ time that [_enforce_dark_locks] hid
    behind par plus the penalty comes back unchanged once the counts of
    dark access items unlock the level: [_grant_dark_access] for that
    world writes it back, and so does the next pass of
    [_enforce_dark_locks] on its own; neither raises. *)
Theorem dark_lock_round_trip (c : APClient) (g : GameInterface) (sp w li : Z)
    (counts : gmap Z Z) :
  dark_lock_enabled c = true →
  1 <= dark_unlocks_per_world c <= 20 →
  1 <= w <= 5 → 0 <= li < 20 →
  _dark_level_unlocked c w li = Some false →
  is_a_plus (read_time g sp w li "light") w li "light" = true →
  _dark_level_unlocked (set_dark_access_counts counts c) w li = Some true →
  ∃ c1 g1,
    _enforce_dark_locks c g sp = (c1, g1, false)
    ∧ is_a_plus (read_time g1 sp w li "light") w li "light" = false
    ∧ (∃ c2 g2,
         _grant_dark_access (set_dark_access_counts counts c1) g1 sp w
         = (c2, g2, false)
         ∧ read_time g2 sp w li "light" = read_time g sp w li "light")
    ∧ (∃ c2 g2,
         _enforce_dark_locks (set_dark_access_counts counts c1) g1 sp
         = (c2, g2, false)
         ∧ read_time g2 sp w li "light" = read_time g sp w li "light").
Proof.
  intros He Hn Hw Hli Hlocked Ha Hunl.
  destruct (enforce_dark_locks_spec c g sp He Hn) as (c1 & g1 & Heq & Hls & Hpost).
  destruct (Hpost w li (conj Hw Hli)) as [Hsup _].
  destruct (Hsup Hlocked) as [Hno Hrem].
  destruct (Hrem Ha) as (Hreal & par & Hpar & Ht1).
  pose proof (get_par_time_positive _ _ _ _ Hpar) as Hpos.
  unfold lock_state in Hls. injection Hls as Hle Hln Hlc.
  set (c1' := set_dark_access_counts counts c1).
  assert (_dark_level_unlocked c1' w li = Some true) as Hunl1.
  { rewrite <- Hunl. apply dark_level_unlocked_lock_state.
    unfold lock_state. cbn. by rewrite Hle, Hln. }
  assert (1 <= dark_unlocks_per_world c1' <= 20) as Hn1 by (cbn; by rewrite Hln).
  exists c1, g1. split; [done|]. split; [done|]. split.
  - destruct (grant_dark_access_spec c1' g1 sp w Hw Hn1)
      as (c2 & g2 & Heq2 & _ & _ & _ & Hres).
    exists c2, g2. split; [done|].
    apply (Hres li Hli Hunl1); [done|done|].
    rewrite Ht1. by apply qgt_penalty.
  - destruct (enforce_dark_locks_spec c1' g1 sp) as (c2 & g2 & Heq2 & _ & Hpost2);
      [cbn; congruence|done|].
    exists c2, g2. split; [done|].
    destruct (Hpost2 w li (conj Hw Hli)) as [_ Hres].
    destruct (Hres Hunl1 par Hpar) as [Hback _].
    apply Hback; [done| |].
    + rewrite (is_a_plus_test _ _ _ _ _ Hpar) in Ha.
      by apply andb_prop in Ha as [_ ?].
    + rewrite Ht1. apply qgt_penalty_par.
Qed.

(** Witness of X17: level 1-1 holds 2.5 seconds (par 3.0),
    four items per world, and the first dark access item of world 1
    arrives. *)
Lemma dark_lock_round_trip_witness :
  ∃ c1 g1,
    _enforce_dark_locks (set_dark_lock_enabled true init_client) aplus_game
      0x1000 = (c1, g1, false)
    ∧ is_a_plus (read_time g1 0x1000 1 0 "light") 1 0 "light" = false
    ∧ (∃ c2 g2,
         _grant_dark_access (set_dark_access_counts {[1 := 1]} c1) g1 0x1000 1
         = (c2, g2, false)
         ∧ read_time g2 0x1000 1 0 "light"
           = read_time aplus_game 0x1000 1 0 "light")
    ∧ (∃ c2 g2,
         _enforce_dark_locks (set_dark_access_counts {[1 := 1]} c1) g1 0x1000
         = (c2, g2, false)
         ∧ read_time g2 0x1000 1 0 "light"
           = read_time aplus_game 0x1000 1 0 "light").
Proof.
  apply (dark_lock_round_trip (set_dark_lock_enabled true init_client)
           aplus_game 0x1000 1 0 {[1 := 1]});
    [reflexivity
    |cbn [dark_unlocks_per_world set_dark_lock_enabled init_client]; lia
    |lia|lia|vm_compute; reflexivity..].
Defined.

End dark_locks.

(** ** What the enforcement blocks leave alone *)

Section enforcement_frame.

Lemma write_uchar_frame m a v m' :
  write_uchar m a v = Some m' →
  floats m' = floats m ∧ ∀ b, b ≠ a → bytes m' !! b = bytes m !! b.
Proof.
  unfold write_uchar. destruct (bytes m !! a); [|done]. intros [= <-].
  split; [done|]. intros b Hb. cbn. by rewrite lookup_insert_ne.
Qed.

Lemma write_uint_frame m a v m' :
  write_uint m a v = Some m' →
  floats m' = floats m
  ∧ ∀ b, ¬ (a <= b < a + 4) → bytes m' !! b = bytes m !! b.
Proof.
  unfold write_uint. intros H.
  destruct (write_uchar m a v) as [m1|] eqn:E1; [|done]. cbn in H.
  destruct (write_uchar m1 (a + 1) (v `div` 256)) as [m2|] eqn:E2; [|done].
  cbn in H.
  destruct (write_uchar m2 (a + 2) (v `div` 65536)) as [m3|] eqn:E3; [|done].
  cbn in H.
  apply write_uchar_frame in E1 as [F1 B1], E2 as [F2 B2], E3 as [F3 B3],
    H as [F4 B4].
  split; [congruence|]. intros b Hb.
  rewrite B4, B3, B2, B1 by lia. done.
Qed.

Lemma set_char_bitmask_frame g sp mask :
  bytes_agree (char_mask_addr sp) g (set_char_bitmask g sp mask)
  ∧ floats_agree g (set_char_bitmask g sp mask).
Proof.
  unfold set_char_bitmask, try_except, bytes_agree, floats_agree, peek_uchar,
    peek_float, char_mask_addr.
  destruct (pm g) as [m|] eqn:Hm; cbn [mbind option_bind default];
    [|by rewrite Hm].
  destruct (write_uint m (sp + CHARACTER_BITMASK_OFFSET) mask) as [m'|] eqn:E;
    cbn [mbind option_bind default pm set_pm]; [|by rewrite Hm].
  apply write_uint_frame in E as [F B]. unfold read_uchar, read_float.
  cbn [mbind option_bind pm set_pm id].
  split; [intros a Ha; by rewrite B|intros a; by rewrite F].
Qed.

Lemma set_world_unlock_frame g sp mask :
  bytes_agree (fun a => a = sp + ADDR_world_unlock) g
    (set_world_unlock g sp mask)
  ∧ floats_agree g (set_world_unlock g sp mask).
Proof.
  unfold set_world_unlock, try_except, bytes_agree, floats_agree, peek_uchar,
    peek_float.
  destruct (pm g) as [m|] eqn:Hm; cbn [mbind option_bind default];
    [|by rewrite Hm].
  destruct (write_uchar m (sp + ADDR_world_unlock) mask) as [m'|] eqn:E;
    cbn [mbind option_bind default pm set_pm]; [|by rewrite Hm].
  apply write_uchar_frame in E as [F B]. unfold read_uchar, read_float.
  cbn [mbind option_bind pm set_pm id].
  split; [intros a Ha; by rewrite B|intros a; by rewrite F].
Qed.

Lemma floats_agree_trans g1 g2 g3 :
  floats_agree g1 g2 → floats_agree g2 g3 → floats_agree g1 g3.
Proof. intros H1 H2 a. by rewrite H2, H1. Qed.

Lemma write_boss_counter_floats g sp w v :
  floats_agree g (write_boss_counter g sp w v).
Proof.
  intros a. unfold write_boss_counter, try_except, peek_float.
  destruct (BOSS_COUNTER_OFFSETS !! w) as [o|]; [|done].
  case_decide; [done|].
  destruct (pm g) as [m|] eqn:Hm; cbn [mbind option_bind default];
    [|by rewrite Hm].
  destruct (write_uchar m (sp + o) (Z.min v 255)) as [m'|] eqn:E;
    cbn [mbind option_bind default pm set_pm]; [|by rewrite Hm].
  apply write_uchar_frame in E as [F _]. unfold read_float.
  cbn [mbind option_bind pm set_pm id]. by rewrite F.
Qed.

Lemma enforce_boss_counters_floats c g sp costs :
  floats_agree g (_enforce_boss_counters c g sp costs).
Proof.
  unfold _enforce_boss_counters.
  assert (∀ l g0, floats_agree g0 (foldl (reraise_step sp) g0 l)) as H1.
  { induction l as [|w l IH]; intros g0; [done|].
    cbn [foldl]. eapply floats_agree_trans; [|apply IH].
    unfold reraise_step. repeat case_match;
      first [done | apply write_boss_counter_floats]. }
  assert (∀ l g0, floats_agree g0 (foldl (suppress_step c sp) g0 l)) as H2.
  { induction l as [|w l IH]; intros g0; [done|].
    cbn [foldl]. eapply floats_agree_trans; [|apply IH].
    unfold suppress_step. repeat case_match;
      first [done | apply write_boss_counter_floats]. }
  eapply floats_agree_trans; [apply H1|apply H2].
Qed.

Lemma read_comp_agree g g' sp w i r ca :
  comp_addr w i r = Some ca →
  peek_uchar g' (sp + ca) = peek_uchar g (sp + ca) →
  read_comp g' sp w i r = read_comp g sp w i r.
Proof.
  intros Hca H. unfold read_comp. rewrite Hca. case_decide; [done|].
  unfold peek_uchar in H. by rewrite H.
Qed.

Lemma read_time_agree g g' sp w i r :
  floats_agree g g' → read_time g' sp w i r = read_time g sp w i r.
Proof.
  intros H. unfold read_time. destruct (time_addr w i r) as [ta|]; [|done].
  case_decide; [done|]. specialize (H (sp + ta)). unfold peek_float in H.
  by rewrite H.
Qed.

Lemma low_not_boss_counter_addr sp a :
  a < sp + 0x38D8 → ¬ boss_counter_addr sp a.
Proof.
  intros Ha (w & o & Ho & ->). apply BOSS_COUNTER_OFFSETS_Some in Ho as [Hw ->].
  lia.
Qed.

Lemma enforcement_tail_frame opts c g sp :
  let g' :=
    (if dark_lock_enabled c
     then _enforce_dark_locks c
            (if boss_tokens_enabled opts
             then _enforce_boss_counters c g sp (boss_token_costs opts) else g) sp
     else (c, if boss_tokens_enabled opts
              then _enforce_boss_counters c g sp (boss_token_costs opts) else g,
           false)).1.2 in
  (∀ a, ¬ boss_counter_addr sp a → peek_uchar g' a = peek_uchar g a)
  ∧ ∀ w i r, has_slot w i r → ¬ (r = "light"%string ∧ 1 <= w <= 5) →
      read_time g' sp w i r = read_time g sp w i r.
Proof.
  intros g'. subst g'.
  set (g1 := if boss_tokens_enabled opts
             then _enforce_boss_counters c g sp (boss_token_costs opts) else g).
  assert (bytes_agree (boss_counter_addr sp) g g1 ∧ floats_agree g g1) as [Hb Hf].
  { subst g1. destruct (boss_tokens_enabled opts).
    - split; [apply enforce_boss_counters_bytes|apply enforce_boss_counters_floats].
    - split; [apply bytes_agree_refl|done]. }
  split.
  - intros a Ha. destruct (dark_lock_enabled c); cbn [fst snd].
    + rewrite enforce_dark_locks_bytes. by apply Hb.
    + by apply Hb.
  - intros w i r Hs Hnl. rewrite <- (read_time_agree g g1) by done.
    destruct (dark_lock_enabled c) eqn:Hd; cbn [fst snd]; [|done].
    unfold _enforce_dark_locks. rewrite Hd. cbn [negb].
    assert (∀ l acc, Forall light_level_1_5 l →
              read_time (foldl (enforce_dark_locks_step sp) acc l).1.2 sp w i r
              = read_time acc.1.2 sp w i r) as Hfold.
    { induction l as [|[w0 li0] l IH]; intros acc Hall; [done|].
      apply Forall_cons in Hall as [Hlv Hall]. cbn [foldl].
      rewrite IH by done. destruct acc as [[c0 g0] raised].
      assert (∀ v, read_time (write_time g0 sp w0 li0 "light" v) sp w i r
                   = read_time g0 sp w i r) as Hw.
      { intros v. apply read_time_write_time_ne.
        apply comp_addr_inj; [done|by apply light_level_has_slot|].
        intros [= -> -> ->]. apply Hnl. split; [done|]. apply Hlv. }
      unfold enforce_dark_locks_step.
      repeat case_match; cbn [fst snd]; rewrite ?Hw; done. }
    rewrite Hfold; [done|].
    apply Forall_forall. intros [w0 li0]. apply light_levels_1_5_elem.
Qed.

(** X23. The enforcement blocks of the main loop write
    masks, boss counters and light times of worlds 1 to 5 only: for every
    level with a save slot the completion byte reads the same after the
    world-select block and after the periodic block, its time reads the
    same unless it is a light level of worlds 1 to 5, and the periodic
    block leaves the world unlock byte as it is. *)
Theorem enforcement_keeps_save_slots (opts : options) (c : APClient)
    (game : GameInterface) (sp w i : Z) (r : string) :
  has_slot w i r →
  let gs := (enforce_on_world_select opts c game sp).1.2 in
  let gp := (enforce_periodically opts c game sp).1.2 in
  read_comp gs sp w i r = read_comp game sp w i r
  ∧ read_comp gp sp w i r = read_comp game sp w i r
  ∧ get_world_unlock gp sp = get_world_unlock game sp
  ∧ (¬ (r = "light"%string ∧ 1 <= w <= 5) →
     read_time gs sp w i r = read_time game sp w i r
     ∧ read_time gp sp w i r = read_time game sp w i r).
Proof.
  intros Hs gs gp.
  destruct (slot_addr w i r) as [a|] eqn:Ha;
    [|by rewrite (slot_addr_formula _ _ _ Hs) in Ha].
  destruct (slot_fields _ _ _ _ Hs Ha) as (Hca & _ & Hlo).
  unfold COMP_BYTE in Hca.
  destruct (set_world_unlock_frame game sp (world_bitmask (allowed_worlds c)))
    as [Hwb Hwf].
  set (g1 := set_world_unlock game sp (world_bitmask (allowed_worlds c))) in *.
  destruct (set_char_bitmask_frame g1 sp (character_bits c)) as [Hcb Hcf].
  destruct (set_char_bitmask_frame game sp (character_bits c)) as [Hcb' Hcf'].
  destruct (enforcement_tail_frame opts c
              (set_char_bitmask g1 sp (character_bits c)) sp) as [Hsb Hst].
  destruct (enforcement_tail_frame opts c
              (set_char_bitmask game sp (character_bits c)) sp) as [Hpb Hpt].
  cbn zeta in Hsb, Hst, Hpb, Hpt.
  assert (∀ a', a' < sp + 0x38D8 →
            peek_uchar gs a' = peek_uchar game a'
            ∧ peek_uchar gp a' = peek_uchar game a') as Hlow.
  { intros a' Ha'. subst gs gp.
    unfold enforce_on_world_select, enforce_periodically. cbn zeta. fold g1.
    rewrite Hsb, Hpb by (by apply low_not_boss_counter_addr).
    rewrite Hcb, Hcb', Hwb;
      unfold char_mask_addr, CHARACTER_BITMASK_OFFSET, ADDR_world_unlock;
      (done || lia). }
  split; [|split; [|split]].
  - apply (read_comp_agree _ _ _ _ _ _ _ Hca), Hlow. lia.
  - apply (read_comp_agree _ _ _ _ _ _ _ Hca), Hlow. lia.
  - subst gp. unfold enforce_periodically. cbn zeta.
    rewrite !get_world_unlock_peek, Hpb, Hcb'; [done|..].
    + unfold char_mask_addr, CHARACTER_BITMASK_OFFSET, ADDR_world_unlock. lia.
    + apply not_boss_counter_addr. unfold ADDR_world_unlock. lia.
  - intros Hnl. subst gs gp.
    unfold enforce_on_world_select, enforce_periodically. cbn zeta. fold g1.
    rewrite Hst, Hpt by done.
    split.
    + rewrite (read_time_agree g1) by done. by apply read_time_agree.
    + by apply read_time_agree.
Qed.

(** Witness of X23: level 1-1 on a client after
    [__init__]. *)
Lemma enforcement_keeps_save_slots_witness :
  let gs := (enforce_on_world_select plain_options init_client masks_game
               0x1000).1.2 in
  let gp := (enforce_periodically plain_options init_client masks_game
               0x1000).1.2 in
  read_comp gs 0x1000 1 0 "light" = read_comp masks_game 0x1000 1 0 "light"
  ∧ read_comp gp 0x1000 1 0 "light" = read_comp masks_game 0x1000 1 0 "light"
  ∧ get_world_unlock gp 0x1000 = get_world_unlock masks_game 0x1000
  ∧ (¬ ("light"%string = "light"%string ∧ 1 <= 1 <= 5) →
     read_time gs 0x1000 1 0 "light" = read_time masks_game 0x1000 1 0 "light"
     ∧ read_time gp 0x1000 1 0 "light"
       = read_time masks_game 0x1000 1 0 "light").
Proof.
  apply (enforcement_keeps_save_slots plain_options init_client masks_game
           0x1000 1 0 "light").
  apply has_slot_iff. left. repeat split; auto; lia.
Defined.

(** X12. When the four bytes of the character bitmask
    are mapped, [get_char_bitmask] reads back what [set_char_bitmask] wrote,
    modulo 2^32: the little-endian encoding of the write and the decoding
    of the read are inverse, so a mask below 2^32 comes back unchanged.
    The write changes no byte outside those four and no time. *)
Theorem char_bitmask_round_trip (g : GameInterface) (sp mask : Z) (m : Pymem) :
  pm g = Some m →
  (∀ k, 0 <= k < 4 → is_Some (bytes m !! (sp + CHARACTER_BITMASK_OFFSET + k))) →
  get_char_bitmask (set_char_bitmask g sp mask) sp = mask `mod` 2 ^ 32
  ∧ bytes_agree (char_mask_addr sp) g (set_char_bitmask g sp mask)
  ∧ floats_agree g (set_char_bitmask g sp mask).
Proof.
  intros Hm Hb. split; [by eapply char_bitmask_write_read|].
  apply set_char_bitmask_frame.
Qed.

(** Witness of X12: Meat Boy and Commander Video. *)
Lemma char_bitmask_round_trip_witness :
  let g := mkGame (Some (mkPymem
             (list_to_map [(0x1000 + 0x3950, 0); (0x1000 + 0x3951, 0);
                           (0x1000 + 0x3952, 0); (0x1000 + 0x3953, 0)]) ∅))
             0 true in
  get_char_bitmask (set_char_bitmask g 0x1000 2049) 0x1000 = 2049 `mod` 2 ^ 32
  ∧ bytes_agree (char_mask_addr 0x1000) g (set_char_bitmask g 0x1000 2049)
  ∧ floats_agree g (set_char_bitmask g 0x1000 2049).
Proof.
  eapply char_bitmask_round_trip; [reflexivity|].
  intros k Hk.
  assert (k = 0 ∨ k = 1 ∨ k = 2 ∨ k = 3) as [->|[->|[->| ->]]] by lia;
    eexists; vm_compute; reflexivity.
Defined.

End enforcement_frame.

(** ** Names *)

Section names.

Lemma insert_entries_lookup (entries : list (string * Z)) (m : gmap Z string)
    (id : Z) :
  foldl (fun m '(name, id) => <[id := name]> m) m entries !! id
  = match last_name entries id with
    | Some name => Some name
    | None => m !! id
    end.
Proof.
  unfold last_name. revert m.
  induction entries as [|[name id'] entries IH]; intros m; [by cbn|].
  cbn [foldl]. rewrite IH. rewrite filter_cons. cbn [snd].
  case_decide as Hid.
  - subst id'. destruct (filter _ entries) as [|e l] eqn:E.
    + cbn. by rewrite lookup_insert_eq.
    + change (last ((name, id) :: e :: l)) with (last (e :: l)).
      destruct (last (e :: l)) eqn:El; [done|]. by apply last_None in El.
  - destruct (last (filter _ entries)); cbn; [done|].
    by rewrite lookup_insert_ne.
Qed.

Lemma handle_data_package_fields data ib :
  items_received (handle_data_package data ib) = items_received ib
  ∧ items_processed (handle_data_package data ib) = items_processed ib
  ∧ players (handle_data_package data ib) = players ib
  ∧ all_items (handle_data_package data ib)
    = foldl (fun m '(name, id) => <[id := name]> m) (all_items ib)
        (package_items data)
  ∧ all_locations (handle_data_package data ib)
    = foldl (fun m '(name, id) => <[id := name]> m) (all_locations ib)
        (package_locations data).
Proof.
  unfold handle_data_package, package_items, package_locations. revert ib.
  induction data as [|[gname [items locations]] data IH]; intros ib; [done|].
  cbn [foldl mbind list_bind]. 
  destruct (IH (mkInbox (items_received ib) (items_processed ib) (players ib)
     (foldl (fun m '(name, id) => <[id := name]> m) (all_items ib) items)
     (foldl (fun m '(name, id) => <[id := name]> m) (all_locations ib) locations)))
    as (H1 & H2 & H3 & H4 & H5).
  rewrite H1, H2, H3, H4, H5. cbn. rewrite !foldl_app. done.
Qed.

Lemma handled_item_named iid : handled_item iid → is_Some (ITEM_NAMES !! iid).
Proof.
  assert (forallb (fun iid => bool_decide (is_Some (ITEM_NAMES !! iid)))
            (ITEM_BANDAGE :: (map_to_list WORLD_ACCESS_ITEM_IDS).*1
             ++ (map_to_list CHARACTER_ITEMS).*1
             ++ (map_to_list BOSS_TOKEN_IDS).*1
             ++ (map_to_list DARK_ACCESS_IDS).*1) = true) as H
    by (vm_compute; reflexivity).
  rewrite forallb_forall in H.
  intros Hh. apply (bool_decide_eq_true _), H, list_elem_of_In.
  assert (∀ (m : gmap Z Z), is_Some (m !! iid) → iid ∈ (map_to_list m).*1) as Hm.
  { intros m [v Hv]. apply list_elem_of_fmap. exists (iid, v).
    split; [done|]. by apply elem_of_map_to_list. }
  destruct Hh as [?|[->|[?|[?|?]]]]; [right|by left|right..];
    rewrite !elem_of_app; auto.
Qed.

(** X18. The DataPackage handler leaves the item queue and the
    players alone and merges the names by id: afterwards [get_item_name]
    and [get_location_name_by_id] give, for an id the package names, the
    name of its last entry in package order (over all games of the
    package), and for any other id what they gave before. Without a
    package name every item the item handlers act on has a built-in name,
    and [get_player_name] falls back to ["Player <id>"]. *)
Theorem data_package_names
    (data : list (string * (list (string * Z) * list (string * Z))))
    (ib : inbox) (id : Z) :
  let ib' := handle_data_package data ib in
  items_received ib' = items_received ib
  ∧ items_processed ib' = items_processed ib
  ∧ players ib' = players ib
  ∧ get_item_name ib' id
    = default (get_item_name ib id) (last_name (package_items data) id)
  ∧ get_location_name_by_id ib' id
    = default (get_location_name_by_id ib id)
        (last_name (package_locations data) id)
  ∧ (handled_item id → all_items ib !! id = None →
     Some (get_item_name ib id) = ITEM_NAMES !! id)
  ∧ (players ib !! id = None →
     get_player_name ib id = ("Player " +:+ py_str id)%string).
Proof.
  intros ib'. subst ib'.
  destruct (handle_data_package_fields data ib) as (H1 & H2 & H3 & H4 & H5).
  do 3 (split; [done|]). split; [|split; [|split]].
  - unfold get_item_name. rewrite H4, insert_entries_lookup.
    by destruct (last_name (package_items data) id).
  - unfold get_location_name_by_id. rewrite H5, insert_entries_lookup.
    by destruct (last_name (package_locations data) id).
  - intros Hh Hnone. unfold get_item_name. rewrite Hnone.
    by destruct (handled_item_named id Hh) as [name ->].
  - intros Hnone. unfold get_player_name. by rewrite Hnone.
Qed.

End names.

(** ** Fire-once checks *)

Lemma filter_ext_in {A} (P Q : A → Prop) `{!∀ x, Decision (P x)}
    `{!∀ x, Decision (Q x)} (l : list A) :
  (∀ x, x ∈ l → P x ↔ Q x) → filter P l = filter Q l.
Proof.
  induction l as [|a l IH]; intros Hpq; [done|].
  rewrite !filter_cons. rewrite IH by (intros x Hx; apply Hpq; by right).
  apply decide_ext, Hpq. by left.
Qed.

Lemma filter_none {A} (P : A → Prop) `{!∀ x, Decision (P x)} (l : list A) :
  (∀ x, x ∈ l → ¬ P x) → filter P l = [].
Proof.
  induction l as [|a l IH]; intros Hp; [done|].
  rewrite filter_cons, decide_False by (apply Hp; by left).
  apply IH. intros x Hx. apply Hp. by right.
Qed.

Lemma foldl_ext_eq {A B} (f g : A → B → A) (a : A) (l : list B) :
  (∀ a x, f a x = g a x) → foldl f a l = foldl g a l.
Proof.
  intros Hfg. revert a. induction l as [|x l IH]; intros a; [done|].
  cbn [foldl]. by rewrite Hfg, IH.
Qed.

Section guarded_folds.
Context {X S : Type} (mem : X → S → bool) (add : X → S → S)
  (fires : X → bool) (ids : X → list Z) (ls : X → list log_line).

Lemma marks_ok_cons x l : marks_ok mem add (x :: l) → marks_ok mem add l.
Proof.
  intros [H1 H2]. split; [done|]. intros a b s Ha Hb. apply H2; by right.
Qed.

Lemma fired_add_ne x l s :
  marks_ok mem add (x :: l) → x ∉ l → fired mem fires (add x s) l = fired mem fires s l.
Proof.
  intros [_ H2] Hx. unfold fired. apply filter_ext_in. intros y Hy.
  rewrite (H2 x y s); [done|by left|by right|]. intros ->. done.
Qed.

Lemma guarded_fold_closed (l : list X) checks s lines :
  NoDup l → marks_ok mem add l →
  foldl (guarded_step mem add fires ids ls) (checks, s, lines) l
  = (checks ++ (fired mem fires s l ≫= ids),
     foldl (flip add) s (fired mem fires s l),
     lines ++ (fired mem fires s l ≫= ls)).
Proof.
  revert checks s lines.
  induction l as [|x l IH]; intros checks s lines Hnd Hok.
  { cbn. by rewrite !app_nil_r. }
  apply NoDup_cons in Hnd as [Hx Hnd].
  pose proof (marks_ok_cons _ _ Hok) as Hok'.
  cbn [foldl guarded_step]. unfold fired at 1 2 3. rewrite filter_cons.
  fold (fired mem fires s l).
  destruct (mem x s) eqn:Hm.
  - rewrite decide_False by (intros [? _]; done). by apply IH.
  - destruct (fires x) eqn:Hf.
    + rewrite decide_True by done. rewrite IH by done.
      rewrite (fired_add_ne x l s Hok Hx).
      cbn [mbind list_bind foldl flip]. by rewrite <- !app_assoc.
    + rewrite decide_False by (intros [_ ?]; done). by apply IH.
Qed.

Lemma fold_add_mem (l l' : list X) s y :
  marks_ok mem add l → l' ⊆ l → y ∈ l → y ∉ l' →
  mem y (foldl (flip add) s l') = mem y s.
Proof.
  intros [_ H2] Hsub Hy. revert s.
  induction l' as [|x l' IH]; intros s Hni; [done|].
  apply not_elem_of_cons in Hni as [Hne Hni].
  cbn [foldl flip]. rewrite IH; [|set_solver|done].
  apply H2; [set_solver|done|done].
Qed.

Lemma fold_add_mem_in (l l' : list X) s y :
  marks_ok mem add l → NoDup l' → l' ⊆ l → y ∈ l' →
  mem y (foldl (flip add) s l') = true.
Proof.
  intros Hok Hnd Hsub. revert s.
  induction l' as [|x l' IH]; intros s Hin; [by apply elem_of_nil in Hin|].
  apply NoDup_cons in Hnd as [Hx Hnd].
  cbn [foldl flip]. apply elem_of_cons in Hin as [->|Hin].
  - rewrite (fold_add_mem l l'); [by apply Hok|done|set_solver|set_solver|done].
  - apply IH; [done|set_solver|done].
Qed.

(** After the loop an entry of [l] is marked exactly when it was marked
    before or its condition holds. *)
Lemma guarded_fold_mem (l : list X) s y :
  NoDup l → marks_ok mem add l → y ∈ l →
  mem y (foldl (flip add) s (fired mem fires s l)) = mem y s || fires y.
Proof.
  intros Hnd Hok Hy.
  assert (fired mem fires s l ⊆ l) as Hsub.
  { intros x Hx. by apply list_elem_of_filter in Hx as [_ ?]. }
  destruct (mem y s) eqn:Hm.
  - rewrite (fold_add_mem l); [done..|].
    intros Hin. apply list_elem_of_filter in Hin as [[Hm' _] _]. congruence.
  - destruct (fires y) eqn:Hf.
    + rewrite (fold_add_mem_in l); [done|done|by apply NoDup_filter|done|].
      by apply list_elem_of_filter.
    + rewrite (fold_add_mem l); [done..|].
      intros Hin. apply list_elem_of_filter in Hin as [[_ Hf'] _]. congruence.
Qed.

(** A second run over the same entries fires nothing. *)
Lemma fired_again (l : list X) s :
  NoDup l → marks_ok mem add l →
  fired mem fires (foldl (flip add) s (fired mem fires s l)) l = [].
Proof.
  intros Hnd Hok. apply filter_none. intros y Hy [Hm Hf].
  rewrite guarded_fold_mem in Hm by done. rewrite Hf, orb_true_r in Hm. done.
Qed.

End guarded_folds.

(** The marks kept in a Python set: an entry is marked through its key. *)
Lemma set_marks_ok {X K} `{Countable K} (k : X → K) (l : list X) :
  (∀ x y, x ∈ l → y ∈ l → x ≠ y → k x ≠ k y) →
  marks_ok (key_mem k) (key_add k) l.
Proof.
  intros Hk. unfold key_mem, key_add. split.
  - intros x s. apply bool_decide_eq_true. set_solver.
  - intros x y s Hx Hy Hne. apply bool_decide_ext.
    specialize (Hk x y Hx Hy Hne). set_solver.
Qed.

Lemma set_marks_fold {X K} `{Countable K} (k : X → K) (l : list X)
    (s : gset K) :
  foldl (flip (key_add k)) s l = s ∪ list_to_set (k <$> l).
Proof.
  revert s. induction l as [|x l IH]; intros s; cbn [foldl flip fmap list_fmap].
  - set_solver.
  - rewrite IH. unfold key_add. set_solver.
Qed.

Lemma bind_optional {X} (b : X → bool) (f : X → Z) (l : list X) :
  l ≫= (fun x => if b x then [f x] else []) = f <$> filter (fun x => b x = true) l.
Proof.
  induction l as [|x l IH]; [done|].
  rewrite bind_cons, IH, filter_cons.
  destruct (b x); [by rewrite decide_True|by rewrite decide_False].
Qed.

Section warp_checks.
Context (c : APClient) (game : GameInterface) (sp world : Z).

Lemma check_warp_zone_guarded acc zone_idx :
  check_warp_zone c game sp world acc zone_idx
  = guarded_step
      (key_mem (fun z => (world, z))) (key_add (fun z => (world, z)))
      (zone_done game sp world)
      (fun z => unchecked c (warp_completion_location_id world z)
                  (warp_completion_location_id world z))
      (fun z => unchecked c (warp_completion_location_id world z)
                  (LineWarpComplete
                     (default ("Zone " +:+ py_str z)%string
                        (WARP_ZONE_NAMES !! (world, z)))))
      acc zone_idx.
Proof.
  destruct acc as [[checks wc] lines].
  unfold check_warp_zone, guarded_step, key_mem, key_add, unchecked.
  repeat case_match; rewrite ?app_nil_r; done.
Qed.

Lemma check_warp_completion_closed checks wc :
  let done_now :=
    filter (fun z => (world, z) ∉ wc ∧ zone_done game sp world z = true)
      (seqZ 0 4) in
  world <= 5 →
  ∃ lines,
    _check_warp_completion c game sp world checks true wc
    = (checks ++ (warp_completion_location_id world
                    <$> filter (fun z => warp_completion_location_id world z
                                         ∉ locations_checked c) done_now),
       wc ∪ list_to_set ((fun z => (world, z)) <$> done_now), lines)
    ∧ (done_now = [] → lines = []).
Proof.
  intros done_now Hw. unfold _check_warp_completion.
  rewrite bool_decide_eq_false_2 by lia. cbn [negb orb].
  rewrite (foldl_ext_eq _ _ _ _ check_warp_zone_guarded).
  rewrite guarded_fold_closed;
    [|apply NoDup_seqZ|apply set_marks_ok; intros; congruence].
  rewrite set_marks_fold. unfold unchecked at 1. rewrite bind_optional.
  assert (fired (key_mem (fun z => (world, z)))
            (zone_done game sp world) wc (seqZ 0 4) = done_now) as ->.
  { unfold fired, done_now, key_mem. apply list_filter_iff. intros z.
    rewrite bool_decide_eq_false. done. }
  eexists. split.
  - f_equal. f_equal. f_equal. f_equal. apply list_filter_iff. intros z.
    by rewrite bool_decide_eq_true.
  - by intros ->.
Qed.

Lemma done_zones_elem (wc : gset (Z * Z)) z :
  z ∈ filter (fun z => (world, z) ∉ wc ∧ zone_done game sp world z = true)
        (seqZ 0 4)
  ↔ 0 <= z < 4 ∧ (world, z) ∉ wc ∧ zone_done game sp world z = true.
Proof. rewrite list_elem_of_filter, elem_of_seqZ. naive_solver lia. Qed.

End warp_checks.

(** X19. [_check_warp_completion] only appends to [checks]:
    the new ids are pairwise different and are exactly the completion ids
    of the zones 0 to 3 of the world whose three sub-levels are complete,
    that were not in [warps_completed] and whose id is not in
    [locations_checked] (none when the option is off or the world is above
    5). Afterwards [warps_completed] holds what it held plus every complete
    zone of the world, so a second call appends and logs nothing. *)
Theorem check_warp_completion_fire_once (c : APClient) (game : GameInterface)
    (sp world : Z) (checks : list Z) (enabled : bool) (wc : gset (Z * Z)) :
  let r := _check_warp_completion c game sp world checks enabled wc in
  (∃ new, r.1.1 = checks ++ new ∧ NoDup new
     ∧ ∀ id, id ∈ new
         ↔ ∃ z, 0 <= z < 4 ∧ id = warp_completion_location_id world z
                ∧ enabled = true ∧ world <= 5 ∧ (world, z) ∉ wc
                ∧ zone_done game sp world z = true
                ∧ id ∉ locations_checked c)
  ∧ (∀ wz, wz ∈ r.1.2
       ↔ wz ∈ wc ∨ (enabled = true ∧ world <= 5
                    ∧ ∃ z, 0 <= z < 4 ∧ wz = (world, z)
                           ∧ zone_done game sp world z = true))
  ∧ _check_warp_completion c game sp world r.1.1 enabled r.1.2
    = (r.1.1, r.1.2, []).
Proof.
  intros r. subst r.
  destruct enabled; [destruct (decide (world <= 5)) as [Hw|Hw]|].
  - destruct (check_warp_completion_closed c game sp world checks wc Hw)
      as (lines & -> & _).
    cbn [fst snd].
    set (done_now := filter _ (seqZ 0 4)).
    set (wc' := wc ∪ list_to_set ((fun z => (world, z)) <$> done_now)).
    assert (∀ wz, wz ∈ wc'
              ↔ wz ∈ wc ∨ ∃ z, 0 <= z < 4 ∧ wz = (world, z)
                               ∧ zone_done game sp world z = true) as Hwc.
    { intros wz. unfold wc'.
      rewrite elem_of_union, elem_of_list_to_set, list_elem_of_fmap.
      split.
      - intros [?|(z & -> & Hz)]; [by left|].
        apply done_zones_elem in Hz. right. exists z. naive_solver.
      - intros [?|(z & Hz & -> & Hd)]; [by left|].
        destruct (decide ((world, z) ∈ wc)); [by left|].
        right. exists z. split; [done|]. by apply done_zones_elem. }
    split; [|split].
    + eexists. split; [reflexivity|]. split.
      * apply NoDup_fmap_2.
        { intros z1 z2. unfold warp_completion_location_id. lia. }
        apply NoDup_filter, NoDup_filter, NoDup_seqZ.
      * intros id. rewrite list_elem_of_fmap. split.
        -- intros (z & -> & Hz). apply list_elem_of_filter in Hz as [Hid Hz].
           apply done_zones_elem in Hz. exists z. naive_solver.
        -- intros (z & Hz & -> & _ & _ & Hni & Hd & Hid). exists z.
           split; [done|]. apply list_elem_of_filter. split; [done|].
           by apply done_zones_elem.
    + intros wz. rewrite Hwc. naive_solver.
    + destruct (check_warp_completion_closed c game sp world
                  (checks ++ (warp_completion_location_id world
                     <$> filter (fun z => warp_completion_location_id world z
                                          ∉ locations_checked c) done_now))
                  wc' Hw) as (lines' & -> & Hnil).
      assert (filter (fun z => (world, z) ∉ wc'
                               ∧ zone_done game sp world z = true) (seqZ 0 4)
              = []) as Hno.
      { apply filter_none. intros z Hz [Hni Hd]. apply Hni, Hwc.
        apply elem_of_seqZ in Hz. right. exists z. split; [lia|done]. }
      rewrite (Hnil Hno), Hno. cbn. rewrite app_nil_r.
      f_equal. f_equal. set_solver.
  - unfold _check_warp_completion. rewrite bool_decide_eq_true_2 by lia.
    cbn [negb orb fst snd]. split; [|split; [|done]].
    + exists []. rewrite app_nil_r. split; [done|]. split; [constructor|].
      intros id. split; [by intros ?%elem_of_nil|]. intros (z & ?). lia.
    + intros wz. split; [by left|]. intros [?|(? & ? & ?)]; [done|lia].
  - unfold _check_warp_completion. cbn [negb orb fst snd].
    split; [|split; [|done]].
    + exists []. rewrite app_nil_r. split; [done|]. split; [constructor|].
      intros id. split; [by intros ?%elem_of_nil|]. by intros (z & ? & ? & ? & ?).
    + intros wz. split; [by left|]. by intros [?|(? & ?)].
Qed.

(** X20. The character of a world hangs on the three warp
    slots of warp zone 1: [_check_character_unlock] marks the world exactly
    when it was marked, or the option is on, the world is 1 to 5 and zone 1
    is complete. It appends the unlock id at most once, only when it newly
    marks the world and the id is not in [locations_checked], and a second
    call changes nothing. *)
Theorem check_character_unlock_fire_once (c : APClient) (game : GameInterface)
    (sp world : Z) (checks : list Z) (enabled : bool) (cu : gset Z) :
  let r := _check_character_unlock c game sp world checks enabled cu in
  (world ∈ r.1.2
   ↔ world ∈ cu ∨ (enabled = true ∧ 1 <= world <= 5
                   ∧ zone_done game sp world 1 = true))
  ∧ (∀ w, w ≠ world → w ∈ r.1.2 ↔ w ∈ cu)
  ∧ r.1.1
    = (if bool_decide (world ∈ r.1.2 ∧ world ∉ cu
                       ∧ character_unlock_location_id world
                         ∉ locations_checked c)
       then checks ++ [character_unlock_location_id world] else checks)
  ∧ _check_character_unlock c game sp world r.1.1 enabled r.1.2
    = (r.1.1, r.1.2, []).
Proof.
  intros r. subst r. unfold _check_character_unlock.
  change (slots_complete game sp world "warp" CHARACTER_WARP_SLOTS)
    with (zone_done game sp world 1).
  assert (is_Some (CHARACTER_WARPS !! world) ↔ 1 <= world <= 5) as Hdom.
  { split.
    - intros [[char_name n] Hcw]. apply elem_of_list_to_map_2 in Hcw.
      repeat (apply elem_of_cons in Hcw as [Hcw|Hcw];
              [injection Hcw as Hcw _ _; lia|]).
      by apply elem_of_nil in Hcw.
    - intros Hw.
      assert (world = 1 ∨ world = 2 ∨ world = 3 ∨ world = 4 ∨ world = 5)
        as [->|[->|[->|[->| ->]]]] by lia; by eexists. }
  destruct (CHARACTER_WARPS !! world) as [[char_name n]|].
  - assert (1 <= world <= 5) as Hw by (by apply Hdom).
    destruct enabled; cbn [negb fst snd].
    + destruct (bool_decide (world ∈ cu)) eqn:Hcu;
        [apply bool_decide_eq_true in Hcu|apply bool_decide_eq_false in Hcu];
        [|destruct (zone_done game sp world 1) eqn:Hd;
          [destruct (bool_decide (character_unlock_location_id world
                                  ∉ locations_checked c)) eqn:Hid;
           [apply bool_decide_eq_true in Hid
           |apply bool_decide_eq_false in Hid]|]];
        cbn [fst snd];
        (split; [try set_solver; naive_solver|]);
        (split; [set_solver|]);
        (split; [case_bool_decide as Hb; try done; exfalso;
                 first [apply Hb; set_solver|naive_solver]|]);
        repeat case_bool_decide; try done; exfalso; set_solver.
    + split; [naive_solver|]. split; [done|]. split; [|done].
      case_bool_decide; [naive_solver|done].
  - assert (¬ 1 <= world <= 5) as Hw.
    { intros Hw. apply Hdom in Hw. by destruct Hw. }
    cbn [fst snd]. split; [naive_solver|]. split; [done|]. split; [|done].
    case_bool_decide; [naive_solver|done].
Qed.

Lemma bind_sublist {X} (P : X → Prop) `{!∀ x, Decision (P x)}
    (ids : X → list Z) (id_of : X → Z) (l : list X) :
  (∀ x, ids x = [] ∨ ids x = [id_of x]) →
  (filter P l ≫= ids) `sublist_of` (id_of <$> l).
Proof.
  intros Hids. induction l as [|x l IH]; [done|].
  rewrite filter_cons, fmap_cons. case_decide.
  - rewrite bind_cons. destruct (Hids x) as [-> | ->]; cbn [app].
    + by apply sublist_cons.
    + by apply sublist_skip.
  - by apply sublist_cons.
Qed.

Lemma guarded_fire_once {X S} (mem : X → S → bool) (add : X → S → S)
    (fires : X → bool) (ids : X → list Z) (ls : X → list log_line)
    (id_of : X → Z) (checked : gset Z) (l : list X) (s : S) :
  NoDup l → marks_ok mem add l →
  (∀ x, ids x = [] ∨ (ids x = [id_of x] ∧ id_of x ∉ checked)) →
  fire_once (fun acc => foldl (guarded_step mem add fires ids ls) acc l)
    (id_of <$> l) checked s
    (fired mem fires s l ≫= ids)
    (foldl (flip add) s (fired mem fires s l)).
Proof.
  intros Hnd Hok Hids. split; [|split; [|split]].
  - intros checks lines. eexists. by apply guarded_fold_closed.
  - apply bind_sublist. intros x. destruct (Hids x) as [?|[? _]]; auto.
  - intros id Hid. apply list_elem_of_bind in Hid as (x & Hid & _).
    destruct (Hids x) as [Hx|[Hx Hc]]; rewrite Hx in Hid.
    + by apply elem_of_nil in Hid.
    + by apply list_elem_of_singleton in Hid as ->.
  - intros checks lines. rewrite guarded_fold_closed by done.
    rewrite fired_again by done. cbn. by rewrite !app_nil_r.
Qed.

Lemma unchecked_ids c id :
  unchecked c id id = [] ∨ (unchecked c id id = [id] ∧ id ∉ locations_checked c).
Proof. unfold unchecked. case_bool_decide; auto. Qed.

Lemma seq_fire_once {S1 S2} (ph1 : phase S1) (ph2 : phase S2) all1 all2
    checked s1 s2 n1 n2 s1' s2' :
  fire_once ph1 all1 checked s1 n1 s1' →
  fire_once ph2 all2 checked s2 n2 s2' →
  fire_once (seq_phase ph1 ph2) (all1 ++ all2) checked (s1, s2) (n1 ++ n2)
    (s1', s2').
Proof.
  intros (Hr1 & Hs1 & Hc1 & Hi1) (Hr2 & Hs2 & Hc2 & Hi2).
  split; [|split; [|split]].
  - intros checks lines. unfold seq_phase.
    destruct (Hr1 checks lines) as [l1 ->].
    destruct (Hr2 (checks ++ n1) (lines ++ l1)) as [l2 ->].
    exists (l1 ++ l2). by rewrite !app_assoc.
  - by apply sublist_app.
  - intros id [?|?]%elem_of_app; auto.
  - intros checks lines. unfold seq_phase. by rewrite Hi1, Hi2.
Qed.

Lemma opt_fire_once {S} (ph : phase S) all checked :
  (∀ s, ∃ new s', fire_once ph all checked s new s') →
  ∀ o, ∃ new o', fire_once (opt_phase ph) all checked o new o'.
Proof.
  intros Hph [s|].
  - destruct (Hph s) as (new & s' & Hr & Hs & Hc & Hi).
    exists new, (Some s'). split; [|split; [|split]]; [|done|done|].
    + intros checks lines. unfold opt_phase.
      destruct (Hr checks lines) as [l ->]. by exists l.
    + intros checks lines. unfold opt_phase. by rewrite Hi.
  - exists [], None. split; [|split; [|split]].
    + intros checks lines. exists []. by rewrite !app_nil_r.
    + apply sublist_nil_l.
    + by intros id ?%elem_of_nil.
    + done.
Qed.

Lemma when_fire_once {S} (b : bool) (ph : phase S) all checked :
  (∀ s, ∃ new s', fire_once ph all checked s new s') →
  ∀ s, ∃ new s', fire_once (when_phase b ph) all checked s new s'.
Proof.
  intros Hph s. destruct b; [apply Hph|].
  exists [], s. split; [|split; [|split]].
  - intros checks lines. exists []. by rewrite !app_nil_r.
  - apply sublist_nil_l.
  - by intros id ?%elem_of_nil.
  - done.
Qed.

Section achievements.
Context (c : APClient) (game : GameInterface) (sp : Z).

Lemma check_world_clear_guarded dark w checks wc wdc lines :
  let r := guarded_step clear_mem clear_add (clear_fires game sp)
             (clear_ids c) (clear_lines c)
             (checks, (wc, wdc), lines) (w, dark) in
  check_world_clear c game sp dark w
    (checks, (if dark then wdc else wc), lines)
  = (r.1.1, (if dark then r.1.2.2 else r.1.2.1), r.2)
  ∧ (if dark then r.1.2.1 else r.1.2.2) = (if dark then wc else wdc).
Proof.
  unfold check_world_clear, guarded_step, clear_mem, clear_add, clear_fires,
    clear_ids, clear_lines, unchecked. cbn [fst snd].
  destruct dark; repeat case_bool_decide; try done;
    repeat case_match; rewrite ?app_nil_r; done.
Qed.

Lemma check_world_clears_fold (l : list Z) checks wc wdc lines :
  foldl (fun '(checks, wc, wdc, lines) w =>
    let '(checks, wc, lines) :=
      check_world_clear c game sp false w (checks, wc, lines) in
    let '(checks, wdc, lines) :=
      check_world_clear c game sp true w (checks, wdc, lines) in
    (checks, wc, wdc, lines))
    (checks, wc, wdc, lines) l
  = let r := foldl (guarded_step clear_mem clear_add (clear_fires game sp)
                      (clear_ids c) (clear_lines c))
               (checks, (wc, wdc), lines) (w ← l; [(w, false); (w, true)]) in
    (r.1.1, r.1.2.1, r.1.2.2, r.2).
Proof.
  revert checks wc wdc lines.
  induction l as [|w l IH]; intros checks wc wdc lines; [done|].
  rewrite bind_cons. cbn [foldl app].
  destruct (check_world_clear_guarded false w checks wc wdc lines) as [H1 H1'].
  cbn zeta in H1, H1'. cbn [fst snd] in H1, H1'.
  destruct (guarded_step clear_mem clear_add (clear_fires game sp)
              (clear_ids c) (clear_lines c)
              (checks, (wc, wdc), lines) (w, false))
    as [[checks1 [wc1 wdc1]] lines1] eqn:E1.
  cbn [fst snd] in H1, H1'. subst wdc1. rewrite H1.
  destruct (check_world_clear_guarded true w checks1 wc1 wdc lines1) as [H2 H2'].
  cbn zeta in H2, H2'. cbn [fst snd] in H2, H2'.
  destruct (guarded_step clear_mem clear_add (clear_fires game sp)
              (clear_ids c) (clear_lines c)
              (checks1, (wc1, wdc), lines1) (w, true))
    as [[checks2 [wc2 wdc2]] lines2] eqn:E2.
  cbn [fst snd] in H2, H2'. subst wc2. rewrite H2. apply IH.
Qed.

Lemma clear_marks_ok (l : list (Z * bool)) : marks_ok clear_mem clear_add l.
Proof.
  split.
  - intros [w []] [wc wdc]; apply bool_decide_eq_true; cbn; set_solver.
  - intros [w []] [w' []] [wc wdc] _ _ Hne; apply bool_decide_ext; cbn;
      [|done|done|]; assert (w ≠ w') by congruence; set_solver.
Qed.

Lemma clear_entries_NoDup : NoDup clear_entries.
Proof. apply (bool_decide_unpack _). vm_compute. reflexivity. Qed.

Lemma check_bandage_milestone_guarded acc m :
  check_bandage_milestone c acc m
  = guarded_step (key_mem id) (key_add id)
      (fun m => bool_decide (bandage_count c >= m))
      (fun m => unchecked c (bandage_milestone_location_id m)
                  (bandage_milestone_location_id m))
      (fun m => unchecked c (bandage_milestone_location_id m)
                  (LineBandageMilestone m)) acc m.
Proof.
  destruct acc as [[checks s] lines].
  unfold check_bandage_milestone, guarded_step, key_mem, key_add, unchecked, id.
  repeat case_match; rewrite ?app_nil_r; done.
Qed.

Lemma check_warp_milestone_guarded acc it :
  check_warp_milestone c (count_warps_done game sp) acc it
  = guarded_step (key_mem fst) (key_add fst)
      (fun it : Z * Z => bool_decide (count_warps_done game sp >= it.1))
      (fun it => unchecked c it.2 it.2)
      (fun it => unchecked c it.2
                   (LineWarpMilestone (WARP_MILESTONE_NAMES !!! it.1)
                      (count_warps_done game sp))) acc it.
Proof.
  destruct acc as [[checks s] lines]. destruct it as [threshold loc_id].
  unfold check_warp_milestone, guarded_step, key_mem, key_add, unchecked.
  cbn [fst snd]. repeat case_match; rewrite ?app_nil_r; done.
Qed.

Lemma check_world_aplus_guarded acc w :
  check_world_aplus c game sp acc w
  = guarded_step (key_mem id) (key_add id) (world_aplus_fires c game sp)
      (fun w => unchecked c (world_aplus_id w) (world_aplus_id w))
      (fun w => unchecked c (world_aplus_id w)
                  (LineWorldAplus (WORLD_APLUS_NAMES !!! w) (world_label w)))
      acc w.
Proof.
  destruct acc as [[checks s] lines].
  unfold check_world_aplus, guarded_step, key_mem, key_add, unchecked, id,
    world_aplus_fires, world_aplus_id.
  destruct (bool_decide (w ∈ s)); [done|].
  destruct (WORLD_APLUS_LOCS !! w) as [loc_id|]; [|done]. cbn [default].
  destruct (truthy loc_id); cbn [negb orb andb]; [|done].
  case_bool_decide as Hc.
  - rewrite bool_decide_eq_false_2 by (intros ?; done). done.
  - rewrite bool_decide_eq_true_2 by done. cbn [negb andb]. done.
Qed.

Lemma check_all_aplus_guarded c0 checks lines (aplus dark : bool) all_ok lg :
  c0 = set_aplus_logged lg c →
  all_ok = (if dark then forallb (dark_aplus_ok game sp) light_levels_1_5
            else forallb (light_aplus_ok c game sp) light_levels_1_5) →
  let r := guarded_step (key_mem all_aplus_id) (key_add all_aplus_id)
             (all_aplus_fires c game sp)
             (fun dark : bool =>
                if aplus
                then unchecked c (all_aplus_id dark) (all_aplus_id dark)
                else @nil Z)
             (fun dark => [if dark then LineGirlBoy else LineGoldenGod])
             (checks, lg, lines) dark in
  check_all_aplus c0 checks lines aplus
    (all_aplus_id dark) all_ok (if dark then LineGirlBoy else LineGoldenGod)
  = (set_aplus_logged r.1.2 c, r.1.1, r.2).
Proof.
  intros -> ->. unfold check_all_aplus, guarded_step, key_mem, key_add,
    all_aplus_fires, unchecked.
  cbn [locations_checked aplus_logged set_aplus_logged].
  rewrite (bool_decide_not (all_aplus_id dark ∈ lg)).
  destruct (bool_decide (all_aplus_id dark ∉ locations_checked c));
    destruct (bool_decide (all_aplus_id dark ∈ lg)); cbn [andb negb];
    try done.
  destruct dark; case_match; destruct aplus; cbn [fst snd];
    rewrite ?app_nil_r; reflexivity.
Qed.

End achievements.

Lemma set_aplus_logged_id c : set_aplus_logged (aplus_logged c) c = c.
Proof. by destruct c. Qed.

Lemma check_achievements_phases c game sp checks s aplus :
  let r := ach_phases c game sp aplus
             (checks,
              ((worlds_cleared s, worlds_dark_cleared s),
               (ach_milestones_sent s,
                (warp_milestones_sent s,
                 (world_aplus_sent s, aplus_logged c)))), []) in
  _check_achievements c game sp checks true s aplus
  = (set_aplus_logged r.1.2.2.2.2.2 c, r.1.1,
     mkAchSets r.1.2.1.1 r.1.2.1.2 r.1.2.2.1 r.1.2.2.2.1 r.1.2.2.2.2.1, r.2).
Proof.
  intros r. subst r. unfold _check_achievements, ach_phases, seq_phase.
  cbn [negb]. unfold check_world_clears.
  rewrite check_world_clears_fold.
  change (w ← seqZ 1 7; [(w, false); (w, true)]) with clear_entries.
  cbn zeta.
  destruct (foldl _ _ clear_entries) as [[checks1 [wc wdc]] lines1].
  cbn [fst snd].
  rewrite (foldl_ext_eq _ _ _ _ (check_bandage_milestone_guarded c)).
  destruct (foldl _ _ BANDAGE_MILESTONES) as [[checks2 ms] lines2].
  assert (∀ checks3 lines3 was,
    (let '(c0, checks4, lines4) :=
       check_all_aplus c checks3 lines3 aplus golden_god_location_id
         (forallb (light_aplus_ok c game sp) light_levels_1_5) LineGoldenGod in
     let '(c1, checks5, lines5) :=
       check_all_aplus c0 checks4 lines4 aplus girl_boy_location_id
         (forallb (dark_aplus_ok game sp) light_levels_1_5) LineGirlBoy in
     (c1, checks5, was, lines5))
    = (let r := foldl (guarded_step (key_mem all_aplus_id) (key_add all_aplus_id)
                         (all_aplus_fires c game sp)
                         (fun dark : bool =>
                            if aplus
                            then unchecked c (all_aplus_id dark) (all_aplus_id dark)
                            else @nil Z)
                         (fun dark => [if dark then LineGirlBoy else LineGoldenGod]))
                  (checks3, aplus_logged c, lines3) [false; true] in
       (set_aplus_logged r.1.2 c, r.1.1, (was : ach_sets), r.2))) as Hall.
  { intros checks3 lines3 was. cbn [foldl].
    pose proof (check_all_aplus_guarded c game sp c checks3 lines3 aplus false
                  _ (aplus_logged c) (eq_sym (set_aplus_logged_id c)) eq_refl)
      as H1.
    cbn zeta in H1. cbn [all_aplus_id] in H1. rewrite H1. clear H1.
    destruct (guarded_step _ _ _ _ _ (checks3, aplus_logged c, lines3) false)
      as [[checks4 lg4] lines4].
    cbn [fst snd].
    pose proof (check_all_aplus_guarded c game sp _ checks4 lines4 aplus true
                  _ lg4 eq_refl eq_refl) as H2.
    cbn zeta in H2. cbn [all_aplus_id] in H2. rewrite H2. done. }
  destruct (warp_milestones_sent s) as [wms|];
    destruct (world_aplus_sent s) as [was|]; unfold opt_phase, when_phase;
    rewrite ?(foldl_ext_eq _ _ _ _ (check_warp_milestone_guarded c game sp));
    cbv beta iota zeta;
    try match goal with
        | |- context [foldl ?f ?a WARP_MILESTONE_LOCS] =>
            destruct (foldl f a WARP_MILESTONE_LOCS) as [[? ?] ?]
        end;
    cbv beta iota zeta;
    try destruct aplus;
    cbv beta iota zeta;
    rewrite ?(foldl_ext_eq _ _ _ _ (check_world_aplus_guarded c game sp));
    try match goal with
        | |- context [foldl ?f ?a (seqZ 1 5)] =>
            destruct (foldl f a (seqZ 1 5)) as [[? ?] ?]
        end;
    cbv beta iota zeta;
    rewrite Hall; cbv beta iota zeta;
    match goal with
    | |- context [foldl ?f ?a [false; true]] =>
        destruct (foldl f a [false; true]) as [[? ?] ?]
    end; reflexivity.
Qed.

Lemma ACHIEVEMENT_IDS_NoDup : NoDup ACHIEVEMENT_IDS.
Proof. apply (bool_decide_unpack _). vm_compute. reflexivity. Qed.

Lemma ach_phases_fire_once c game sp aplus (m : ach_marks) :
  ∃ new m',
    fire_once (ach_phases c game sp aplus) ACHIEVEMENT_IDS
      (locations_checked c) m new m'.
Proof.
  destruct m as [s1 [s2 [o3 [o4 s5]]]].
  destruct (opt_fire_once
    (fun acc =>
       foldl (guarded_step (key_mem fst) (key_add fst)
                (fun it : Z * Z =>
                   bool_decide (count_warps_done game sp >= it.1))
                (fun it => unchecked c it.2 it.2)
                (fun it => unchecked c it.2
                             (LineWarpMilestone (WARP_MILESTONE_NAMES !!! it.1)
                                (count_warps_done game sp))))
         acc WARP_MILESTONE_LOCS)
    (snd <$> WARP_MILESTONE_LOCS) (locations_checked c)) with (o := o3)
    as (n3 & o3' & H3).
  { intros s. eexists _, _. apply guarded_fire_once.
    - apply (bool_decide_unpack _). vm_compute. reflexivity.
    - apply set_marks_ok. intros x y Hx Hy Hne Hk. apply Hne.
      revert Hx Hy Hk. unfold WARP_MILESTONE_LOCS.
      rewrite !elem_of_cons, !elem_of_nil.
      destruct x as [x1 x2], y as [y1 y2]. cbn [fst].
      intros [?|[?|[?|[?|[]]]]] [?|[?|[?|[?|[]]]]] ?; simplify_eq; done.
    - intros it. apply unchecked_ids. }
  destruct (opt_fire_once
    (when_phase aplus (fun acc =>
       foldl (guarded_step (key_mem id) (key_add id)
                (world_aplus_fires c game sp)
                (fun w => unchecked c (world_aplus_id w) (world_aplus_id w))
                (fun w => unchecked c (world_aplus_id w)
                            (LineWorldAplus (WORLD_APLUS_NAMES !!! w)
                               (world_label w))))
         acc (seqZ 1 5)))
    (world_aplus_id <$> seqZ 1 5) (locations_checked c)) with (o := o4)
    as (n4 & o4' & H4).
  { apply when_fire_once. intros s. eexists _, _. apply guarded_fire_once.
    - apply NoDup_seqZ.
    - apply set_marks_ok. intros x y _ _ Hne. done.
    - intros w. apply unchecked_ids. }
  eexists _, _. unfold ach_phases, ACHIEVEMENT_IDS.
  apply seq_fire_once.
  { apply guarded_fire_once;
      [apply clear_entries_NoDup|apply clear_marks_ok|].
    intros e. apply unchecked_ids. }
  apply seq_fire_once.
  { apply guarded_fire_once.
    - apply (bool_decide_unpack _). vm_compute. reflexivity.
    - apply set_marks_ok. intros x y _ _ Hne. done.
    - intros w. apply unchecked_ids. }
  apply seq_fire_once; [exact H3|].
  apply seq_fire_once; [exact H4|].
  apply (guarded_fire_once _ _ _ _ _ all_aplus_id).
  - apply (bool_decide_unpack _). vm_compute. reflexivity.
  - apply set_marks_ok. intros [] [] _ _ Hne; done.
  - intros dark. destruct aplus; [apply unchecked_ids|by left].
Qed.

Lemma ach_phases_aplus_logged c game sp aplus lg :
  ach_phases (set_aplus_logged lg c) game sp aplus = ach_phases c game sp aplus.
Proof. reflexivity. Qed.

(** X21. [_check_achievements] only appends to [checks]: the
    new ids are pairwise different achievement ids, in the order of its
    loops, and none of them is in [locations_checked]; the client changes
    in [aplus_logged] only. Every achievement fires once: a second call
    with the client and the sets the first one left behind appends and
    logs nothing, whether or not the first batch was sent. *)
Theorem check_achievements_fire_once (c : APClient) (game : GameInterface)
    (sp : Z) (checks : list Z) (enabled : bool) (s : ach_sets)
    (aplus : bool) :
  let r := _check_achievements c game sp checks enabled s aplus in
  (∃ new, r.1.1.2 = checks ++ new ∧ new `sublist_of` ACHIEVEMENT_IDS
          ∧ NoDup new ∧ ∀ id, id ∈ new → id ∉ locations_checked c)
  ∧ (∃ lg, r.1.1.1 = set_aplus_logged lg c)
  ∧ ∀ checks2,
      _check_achievements r.1.1.1 game sp checks2 enabled r.1.2 aplus
      = (r.1.1.1, checks2, r.1.2, []).
Proof.
  intros r. subst r. destruct enabled.
  - pose proof (check_achievements_phases c game sp checks s aplus) as Hp.
    cbv zeta in Hp. rewrite Hp. clear Hp.
    destruct (ach_phases_fire_once c game sp aplus
      (worlds_cleared s, worlds_dark_cleared s,
       (ach_milestones_sent s,
        (warp_milestones_sent s, (world_aplus_sent s, aplus_logged c)))))
      as (new & m' & Hrun & Hsub & Hchk & Hidem).
    destruct (Hrun checks []) as [newl Hr]. unfold ach_marks in *.
    rewrite Hr. clear Hr.
    destruct m' as [[wc wdc] [ms [wms [was lg]]]]. cbn [fst snd].
    split; [|split].
    + exists new. split; [reflexivity|]. split; [exact Hsub|]. split; [|exact Hchk].
      exact (sublist_NoDup _ _ ACHIEVEMENT_IDS_NoDup Hsub).
    + by exists lg.
    + intros checks2.
      pose proof (check_achievements_phases (set_aplus_logged lg c) game sp
                    checks2 (mkAchSets wc wdc ms wms was) aplus) as Hp.
      cbv zeta in Hp. rewrite Hp. clear Hp.
      cbn [worlds_cleared worlds_dark_cleared ach_milestones_sent
           warp_milestones_sent world_aplus_sent].
      change (aplus_logged (set_aplus_logged lg c)) with lg.
      rewrite ach_phases_aplus_logged. unfold ach_marks in *.
      rewrite Hidem. reflexivity.
  - cbn. split; [|split; [|done]].
    + exists []. rewrite app_nil_r. split; [done|].
      split; [apply sublist_nil_l|]. split; [constructor|].
      by intros id ?%elem_of_nil.
    + exists (aplus_logged c). by rewrite set_aplus_logged_id.
Qed.

(** ** The batch of a sweep *)

Section sweep_batch.
Context (game : GameInterface) (sp world : Z) (aplus : bool).

(** Within a world, the completion id determines the level and the
    region. *)
Lemma completion_id_inj li region li' region' id :
  get_completion_location_id world li region = Some id →
  get_completion_location_id world li' region' = Some id →
  li = li' ∧ region = region'.
Proof.
  unfold get_completion_location_id, level_location_id, dark_level_location_id,
    w6_level_location_id, w6_dark_level_location_id, w7_light_location_id,
    w7_dark_location_id, BASE_ID.
  repeat case_decide; intros [= <-] [= Heq]; subst; split; (done || lia).
Qed.

Lemma sweep_levels_fold dark w7 (c : APClient) :
  _aplus_sweep c game sp world aplus dark w7
  = foldl (fun acc lv => sweep_level game sp world aplus lv.1 acc lv.2)
      (c, []) (sweep_levels world dark w7).
Proof.
  unfold _aplus_sweep, sweep_levels. cbn [foldl mbind list_bind].
  rewrite app_nil_r, foldl_app.
  assert (∀ region l (acc : APClient * list Z),
    foldl (fun acc lv => sweep_level game sp world aplus lv.1 acc lv.2) acc
      ((fun li => (region, li)) <$> l)
    = foldl (sweep_level game sp world aplus region) acc l) as Hf.
  { intros region l. induction l as [|li l IH]; intros acc; [done|].
    cbn [fmap list_fmap foldl fst snd]. apply IH. }
  destruct (sweep_skips world "light" dark w7);
    destruct (sweep_skips world "dark" dark w7); cbn [foldl];
    rewrite ?Hf; done.
Qed.

Lemma sweep_level_batch c0 visited region li acc :
  (region, li) ∉ visited →
  batch_inv c0 game sp world aplus visited acc →
  batch_inv c0 game sp world aplus (visited ++ [(region, li)])
    (sweep_level game sp world aplus region acc li).
Proof.
  destruct acc as [c checks].
  intros Hnew (Hf & Hlog & Hnd & Hq & Ha). cbn [fst snd] in *.
  assert (∀ id, id ∈ checks →
            id ∉ locations_checked c0
            ∧ ∃ lv, lv ∈ visited ++ [(region, li)]
                    ∧ sweep_queued c0 game sp world aplus id lv) as Hq'.
  { intros id Hid. destruct (Hq id Hid) as (? & lv & ? & ?).
    split; [done|]. exists lv. split; [|done]. apply elem_of_app. by left. }
  unfold sweep_level.
  destruct (bool_decide (read_comp game sp world li region < 0)
            || negb (truthy (Z.land (read_comp game sp world li region)
                               FLAG_COMPLETE))) eqn:Hcomp.
  { by split_and!. }
  apply orb_false_elim in Hcomp as [Hc0 Hc1].
  apply bool_decide_eq_false in Hc0. apply negb_false_iff in Hc1.
  apply bool_decide_eq_true in Hc1.
  pose proof Hf as (Hlc & Hfk & Hrb & Hdl).
  (* the completion part *)
  assert (batch_inv c0 game sp world aplus (visited ++ [(region, li)])
            (c, sweep_completion c world li region checks)) as Hinv1.
  { unfold sweep_completion.
    destruct (get_completion_location_id world li region) as [cid|] eqn:Hcid;
      [|by split_and!].
    destruct (truthy cid && bool_decide (cid ∉ locations_checked c)) eqn:Ht;
      [|by split_and!].
    apply andb_prop in Ht as [_ Hck%bool_decide_eq_true].
    rewrite Hlc in Hck.
    split; [done|]. split; [done|]. cbn [fst snd]. split; [|split].
    - apply NoDup_app. split; [done|]. split; [|apply NoDup_singleton].
      intros x Hx Hx'%list_elem_of_singleton. subst x.
      destruct (Hq cid Hx) as (_ & [r' li'] & Hv & _ & _ & [Hc|(_ & Hc & _)]).
      + destruct (completion_id_inj _ _ _ _ _ Hcid Hc) as [-> ->]. done.
      + by eapply completion_id_not_aplus.
    - intros id [Hid|Hid%list_elem_of_singleton]%elem_of_app; [auto|].
      subst id. split; [done|]. exists (region, li).
      split; [apply elem_of_app; right; by apply list_elem_of_singleton|].
      split; [lia|]. split; [done|]. by left.
    - intros id li' r' [Hid|Hid%list_elem_of_singleton]%elem_of_app Hid';
        [eauto|]. subst id. exfalso. by eapply completion_id_not_aplus. }
  destruct aplus eqn:Haplus; [|done].
  destruct (sweep_grade c game sp world li region) as [[[aid t] p]|] eqn:Hg;
    [|done].
  apply sweep_grade_Some in Hg as (Hpos & Hpar & Ht & Hnf & Hgt & Haid & Hck & Hl).
  rewrite (dark_lock_time_frame c0 c) in Ht by done. subst t.
  rewrite Hlc in Hck.
  destruct Hinv1 as (_ & _ & Hnd1 & Hq1 & Ha1). cbn [fst snd] in *.
  split; [done|]. cbn [fst snd]. split; [|split; [|split]].
  - intros x Hx. cbn. apply elem_of_union_l. auto.
  - apply NoDup_app. split; [done|]. split; [|apply NoDup_singleton].
    intros x Hx Hx'%list_elem_of_singleton. subst x. apply Hl. by eapply Ha1.
  - intros id [Hid|Hid%list_elem_of_singleton]%elem_of_app; [auto|].
    subst id. split; [done|]. exists (region, li).
    split; [apply elem_of_app; right; by apply list_elem_of_singleton|].
    split; [lia|]. split; [done|]. right. split; [done|]. split; [done|].
    split; [by intros ?%Hlog|]. split; [done|]. by exists p.
  - intros id li' r' [Hid|Hid%list_elem_of_singleton]%elem_of_app Hid'; cbn.
    + apply elem_of_union_l. by eapply Ha1.
    + subst id. apply elem_of_union_r. by apply elem_of_singleton.
Qed.

Lemma sweep_fold_batch c0 (l visited : list (string * Z)) acc :
  NoDup (visited ++ l) →
  batch_inv c0 game sp world aplus visited acc →
  batch_inv c0 game sp world aplus (visited ++ l)
    (foldl (fun acc lv => sweep_level game sp world aplus lv.1 acc lv.2) acc l).
Proof.
  revert visited acc.
  induction l as [|[region li] l IH]; intros visited acc Hnd Hinv.
  { by rewrite app_nil_r. }
  cbn [foldl fst snd].
  replace (visited ++ (region, li) :: l)
    with ((visited ++ [(region, li)]) ++ l) in * by (by rewrite <- app_assoc).
  apply IH; [done|]. apply sweep_level_batch; [|done].
  apply NoDup_app in Hnd as (Hnd & _ & _).
  apply NoDup_app in Hnd as (_ & Hnd & _).
  intros Hin. apply (Hnd _ Hin). by apply list_elem_of_singleton.
Qed.

Lemma sweep_levels_NoDup dark w7 : NoDup (sweep_levels world dark w7).
Proof.
  unfold sweep_levels. cbn [mbind list_bind]. rewrite app_nil_r.
  assert (∀ region : string,
    NoDup ((fun li => (region, li)) <$> seqZ 0 (default 20 (NUM_LEVELS !! world))))
    as Hr.
  { intros region. apply NoDup_fmap_2; [|apply NoDup_seqZ].
    intros ?? [= ?]. done. }
  destruct (sweep_skips world "light" dark w7);
    destruct (sweep_skips world "dark" dark w7);
    rewrite ?app_nil_r; cbn [app]; try done; try constructor.
  apply NoDup_app. split; [done|]. split; [|done].
  intros [r li] H1 H2.
  apply list_elem_of_fmap in H1 as (? & [= -> _] & _).
  by apply list_elem_of_fmap in H2 as (? & [= ?] & _).
Qed.

(** X22. The batch [_aplus_sweep] returns holds no id twice and
    no id of [locations_checked]; every id in it is the completion id of a
    complete level the sweep visits, or, with the A+ flag on, the A+ id of
    such a level that was not in [aplus_logged], has a positive time on
    disk and a graded time within par. *)
Theorem sweep_batch_sound (c : APClient) (dark w7 : bool) :
  let r := _aplus_sweep c game sp world aplus dark w7 in
  NoDup r.2
  ∧ ∀ id, id ∈ r.2 →
      id ∉ locations_checked c
      ∧ ∃ lv, lv ∈ sweep_levels world dark w7
              ∧ sweep_queued c game sp world aplus id lv.
Proof.
  intros r. subst r. rewrite sweep_levels_fold.
  destruct (sweep_fold_batch c (sweep_levels world dark w7) [] (c, []))
    as (_ & _ & Hnd & Hq & _).
  - apply sweep_levels_NoDup.
  - split; [done|]. split; [done|]. cbn. split; [constructor|].
    split; intros id; [by intros ?%elem_of_nil|].
    by intros ?? ?%elem_of_nil.
  - done.
Qed.

End sweep_batch.

(** ** The boss gate *)

Section boss_gate.

Lemma update_boss_tokens_fold_unlocked sp w (l : list (Z * Z)) acc :
  let r := foldl (update_boss_tokens_step sp) acc l in
  let opens :=
    ∃ needed, (w, needed) ∈ l ∧ 0 < needed
              ∧ needed <= default 0 (boss_token_counts acc.1.1 !! w) in
  boss_token_counts r.1.1 = boss_token_counts acc.1.1
  ∧ (w ∈ boss_unlocked r.1.1 ↔ w ∈ boss_unlocked acc.1.1 ∨ opens)
  ∧ (w ∈ r.2 ↔ w ∈ acc.2 ∨ (w ∉ boss_unlocked acc.1.1 ∧ opens)).
Proof.
  revert acc. induction l as [|[w0 needed0] l IH]; intros [[c g] n].
  { cbn. split; [done|]. split; [|split; [by left|]].
    - split; [by left|]. intros [?|(? & ?%elem_of_nil & _)]; done.
    - intros [?|(_ & ? & ?%elem_of_nil & _)]; done. }
  cbn [foldl]. cbn zeta.
  specialize (IH (update_boss_tokens_step sp (c, g, n) (w0, needed0))).
  cbn zeta in IH. destruct IH as (Hc & Hu & Hn).
  cbn [fst snd] in *.
  assert (∀ P : Z → Prop,
            (∃ needed, (w, needed) ∈ (w0, needed0) :: l ∧ P needed)
            ↔ (w = w0 ∧ P needed0) ∨ ∃ needed, (w, needed) ∈ l ∧ P needed)
    as Hex.
  { intros P. split.
    - intros (needed & [[= -> ->]|Hin]%elem_of_cons & HP); [by left|].
      right. by exists needed.
    - intros [[-> HP]|(needed & Hin & HP)].
      + exists needed0. split; [by left|done].
      + exists needed. split; [by right|done]. }
  rewrite Hc, Hu, Hn.
  rewrite (Hex (fun needed => 0 < needed
                  ∧ needed <= default 0 (boss_token_counts c !! w))).
  clear Hc Hu Hn Hex. unfold update_boss_tokens_step.
  destruct (bool_decide (needed0 <= 0)) eqn:H0; cbn [orb];
    [apply bool_decide_eq_true in H0|apply bool_decide_eq_false in H0].
  { cbn [fst snd]. split; [done|]. split; [naive_solver lia|naive_solver lia]. }
  destruct (bool_decide (w0 ∈ boss_unlocked c)) eqn:H1;
    [apply bool_decide_eq_true in H1|apply bool_decide_eq_false in H1].
  { cbn [fst snd]. split; [done|]. split; naive_solver. }
  destruct (bool_decide (default 0 (boss_token_counts c !! w0) >= needed0))
    eqn:H2;
    [apply bool_decide_eq_true in H2|apply bool_decide_eq_false in H2].
  - cbn [fst snd set_boss_unlocked boss_token_counts boss_unlocked].
    split; [done|]. rewrite elem_of_union, elem_of_singleton, elem_of_app,
      list_elem_of_singleton.
    destruct (decide (w = w0)) as [->|Hne].
    + split; [|naive_solver lia].
      split; [|naive_solver].
      intros _. destruct (decide (w0 ∈ boss_unlocked c)); [by left|].
      right. left. split; [done|]. lia.
    + split; naive_solver.
  - cbn [fst snd]. split; [done|]. split; naive_solver lia.
Qed.

(** X24. [_update_boss_tokens] opens exactly the worlds that were
    open or have an entry with a positive cost that the world's token
    count has reached, and returns the newly opened ones; a world whose
    cost is 0 or negative is never opened by tokens. In the enforcement
    pass that follows, a readable counter of a listed world that is not
    open ends at 0 and the counter of an open world at its native
    threshold or above. *)
Theorem boss_gate_follows_tokens (c : APClient) (game : GameInterface)
    (sp : Z) (costs : list (Z * Z)) (w : Z) :
  let r := _update_boss_tokens c game sp costs in
  let opens :=
    ∃ needed, (w, needed) ∈ costs ∧ 0 < needed
              ∧ needed <= default 0 (boss_token_counts c !! w) in
  let after :=
    read_boss_counter (_enforce_boss_counters r.1.1 r.1.2 sp costs) sp w in
  (w ∈ boss_unlocked r.1.1 ↔ w ∈ boss_unlocked c ∨ opens)
  ∧ (w ∈ r.2 ↔ w ∉ boss_unlocked c ∧ opens)
  ∧ (0 <= read_boss_counter r.1.2 sp w →
     (w ∉ boss_unlocked r.1.1 → w ∈ costs.*1 → after = 0)
     ∧ (w ∈ boss_unlocked r.1.1 →
        ∀ t, BOSS_UNLOCK_THRESHOLDS !! w = Some t → t <= after)).
Proof.
  intros r opens after. subst r opens after.
  destruct (update_boss_tokens_fold_unlocked sp w costs (c, game, []))
    as (_ & Hu & Hn).
  cbn zeta in Hu, Hn. cbn [fst snd] in Hu, Hn.
  fold (_update_boss_tokens c game sp costs) in Hu, Hn.
  split; [exact Hu|]. split.
  - rewrite Hn. split; [intros [?%elem_of_nil|?]; done|by right].
  - intros Hread.
    destruct (enforce_boss_counters_effect
                (_update_boss_tokens c game sp costs).1.1
                (_update_boss_tokens c game sp costs).1.2 sp costs w Hread)
      as [Hlocked Hopen].
    split; [exact Hlocked|]. intros Hin t Ht. rewrite (Hopen Hin t Ht). lia.
Qed.

End boss_gate.

(** ** Reading the warp slots *)

Section warp_slot_reads.

Lemma warp_addrs (world i : Z) :
  1 <= world <= 5 →
  comp_addr world i "warp"
  = Some (world_base world + WARP_OFFSET + i * SLOT_SIZE + COMP_BYTE)
  ∧ time_addr world i "warp"
    = Some (world_base world + WARP_OFFSET + i * SLOT_SIZE + TIME_BYTE).
Proof.
  intros Hw.
  unfold comp_addr, time_addr, _orig_comp_addr, _orig_time_addr,
    smb_game_data.comp_addr, smb_game_data.time_addr, smb_game_data.slot_addr.
  rewrite !decide_False by (intros [? _]; lia).
  rewrite (WORLD_BASES_lookup world) by lia.
  rewrite !decide_False by done. rewrite !decide_True by done. done.
Qed.

(** X25. [read_warp_slots] and [read_warp_slots_full] always
    return 12 entries. For worlds 1 to 5, entry [i] of [read_warp_slots] is
    what [read_comp] returns for warp slot [i]; entry [i] of
    [read_warp_slots_full] is the pair of [read_comp] and [read_time] when
    both cells can be read, and [(-1, -1.0)] as soon as one of them cannot.
    For worlds 6 and 7 [read_comp] of a warp slot is -1. *)
Theorem warp_slot_reads (g : GameInterface) (sp world i : Z) :
  length (read_warp_slots g sp world) = 12%nat
  ∧ length (read_warp_slots_full g sp world) = 12%nat
  ∧ (1 <= world <= 5 → 0 <= i < 12 →
     read_warp_slots g sp world !! Z.to_nat i
     = Some (read_comp g sp world i "warp")
     ∧ (comp_readable g sp world i "warp" ∧ time_readable g sp world i "warp" →
        read_warp_slots_full g sp world !! Z.to_nat i
        = Some (read_comp g sp world i "warp", read_time g sp world i "warp"))
     ∧ (¬ (comp_readable g sp world i "warp"
           ∧ time_readable g sp world i "warp") →
        read_warp_slots_full g sp world !! Z.to_nat i = Some (-1, (-1.0)%Q)))
  ∧ (world = 6 ∨ world = 7 → read_comp g sp world i "warp" = -1).
Proof.
  split; [|split; [|split]].
  - unfold read_warp_slots. repeat case_match;
      rewrite ?length_replicate, ?length_fmap, ?length_seqZ; done.
  - unfold read_warp_slots_full. repeat case_match;
      rewrite ?length_replicate, ?length_fmap, ?length_seqZ; done.
  - intros Hw Hi. destruct (warp_addrs world i Hw) as [Hca Hta].
    unfold read_warp_slots, read_warp_slots_full, read_comp, read_time,
      comp_readable, time_readable.
    rewrite Hca, Hta, (WORLD_BASES_lookup world) by lia.
    assert (Z.to_nat i < 12)%nat as Hn by lia.
    destruct (decide (sp = 0)) as [->|Hsp].
    { split; [by apply lookup_replicate_2|]. split; [by intros [[? _] _]|].
      intros _. by apply lookup_replicate_2. }
    change NUM_WARP_SLOTS with 12.
    rewrite !list_lookup_fmap.
    rewrite (lookup_seqZ_lt 0 12 (Z.to_nat i)) by lia.
    cbn [fmap option_fmap option_map]. rewrite Z2Nat.id, Z.add_0_l by lia.
    split; [done|]. unfold peek_uchar, peek_float, try_except.
    rewrite !Z.add_assoc.
    set (ca := sp + world_base world + WARP_OFFSET + i * SLOT_SIZE + COMP_BYTE).
    set (ta := sp + world_base world + WARP_OFFSET + i * SLOT_SIZE + TIME_BYTE).
    assert (∀ x, Some (world_base world + WARP_OFFSET + i * SLOT_SIZE + COMP_BYTE)
                 = Some x → sp + x = ca) as Hxc by (intros x [= <-]; subst ca; lia).
    assert (∀ x, Some (world_base world + WARP_OFFSET + i * SLOT_SIZE + TIME_BYTE)
                 = Some x → sp + x = ta) as Hxt by (intros x [= <-]; subst ta; lia).
    destruct (pm g) as [m|]; cbn [mbind option_bind default].
    2: { split; [|done]. intros [(_ & x & _ & Hs) _]. by destruct Hs. }
    destruct (read_uchar m ca) as [cv|] eqn:Ec; cbn [mbind option_bind default].
    2: { split; [|done]. intros [(_ & x & Hx & Hs) _].
         rewrite (Hxc x Hx), Ec in Hs. by destruct Hs. }
    destruct (read_float m ta) as [tv|] eqn:Et; cbn [mbind option_bind default].
    2: { split; [|done]. intros [_ (_ & x & Hx & Hs)].
         rewrite (Hxt x Hx), Et in Hs. by destruct Hs. }
    split; [done|]. intros Hno. exfalso. apply Hno.
    split; (split; [done|]); eexists; (split; [reflexivity|]);
      rewrite !Z.add_assoc; [fold ca; rewrite Ec|fold ta; rewrite Et];
      by eexists.
  - intros Hw. unfold read_comp, comp_addr.
    destruct Hw as [-> | ->]; by rewrite ?decide_False, ?decide_True by naive_solver.
Qed.

End warp_slot_reads.

(** ** A+ ids are queued once *)

Section aplus_once.

Lemma sweep_batch_inv game sp world aplus c dark w7 :
  batch_inv c game sp world aplus (sweep_levels world dark w7)
    (_aplus_sweep c game sp world aplus dark w7).
Proof.
  rewrite sweep_levels_fold.
  apply (sweep_fold_batch game sp world aplus c (sweep_levels world dark w7) []
           (c, [])).
  - apply sweep_levels_NoDup.
  - split; [done|]. split; [done|]. cbn. split; [constructor|].
    split; intros id; [by intros ?%elem_of_nil|].
    by intros ?? ?%elem_of_nil.
Qed.

(** X26. Every A+ id that [_check_aplus] or [_aplus_sweep] adds
    to a batch was in neither [aplus_logged] nor [locations_checked] and is
    in [aplus_logged] afterwards, and neither call removes an id from
    [aplus_logged]. So an A+ id is queued at most once by these two paths,
    whatever the memory shows later, and an id already in [aplus_logged] is
    never queued by them. [_check_aplus] queues at most one id, the A+ id
    of its level, and only with the A+ flag on. *)
Theorem aplus_ids_queued_once :
  (∀ c game sp w li r checks aplus,
     let r1 := _check_aplus c game sp w li r checks aplus in
     aplus_logged c ⊆ aplus_logged r1.1
     ∧ ∃ new, r1.2 = checks ++ new
         ∧ ∀ id, id ∈ new →
             aplus = true ∧ new = [id]
             ∧ get_aplus_location_id w li r = Some id
             ∧ id ∉ aplus_logged c ∧ id ∉ locations_checked c
             ∧ id ∈ aplus_logged r1.1)
  ∧ (∀ c game sp world aplus dark w7,
       let r2 := _aplus_sweep c game sp world aplus dark w7 in
       aplus_logged c ⊆ aplus_logged r2.1
       ∧ ∀ id, id ∈ r2.2 → is_aplus_id id →
           id ∉ aplus_logged c ∧ id ∉ locations_checked c
           ∧ id ∈ aplus_logged r2.1).
Proof.
  split.
  - intros c game sp w li r checks aplus r1. subst r1.
    assert (∀ c0 : APClient, aplus_logged c ⊆ aplus_logged c0 →
              aplus_logged c ⊆ aplus_logged c0
              ∧ ∃ new, checks = checks ++ new
                  ∧ ∀ id, id ∈ new →
                      aplus = true ∧ new = [id]
                      ∧ get_aplus_location_id w li r = Some id
                      ∧ id ∉ aplus_logged c ∧ id ∉ locations_checked c
                      ∧ id ∈ aplus_logged c0) as Hsame.
    { intros c0 Hc0. split; [done|]. exists []. rewrite app_nil_r.
      split; [done|]. by intros id ?%elem_of_nil. }
    unfold _check_aplus.
    repeat case_match; cbn [fst snd]; try (apply Hsame; cbn; set_solver).
    match goal with
    | H : truthy _ && _ && _ = true |- _ =>
        apply andb_prop in H as [[_ Hck%bool_decide_eq_true]%andb_prop
                                   Hlg%bool_decide_eq_true]
    end.
    split; [cbn; set_solver|].
    eexists [_]. split; [done|].
    intros id Hid%list_elem_of_singleton. subst id. cbn. set_solver.
  - intros c game sp world aplus dark w7 r2. subst r2.
    destruct (sweep_batch_inv game sp world aplus c dark w7)
      as (_ & Hmono & _ & Hq & Hlog).
    split; [exact Hmono|]. intros id Hid (w' & li' & r' & Hap).
    destruct (Hq id Hid) as (Hck & [r li] & _ & _ & _ & [Hc|Ha]).
    + exfalso. by eapply completion_id_not_aplus.
    + destruct Ha as (_ & Hap' & Hnl & _). split; [done|]. split; [done|].
      by eapply Hlog.
Qed.

End aplus_once.
